(** * Familiada: the game-session state machine

    A shallow embedding of the TypeScript classes [Answer], [Question],
    [Team], [QuestionStore], [Round] and [Game] together with
    [board.removeDiacritics], followed by the properties of rounds, awards,
    the steal mechanic and the undo stack.  Also embedded are
    [board.fillAnswerField], the loops of [board.setErrors] and
    [board.manageAnswerFields], the [keydown] listener of the entry point
    and [formatAnswers] of the export script; the last part has further
    properties of the store, the game, the board and the keyboard.

    Conventions of the embedding.
    - A JS [number] is a [Z]: the datasets hold integers and the code only
      adds, multiplies, compares and takes remainders.
    - A JS [string] is the list of its UTF-16 code units.
    - A JS [Set<number>] is a [gset Z].
    - A [Team] object is shared between [Game.teams] and the variables that
      hold it; a reference to it is its index in [game_teams], and a method
      call on the object rewrites that slot.
    - [Round] methods receive the game they belong to; they are written as
      operations on the game, whose [game_round] is their [this].
    - Calls into the [board] and [audio] modules only touch the page and the
      speakers.  Each call is recorded, with its arguments, in the list of
      effects an operation returns; the page itself is not part of the state
      (the rows and team panels that [board] looks up are taken to exist).
    - [Math.random] is an input: the operations that draw take the draw. *)

From Stdlib Require Import ZArith Lia Ascii String Sorted.
From stdpp Require Import base decidable option list gmap sets.

Local Open Scope Z_scope.

(** ** JS strings *)

Abbreviation jsString := (list N).

(** The code units of an ASCII literal. *)
Definition str (s : string) : jsString :=
  map N_of_ascii (list_ascii_of_string s).

Definition inRange (lo hi c : N) : bool := ((lo <=? c) && (c <=? hi))%N.

(** [String.prototype.toLowerCase], per code unit.  Exact on Basic Latin
    and on the capital letters of the Polish alphabet; other code units are
    left as they are. *)
Definition lowerUnit (c : N) : N :=
  if inRange 65 90 c then (c + 32)%N                       (* A-Z *)
  else if (c =? 211)%N then 243%N                          (* O acute *)
  else if existsb (N.eqb c) [260; 262; 280; 321; 323; 346; 377; 379]%N
       then (c + 1)%N         (* A/E ogonek, C/N/S/Z acute, L stroke, Z dot *)
  else c.

Definition toLowerCase (s : jsString) : jsString := map lowerUnit s.

(** [String.prototype.normalize('NFKD')], per code unit.  Basic Latin is
    already normalised; a Polish letter with a diacritic decomposes into its
    base letter and a combining mark (U+0301 acute, U+0307 dot above, U+0328
    ogonek); L with stroke has no decomposition.  Other code units are left
    as they are. *)
Definition decomposeUnit (c : N) : list N :=
  (if c =? 211 then [79; 769]        else if c =? 243 then [111; 769]
   else if c =? 260 then [65; 808]   else if c =? 261 then [97; 808]
   else if c =? 262 then [67; 769]   else if c =? 263 then [99; 769]
   else if c =? 280 then [69; 808]   else if c =? 281 then [101; 808]
   else if c =? 323 then [78; 769]   else if c =? 324 then [110; 769]
   else if c =? 346 then [83; 769]   else if c =? 347 then [115; 769]
   else if c =? 377 then [90; 769]   else if c =? 378 then [122; 769]
   else if c =? 379 then [90; 775]   else if c =? 380 then [122; 775]
   else [c])%N.

Definition normalizeNFKD (s : jsString) : jsString :=
  concat (map decomposeUnit s).

(** The regular-expression classes [\w] and [\s] (without the [u] flag). *)
Definition isWordUnit (c : N) : bool :=
  inRange 48 57 c || inRange 65 90 c || inRange 97 122 c || (c =? 95)%N.

Definition isSpaceUnit (c : N) : bool :=
  inRange 9 13 c || (c =? 32)%N || (c =? 160)%N || (c =? 5760)%N
  || inRange 8192 8202 c || (c =? 8232)%N || (c =? 8233)%N
  || (c =? 8239)%N || (c =? 8287)%N || (c =? 12288)%N || (c =? 65279)%N.

(** The class [[\w\s.-_\/]]: inside the brackets [.-_] is the range from
    the full stop (46) to the underscore (95). *)
Definition keptUnit (c : N) : bool :=
  isWordUnit c || isSpaceUnit c || inRange 46 95 c || (c =? 47)%N.

(** [board.removeDiacritics]:
    [input.replace(/ł/g, "l").normalize('NFKD').replace(/[^\w\s.-_\/]/g, '')]. *)
Definition removeDiacritics (input : jsString) : jsString :=
  filter (fun c => keptUnit c = true)
    (normalizeNFKD (map (fun c => if (c =? 322)%N then 108%N else c) input)).

(** ** Records of the model *)

Inductive ROUND_STATUS := DEFAULT | STOLEN.

#[global] Instance ROUND_STATUS_eq_dec : EqDecision ROUND_STATUS.
Proof. solve_decision. Defined.

Record Answer := mkAnswer { ans : jsString; lp : Z; points : Z }.

Record Question := mkQuestion {
  question_name : jsString;
  question_answers : list Answer }.

Record Team := mkTeam {
  team_name : jsString;
  team_points : Z;
  team_errors : Z }.

Record QuestionStore := mkStore {
  store_random : bool;
  store_questions : list Question;
  store_currentQuestionIndex : Z }.

Record Round := mkRound {
  round_right : Z;
  round_status : ROUND_STATUS;
  round_points : Z;
  round_revealed : gset Z;
  round_question : Question }.

(** The [board] field of the TypeScript snapshot is a capture of the page
    and lives with the page, outside this record. *)
Record UndoSnapshot := mkSnapshot {
  snap_roundCount : Z;
  snap_pendingNextRound : bool;
  snap_currentTeam : jsString;
  snap_questionsStoreIndex : Z;
  snap_roundQuestion : Question;
  snap_roundStatus : ROUND_STATUS;
  snap_roundPoints : Z;
  snap_roundRight : Z;
  snap_revealed : list Z;
  snap_teamState : list (jsString * Z * Z) }.

(** [game_currentTeam] holds a string in every constructed game: the
    constructor assigns it through [setRandomTeam] and [setCurrentTeam]
    takes a string.  The empty string is the falsy value "no team". *)
Record Game := mkGame {
  game_teams : list Team;
  game_questionsStore : QuestionStore;
  game_roundCount : Z;
  game_pendingNextRound : bool;
  game_undoStack : list UndoSnapshot;
  game_round : Round;
  game_currentTeam : jsString }.

(** Field assignments. *)
Definition set_teams (f : list Team -> list Team) (g : Game) : Game :=
  mkGame (f (game_teams g)) (game_questionsStore g) (game_roundCount g)
    (game_pendingNextRound g) (game_undoStack g) (game_round g)
    (game_currentTeam g).
Definition set_questionsStore (s : QuestionStore) (g : Game) : Game :=
  mkGame (game_teams g) s (game_roundCount g) (game_pendingNextRound g)
    (game_undoStack g) (game_round g) (game_currentTeam g).
Definition set_roundCount (n : Z) (g : Game) : Game :=
  mkGame (game_teams g) (game_questionsStore g) n (game_pendingNextRound g)
    (game_undoStack g) (game_round g) (game_currentTeam g).
Definition set_pendingNextRound (b : bool) (g : Game) : Game :=
  mkGame (game_teams g) (game_questionsStore g) (game_roundCount g) b
    (game_undoStack g) (game_round g) (game_currentTeam g).
Definition set_undoStack (st : list UndoSnapshot) (g : Game) : Game :=
  mkGame (game_teams g) (game_questionsStore g) (game_roundCount g)
    (game_pendingNextRound g) st (game_round g) (game_currentTeam g).
Definition set_round (r : Round) (g : Game) : Game :=
  mkGame (game_teams g) (game_questionsStore g) (game_roundCount g)
    (game_pendingNextRound g) (game_undoStack g) r (game_currentTeam g).
Definition set_currentTeam (t : jsString) (g : Game) : Game :=
  mkGame (game_teams g) (game_questionsStore g) (game_roundCount g)
    (game_pendingNextRound g) (game_undoStack g) (game_round g) t.

(** ** Effects: the calls into [board] and [audio] *)

Inductive Effect :=
| board_setQuestion (text : jsString)
| board_manageAnswerFields (answerLength : nat)
| board_setAnswer (number : Z) (text : jsString) (pts : Z)
| board_setErrors (team : jsString) (errorCnt : Z)
| board_setPoints (team : jsString) (pts : Z)
| board_finishGame (team : jsString)
| board_setActiveTeam (team : jsString)
| board_clearBoard
| board_restoreBoardState
| audio_playReveal
| audio_playWrong.

#[global] Instance Effect_eq_dec : EqDecision Effect.
Proof. solve_decision. Defined.

(** ** Operations on a game

    An operation runs on a game and either throws ([None]) or returns a
    value, the game it leaves and the effects it requested, in order. *)

Definition Op (A : Type) : Type := Game -> option (A * Game * list Effect).

Definition ret {A} (a : A) : Op A := fun g => Some (a, g, []).

Definition bind {A B} (m : Op A) (k : A -> Op B) : Op B := fun g =>
  match m g with
  | None => None
  | Some (a, g1, l1) =>
      match k a g1 with
      | None => None
      | Some (b, g2, l2) => Some (b, g2, l1 ++ l2)
      end
  end.

Definition get : Op Game := fun g => Some (g, g, []).
Definition modify (f : Game -> Game) : Op unit := fun g => Some (tt, f g, []).
Definition emit (e : Effect) : Op unit := fun g => Some (tt, g, [e]).
Definition throw {A} : Op A := fun _ => None.

Declare Scope op_scope.
Delimit Scope op_scope with op.
Notation "x <- m ;; k" := (bind m (fun x => k))
  (at level 100, m at next level, right associativity) : op_scope.
Notation "m ;; k" := (bind m (fun _ => k))
  (at level 100, right associativity) : op_scope.
Local Open Scope op_scope.

(** [for (const x of xs) body(x)] *)
Fixpoint forEach {A} (xs : list A) (body : A -> Op unit) : Op unit :=
  match xs with
  | [] => ret tt
  | x :: xs' => body x ;; forEach xs' body
  end.

(** ** Team *)

Definition Team_new (name : jsString) : Team := mkTeam name 0 0.
Definition Team_addPoints (p : Z) (t : Team) : Team :=
  mkTeam (team_name t) (team_points t + p) (team_errors t).
Definition Team_setPoints (p : Z) (t : Team) : Team :=
  mkTeam (team_name t) (Z.max 0 p) (team_errors t).
Definition Team_addError (t : Team) : Team :=
  mkTeam (team_name t) (team_points t) (team_errors t + 1).
Definition Team_removeError (t : Team) : Team :=
  mkTeam (team_name t) (team_points t) (Z.max 0 (team_errors t - 1)).
Definition Team_setErrors (e : Z) (t : Team) : Team :=
  mkTeam (team_name t) (team_points t) (Z.max 0 e).
Definition Team_resetErrors (t : Team) : Team :=
  mkTeam (team_name t) (team_points t) 0.

(** ** Question *)

(** The constructor keeps the entries that are not [null]. *)
Definition Question_new (name : jsString) (answers : list (option Answer))
  : Question :=
  mkQuestion name (omap id answers).

Definition Question_getAnswersWords (q : Question) : list jsString :=
  map ans (question_answers q).

(** ** QuestionStore *)

(** A dataset entry as the loader hands it over: a falsy placeholder
    ([null], [undefined], [false], [0], [NaN], the empty string) or a record
    of the three answer fields. *)
Inductive Falsy := JsNull | JsUndefined | JsFalse | JsZero | JsNaN | JsEmpty.

Inductive RawEntry :=
| RawFalsy (v : Falsy)
| RawRecord (a : Answer).

(** [answers.filter(answer => answer)] *)
Definition truthy (e : RawEntry) : bool :=
  match e with RawFalsy _ => false | RawRecord _ => true end.

(** [new Answer(answer)]: the three fields are read off the entry.  There
    is no record to build from a falsy entry: reading a field of [null] or
    [undefined] throws, and the falsy primitives have none of the fields. *)
Definition Answer_new (e : RawEntry) : option Answer :=
  match e with
  | RawFalsy _ => None
  | RawRecord a => Some (mkAnswer (ans a) (lp a) (points a))
  end.

(** [answers.filter(answer => answer).map(answer => new Answer(answer))] *)
Definition parseAnswers (answers : list RawEntry) : option (list Answer) :=
  mapM Answer_new (filter (fun e => truthy e = true) answers).

(** One turn of the loop of [parseQuestions]; the constructor of
    [Question] takes a list that may hold [null]. *)
Definition parseQuestion (line : jsString * list RawEntry)
  : option Question :=
  parsedAnswers ← parseAnswers line.2;
  Some (Question_new line.1 (Some <$> parsedAnswers)).

(** The dataset is the list [Object.entries] enumerates. *)
Definition QuestionStore_parseQuestions
  (questions : list (jsString * list RawEntry)) : option (list Question) :=
  mapM parseQuestion questions.

(** [[copy[i], copy[j]] = [copy[j], copy[i]]] *)
Definition swap {A} (copy : list A) (i j : nat) : list A :=
  match copy !! i, copy !! j with
  | Some a, Some b => <[j := a]> (<[i := b]> copy)
  | _, _ => copy
  end.

(** The loop [for (let i = copy.length - 1; i > 0; i--)], entered at [i].
    [rand i] stands for the draw made at position [i]; the code's
    [Math.floor(Math.random() * (i + 1))] lies in [0..i]. *)
Fixpoint shuffleFrom {A} (rand : nat -> nat) (i : nat) (copy : list A)
  : list A :=
  match i with
  | O => copy
  | S i' => shuffleFrom rand i' (swap copy i (rand i mod (i + 1))%nat)
  end.

Definition QuestionStore_shuffleQuestions (rand : nat -> nat)
  (questions : list Question) : list Question :=
  shuffleFrom rand (length questions - 1)%nat questions.

(** The constructor, with the draws of the shuffle; [None] when building
    an answer throws. *)
Definition QuestionStore_new (questions : list (jsString * list RawEntry))
  (random : bool) (rand : nat -> nat) : option QuestionStore :=
  parsed ← QuestionStore_parseQuestions questions;
  Some (mkStore random
          (if random then QuestionStore_shuffleQuestions rand parsed
           else parsed)
          0).

(** [this.questions[i]]: [undefined] off the ends. *)
Definition questionAt (s : QuestionStore) (i : Z) : option Question :=
  if i <? 0 then None else store_questions s !! Z.to_nat i.

Definition QuestionStore_getNextQuestion (s : QuestionStore)
  : option Question * QuestionStore :=
  let len := Z.of_nat (length (store_questions s)) in
  if len =? 0 then (None, s)
  else (questionAt s (store_currentQuestionIndex s),
        mkStore (store_random s) (store_questions s)
          (Z.rem (store_currentQuestionIndex s + 1) len)).

(** An integer is always finite, so the [Number.isFinite] guard passes. *)
Definition QuestionStore_setCurrentQuestionIndex (index : Z)
  (s : QuestionStore) : QuestionStore :=
  let len := Z.of_nat (length (store_questions s)) in
  if len =? 0 then mkStore (store_random s) (store_questions s) 0
  else mkStore (store_random s) (store_questions s)
         (Z.rem (Z.rem index len + len) len).

(** ** Game: the small methods Round relies on *)

(** [if (!this.currentTeam) return null; return this.teams.find(...) || null].
    The result is the slot of the team object. *)
Definition Game_getCurrentTeam (g : Game) : option nat :=
  match game_currentTeam g with
  | [] => None
  | _ => fst <$> list_find (fun t => team_name t = game_currentTeam g)
                   (game_teams g)
  end.

Definition Game_snapshot (g : Game) : UndoSnapshot :=
  mkSnapshot (game_roundCount g) (game_pendingNextRound g)
    (game_currentTeam g)
    (store_currentQuestionIndex (game_questionsStore g))
    (round_question (game_round g)) (round_status (game_round g))
    (round_points (game_round g)) (round_right (game_round g))
    (elements (round_revealed (game_round g)))
    ((fun t => (team_name t, team_points t, team_errors t))
       <$> game_teams g).

Definition Game_pushUndoSnapshot : Op unit :=
  modify (fun g => set_undoStack (Game_snapshot g :: game_undoStack g) g).

Definition Game_setCurrentTeam (teamName : jsString) (skipUndo : bool)
  : Op unit :=
  (if skipUndo then ret tt else Game_pushUndoSnapshot) ;;
  modify (set_currentTeam teamName) ;;
  emit (board_setActiveTeam teamName).

Definition Game_switchCurrentTeam : Op unit :=
  g <- get ;;
  match list_find (fun t => team_name t <> game_currentTeam g)
          (game_teams g) with
  | Some (_, otherTeam) => Game_setCurrentTeam (team_name otherTeam) true
  | None => ret tt
  end.

(** [this.teams[Math.round(Math.random())].getName()]: [r] is the rounded
    draw, 0 or 1; reading the name of a missing team throws. *)
Definition Game_setRandomTeam (r : nat) : Op unit :=
  g <- get ;;
  match game_teams g !! r with
  | Some t => Game_setCurrentTeam (team_name t) true
  | None => throw
  end.

(** ** Round *)

Definition Round_new (q : Question) : Op Round :=
  emit (board_setQuestion (question_name q)) ;;
  emit (board_manageAnswerFields (length (question_answers q))) ;;
  ret (mkRound 0 DEFAULT 0 ∅ q).

(** An assignment to fields of [this] in a method of [Round]. *)
Definition modifyRound (f : Round -> Round) : Op unit :=
  modify (fun g => set_round (f (game_round g)) g).

Definition Round_checkFinish (r : Round) : bool :=
  Z.of_nat (length (question_answers (round_question r))) =? round_right r.

Definition multiplier (roundCount : Z) : Z :=
  if roundCount =? 4 then 2 else if roundCount =? 5 then 3 else 1.

Definition Round_finishGame (teamName : jsString) : Op unit :=
  emit (board_finishGame teamName).

(** [this.revealed.add(lp); ...; this.right++] and, on the awarding path,
    [this.points += answer.points] *)
Definition revealIn (a : Answer) (award : bool) (r : Round) : Round :=
  mkRound (round_right r + 1) (round_status r)
    (if award then round_points r + points a else round_points r)
    ({[ lp a ]} ∪ round_revealed r) (round_question r).

(** The team object in slot [i].  A slot outside the array is not a team
    object; the callers only hold slots that [getCurrentTeam] returned. *)
Definition teamAt (i : nat) : Op Team :=
  g <- get ;;
  match game_teams g !! i with
  | Some t => ret t
  | None => throw
  end.

Definition Round_finishRound : Op unit :=
  g <- get ;;
  let awardedPoints :=
    round_points (game_round g) * multiplier (game_roundCount g) in
  match Game_getCurrentTeam g with
  | Some i =>
      modify (set_teams (alter (Team_addPoints awardedPoints) i)) ;;
      t <- teamAt i ;;
      emit (board_setPoints (team_name t) (team_points t)) ;;
      if 400 <=? team_points t
      then Round_finishGame (team_name t)
      else (Game_switchCurrentTeam ;; modify (set_pendingNextRound true))
  | None => Game_switchCurrentTeam ;; modify (set_pendingNextRound true)
  end.

Definition Round_setBoardAnswer (a : Answer) : Op unit :=
  g <- get ;;
  if decide (lp a ∈ round_revealed (game_round g)) then ret tt
  else
    modifyRound (revealIn a true) ;;
    emit (board_setAnswer (lp a) (ans a) (points a)) ;;
    emit audio_playReveal ;;
    g1 <- get ;;
    if Round_checkFinish (game_round g1)
       || bool_decide (round_status (game_round g1) = STOLEN)
    then Round_finishRound
    else ret tt.

Definition Round_revealAnswerOnly (a : Answer) : Op unit :=
  g <- get ;;
  if decide (lp a ∈ round_revealed (game_round g)) then ret tt
  else
    modifyRound (revealIn a false) ;;
    emit (board_setAnswer (lp a) (ans a) (points a)) ;;
    emit audio_playReveal.

Definition setStatus (st : ROUND_STATUS) (r : Round) : Round :=
  mkRound (round_right r) st (round_points r) (round_revealed r)
    (round_question r).

(** [team] is the slot of the team object the caller got from
    [getCurrentTeam]. *)
Definition Round_setBoardError (team : nat) : Op unit :=
  modify (set_teams (alter Team_addError team)) ;;
  t <- teamAt team ;;
  emit (board_setErrors (team_name t) (team_errors t)) ;;
  emit audio_playWrong ;;
  g <- get ;;
  if decide (round_status (game_round g) = STOLEN)
  then
    Game_switchCurrentTeam ;;
    g1 <- get ;;
    let awardedPoints :=
      round_points (game_round g1) * multiplier (game_roundCount g1) in
    match Game_getCurrentTeam g1 with
    | Some i =>
        modify (set_teams (alter (Team_addPoints awardedPoints) i)) ;;
        currentTeam <- teamAt i ;;
        emit (board_setPoints (team_name currentTeam)
                (team_points currentTeam)) ;;
        if 400 <=? team_points currentTeam
        then Round_finishGame (team_name currentTeam)
        else (Game_switchCurrentTeam ;; modify (set_pendingNextRound true))
    | None => Game_switchCurrentTeam ;; modify (set_pendingNextRound true)
    end
  else
    t' <- teamAt team ;;
    if team_errors t' =? 3
    then
      Game_switchCurrentTeam ;;
      modifyRound (setStatus STOLEN)
    else ret tt.

(** ** Game *)

(** [this.questionsStore.getQuestion()] *)
Definition Game_getQuestion : Op (option Question) :=
  g <- get ;;
  let '(q, s) := QuestionStore_getNextQuestion (game_questionsStore g) in
  modify (set_questionsStore s) ;;
  ret q.

(** [new Round(q!)]: the constructor reads [q.getName()], which throws when
    the store had no question to give. *)
Definition newRoundOf (q : option Question) : Op Round :=
  match q with
  | Some q => Round_new q
  | None => throw
  end.

(** [new Game(teams, questionsStore)], with the rounded draw [r] of
    [setRandomTeam].  Before that call the [currentTeam] field is unset. *)
Definition Game_new (teams : list Team) (questionsStore : QuestionStore)
  (r : nat) : option (Game * list Effect) :=
  let '(q, s) := QuestionStore_getNextQuestion questionsStore in
  match q with
  | None => None
  | Some q =>
      let g0 := mkGame teams s 1 false [] (mkRound 0 DEFAULT 0 ∅ q) [] in
      match (Round_new q ;; Game_setRandomTeam r) g0 with
      | Some (_, g, log) => Some (g, log)
      | None => None
      end
  end.

Definition Game_resetTeamsErrors : Op unit :=
  modify (set_teams (map Team_resetErrors)).

Definition Game_startNewRound (r : nat) : Op unit :=
  Game_pushUndoSnapshot ;;
  emit board_clearBoard ;;
  modify (set_pendingNextRound false) ;;
  Game_resetTeamsErrors ;;
  modify (fun g => set_roundCount (game_roundCount g + 1) g) ;;
  q <- Game_getQuestion ;;
  rd <- newRoundOf q ;;
  modify (set_round rd) ;;
  Game_setRandomTeam r.

Definition Game_advanceToNextRound (r : nat) : Op bool :=
  g <- get ;;
  if game_pendingNextRound g then Game_startNewRound r ;; ret true
  else ret false.

(** [this.round.getQuestion().getAnswers().find(a => a.lp === number)] *)
Definition findByNumber (number : Z) (g : Game) : option Answer :=
  snd <$> list_find (fun a => lp a = number)
            (question_answers (round_question (game_round g))).

(** The tail shared, word for word, by the two callers of
    [revealAnswerOnly]: [if (this.round.checkFinish()) this.pendingNextRound
    = true]. *)
Definition flagIfFinished : Op unit :=
  g <- get ;;
  if Round_checkFinish (game_round g)
  then modify (set_pendingNextRound true)
  else ret tt.

Definition Game_revealAnswerByNumber (number : Z) : Op bool :=
  g <- get ;;
  match findByNumber number g with
  | None => ret false
  | Some answer =>
      Game_pushUndoSnapshot ;;
      g1 <- get ;;
      match Game_getCurrentTeam g1 with
      | None =>
          Round_revealAnswerOnly answer ;; flagIfFinished ;; ret true
      | Some _ => Round_setBoardAnswer answer ;; ret true
      end
  end.

Record AnswerResult := mkResult {
  result_answer : option Answer;
  result_status : bool }.

(** [answer.ans.toLowerCase() === board.removeDiacritics(playerAnswer)] *)
Definition Game_resolvePlayerAnswer (playerAnswer : jsString) (g : Game)
  : AnswerResult :=
  match list_find
          (fun a => toLowerCase (ans a) = removeDiacritics playerAnswer)
          (question_answers (round_question (game_round g))) with
  | Some (_, a) => mkResult (Some a) true
  | None => mkResult None false
  end.

Definition Game_handlePlayerAnswer (playerAnswer : jsString) : Op unit :=
  Game_pushUndoSnapshot ;;
  g <- get ;;
  let result := Game_resolvePlayerAnswer playerAnswer g in
  match Game_getCurrentTeam g with
  | None =>
      match result_status result, result_answer result with
      | true, Some a => Round_revealAnswerOnly a ;; flagIfFinished
      | _, _ => ret tt
      end
  | Some currentTeam =>
      if result_status result
      then match result_answer result with
           | Some a => Round_setBoardAnswer a
           | None => ret tt
           end
      else Round_setBoardError currentTeam
  end.

Definition Game_addErrorForSelectedTeam : Op bool :=
  g <- get ;;
  match Game_getCurrentTeam g with
  | None => ret false
  | Some currentTeam =>
      Game_pushUndoSnapshot ;;
      Round_setBoardError currentTeam ;;
      ret true
  end.

(** One pass of the first loop of [undo]: the team with the recorded name,
    if there is one, gets the recorded points and errors. *)
Definition restoreTeam (state : jsString * Z * Z) : Op unit :=
  let '(name, pts, errs) := state in
  g <- get ;;
  match list_find (fun t => team_name t = name) (game_teams g) with
  | None => ret tt
  | Some (i, _) =>
      modify (set_teams (alter (Team_setPoints pts) i)) ;;
      modify (set_teams (alter (Team_setErrors errs) i))
  end.

Definition Game_undo : Op bool :=
  g <- get ;;
  match game_undoStack g with
  | [] => ret false
  | snapshot :: rest =>
      modify (set_undoStack rest) ;;
      modify (set_roundCount (snap_roundCount snapshot)) ;;
      modify (set_pendingNextRound (snap_pendingNextRound snapshot)) ;;
      modify (fun g' =>
        set_questionsStore
          (QuestionStore_setCurrentQuestionIndex
             (snap_questionsStoreIndex snapshot) (game_questionsStore g'))
          g') ;;
      forEach (snap_teamState snapshot) restoreTeam ;;
      g1 <- get ;;
      forEach (game_teams g1) (fun team =>
        emit (board_setPoints (team_name team) (team_points team)) ;;
        emit (board_setErrors (team_name team) (team_errors team))) ;;
      rd <- Round_new (snap_roundQuestion snapshot) ;;
      modify (set_round
                (mkRound (snap_roundRight snapshot)
                   (snap_roundStatus snapshot) (snap_roundPoints snapshot)
                   (list_to_set (snap_revealed snapshot))
                   (round_question rd))) ;;
      Game_setCurrentTeam (snap_currentTeam snapshot) true ;;
      emit board_restoreBoardState ;;
      ret true
  end.

(** ** The events a game receives *)

Inductive Action :=
| HandlePlayerAnswer (playerAnswer : jsString)
| RevealAnswerByNumber (number : Z)
| AddErrorForSelectedTeam
| SetCurrentTeam (teamName : jsString)
| AdvanceToNextRound (r : nat)
| Undo.

Definition ignore {A} (m : Op A) : Op unit := m ;; ret tt.

Definition step (a : Action) : Op unit :=
  match a with
  | HandlePlayerAnswer s => Game_handlePlayerAnswer s
  | RevealAnswerByNumber n => ignore (Game_revealAnswerByNumber n)
  | AddErrorForSelectedTeam => ignore Game_addErrorForSelectedTeam
  | SetCurrentTeam n => Game_setCurrentTeam n false
  | AdvanceToNextRound r => ignore (Game_advanceToNextRound r)
  | Undo => ignore Game_undo
  end.

(** The game and the effects an operation leaves, when it does not throw. *)
Definition exec {A} (m : Op A) (g : Game) : option (Game * list Effect) :=
  match m g with
  | Some (_, g', log) => Some (g', log)
  | None => None
  end.

Definition stateAfter {A} (m : Op A) (g : Game) : option Game :=
  fst <$> exec m g.

Fixpoint run (l : list Action) (g : Game) : option Game :=
  match l with
  | [] => Some g
  | a :: l' =>
      match stateAfter (step a) g with
      | Some g' => run l' g'
      | None => None
      end
  end.

(** ** The board: text of an answer row *)

(** [String.prototype.substring(indexStart, indexEnd)]: the two bounds are
    clamped to the string and swapped when they come out of order; a
    missing end is the length of the string. *)
Definition substring (s : jsString) (indexStart : Z) (indexEnd : option Z)
  : jsString :=
  let len := Z.of_nat (length s) in
  let clamp x := Z.min (Z.max x 0) len in
  let a := clamp indexStart in
  let b := from_option clamp len indexEnd in
  take (Z.to_nat (Z.max a b - Z.min a b)) (drop (Z.to_nat (Z.min a b)) s).

Definition answerFieldFill : jsString :=
  str "... ... ... ... ... ... ... ... ... ... ... ... ...".

(** [board.fillAnswerField] *)
Definition fillAnswerField (text : jsString) : jsString :=
  let fillLength := Z.of_nat (length answerFieldFill) in
  if fillLength <? Z.of_nat (length text)
  then substring text 0 (Some (fillLength - 3)) ++ str "..."
  else text ++ substring answerFieldFill (Z.of_nat (length text)) None.

(** ** The board: indicators and rows

    Two functions of [board] that only rewrite one property of the
    elements a selector finds are embedded on the list of the values of
    that property, in document order. *)

(** [board.setErrors], on the class names of the error indicators of the
    panel of the team.  It throws when the panel has none. *)
Definition setErrors (errorIndicators : list jsString) (errorCnt : Z)
  : option (list jsString) :=
  match errorIndicators with
  | [] => None
  | _ =>
      Some (imap (fun i _ => if Z.of_nat i <? errorCnt
                             then str "fail active" else str "fail")
              errorIndicators)
  end.

(** [board.manageAnswerFields], on the [style.display] of the answer rows:
    the loop runs [i] from 1 to 6 and skips a row that is not there. *)
Definition manageAnswerFields (answerLength : Z) (rowFields : list jsString)
  : list jsString :=
  foldl (fun rows i =>
           match rows !! Z.to_nat (i - 1) with
           | None => rows
           | Some _ =>
               <[Z.to_nat (i - 1) :=
                   if answerLength <? i then str "none" else str "block"]> rows
           end)
    rowFields [1; 2; 3; 4; 5; 6].

(** ** The keyboard *)

(** What the [keydown] listener of the entry point reads from outside:
    whether the intro screen is shown ([isIntroVisible()]), whether the
    first press of the space bar has been seen ([introMusicStarted]),
    whether the score overlay is shown ([board.isScoreOverlayVisible()]),
    and whether the page has the record control. *)
Record Screen := mkScreen {
  introVisible : bool;
  introMusicStarted : bool;
  scoreOverlayVisible : bool;
  recordPresent : bool }.

(** The call a key press ends in. *)
Inductive Call :=
| audio_startMusicOnce
| audio_stopMusic_hideIntro
| board_setScoreOverlayVisible (visible : bool)
| game_undo
| record_click
| game_setCurrentTeam (teamName : jsString)
| game_addErrorForSelectedTeam
| audio_toggleMusic
| game_advanceToNextRound
| game_revealAnswerByNumber (number : Z).

(** [key === 'x' || key === 'X'] *)
Definition isKey (key : jsString) (lower upper : string) : bool :=
  bool_decide (key = str lower) || bool_decide (key = str upper).

(** [/^[1-9]$/.test(key)], and [parseInt(key, 10)] on such a key. *)
Definition digitKey (key : jsString) : option Z :=
  match key with
  | [c] => if inRange 49 57 c then Some (Z.of_N c - 48) else None
  | _ => None
  end.

(** The listener, on [event.key] and [event.code]: the call it makes, if
    it makes one. *)
Definition keydown (screen : Screen) (key code : jsString) : option Call :=
  if introVisible screen then
    if bool_decide (key = str " ") || bool_decide (code = str "Space")
    then if introMusicStarted screen
         then Some audio_stopMusic_hideIntro
         else Some audio_startMusicOnce
    else None
  else if isKey key "s" "S"
  then Some (board_setScoreOverlayVisible (negb (scoreOverlayVisible screen)))
  else if isKey key "z" "Z" then Some game_undo
  else if scoreOverlayVisible screen then None
  else if isKey key "r" "R"
  then if recordPresent screen then Some record_click else None
  else if isKey key "e" "E" then Some (game_setCurrentTeam [])
  else if isKey key "x" "X" then Some game_addErrorForSelectedTeam
  else if isKey key "m" "M" then Some audio_toggleMusic
  else if isKey key "q" "Q" then Some (game_setCurrentTeam (str "blue"))
  else if isKey key "w" "W" then Some (game_setCurrentTeam (str "red"))
  else if isKey key "p" "P" then Some game_advanceToNextRound
  else game_revealAnswerByNumber <$> digitKey key.

(** ** A sample game *)

Definition sampleData : list (jsString * list RawEntry) :=
  [ (str "Zwierze domowe",
      [ RawRecord (mkAnswer (str "kot") 1 40);
        RawFalsy JsNull;
        RawRecord (mkAnswer (str "Pies") 2 30) ]);
    (str "Owoc",
      [ RawRecord (mkAnswer (str "jablko") 1 50);
        RawRecord (mkAnswer (str "gruszka") 2 25);
        RawRecord (mkAnswer (str "sliwka") 3 10) ]) ].

Definition sampleTeams : list Team :=
  [ Team_new (str "blue"); Team_new (str "red") ].

Definition sampleStore : QuestionStore :=
  default (mkStore false [] 0) (QuestionStore_new sampleData false (fun _ => O)).

Definition sampleGame : Game :=
  match Game_new sampleTeams sampleStore 0 with
  | Some (g, _) => g
  | None => mkGame [] sampleStore 1 false []
              (mkRound 0 DEFAULT 0 ∅ (mkQuestion [] [])) []
  end.

(** * Notions the properties are stated with *)

(** ** Frames and outcomes of operations *)

(** An operation that relates the game it leaves to the game it found. *)
Definition keeps (R : Game -> Game -> Prop) {A} (m : Op A) : Prop :=
  forall g a g' l, m g = Some (a, g', l) -> R g g'.

(** Operations that leave a component of the game as it was. *)
Definition same {X} (f : Game -> X) (g g' : Game) : Prop := f g' = f g.

(** The reveal of an answer on the awarding or on the non-awarding path. *)
Definition reveal (awarding : bool) (a : Answer) : Op unit :=
  if awarding then Round_setBoardAnswer a else Round_revealAnswerOnly a.

(** ** Undo *)

(** One pass of the restoring loop, on the array of teams. *)
Definition restore1 (state : jsString * Z * Z) (ts : list Team) : list Team :=
  match list_find (fun t => team_name t = state.1.1) ts with
  | None => ts
  | Some (i, _) =>
      alter (Team_setErrors state.2) i (alter (Team_setPoints state.1.2) i ts)
  end.

Definition restoreTeams (states : list (jsString * Z * Z)) (ts : list Team)
  : list Team :=
  fold_left (fun ts s => restore1 s ts) states ts.

(** The game [undo] leaves when it pops [snapshot] off a game [g]. *)
Definition restored (snapshot : UndoSnapshot) (rest : list UndoSnapshot)
  (g : Game) : Game :=
  mkGame (restoreTeams (snap_teamState snapshot) (game_teams g))
    (QuestionStore_setCurrentQuestionIndex
       (snap_questionsStoreIndex snapshot) (game_questionsStore g))
    (snap_roundCount snapshot) (snap_pendingNextRound snapshot) rest
    (mkRound (snap_roundRight snapshot) (snap_roundStatus snapshot)
       (snap_roundPoints snapshot) (list_to_set (snap_revealed snapshot))
       (snap_roundQuestion snapshot))
    (snap_currentTeam snapshot).

Definition teamState (t : Team) : jsString * Z * Z :=
  (team_name t, team_points t, team_errors t).

(** The data-model invariants of a game in play: the teams have distinct
    names, their counters are not negative, and the cursor of the store
    points at one of its questions. *)
Record wellFormed (g : Game) : Prop := {
  wf_names : NoDup (team_name <$> game_teams g);
  wf_counters :
    Forall (fun t => 0 <= team_points t /\ 0 <= team_errors t) (game_teams g);
  wf_cursor :
    0 <= store_currentQuestionIndex (game_questionsStore g)
      < Z.of_nat (length (store_questions (game_questionsStore g))) }.

(** What no operation changes: the names of the teams and the questions of
    the store. *)
Definition shape (g : Game) : list jsString * (bool * list Question) :=
  (team_name <$> game_teams g,
   (store_random (game_questionsStore g),
    store_questions (game_questionsStore g))).

(** The events that push a snapshot: every guess and every team selection,
    a reveal by a number the question has, a manual error when a team is
    selected, an advance when the next round is pending. *)
Definition pushes (a : Action) (g : Game) : bool :=
  match a with
  | HandlePlayerAnswer _ | SetCurrentTeam _ => true
  | RevealAnswerByNumber n => bool_decide (is_Some (findByNumber n g))
  | AddErrorForSelectedTeam => bool_decide (is_Some (Game_getCurrentTeam g))
  | AdvanceToNextRound _ => game_pendingNextRound g
  | Undo => false
  end.

(** [forwardRun g l g']: the events of [l], played from [g], each push a
    snapshot, none throws, and they lead to [g']. *)
Inductive forwardRun : Game -> list Action -> Game -> Prop :=
| forwardRun_nil g : forwardRun g [] g
| forwardRun_cons g a g1 l g' :
    pushes a g = true ->
    stateAfter (step a) g = Some g1 ->
    forwardRun g1 l g' ->
    forwardRun g (a :: l) g'.

(** [wp m g Q]: run from [g], the operation [m] does not throw, and its
    value, the game it leaves and the effects it requested satisfy [Q]. *)
Definition wp {A} (m : Op A) (g : Game)
    (Q : A -> Game -> list Effect -> Prop) : Prop :=
  exists a g' l, m g = Some (a, g', l) /\ Q a g' l.

(** [logged l x]: the outcome [x] with the effects [l] requested before
    it. *)
Definition logged {A} (l : list Effect) (x : option (A * Game * list Effect))
  : option (A * Game * list Effect) :=
  match x with
  | Some (a, g, l') => Some (a, g, l ++ l')
  | None => None
  end.

(** ** Teams, events and rounds *)

(** Two teams with distinct, non-empty names: [getCurrentTeam] finds a team
    exactly when one of the two names is selected, and [switchCurrentTeam]
    selects the other one. *)
Record twoTeams (g : Game) : Prop := {
  two_length : length (game_teams g) = 2%nat;
  two_names : NoDup (team_name <$> game_teams g);
  two_truthy : Forall (fun t => team_name t <> []) (game_teams g) }.

(** Slot [i] holds the active team [t]. *)
Definition activeAt (g : Game) (i : nat) (t : Team) : Prop :=
  game_teams g !! i = Some t /\ team_name t = game_currentTeam g.

(** The points a completed round is worth. *)
Definition awardedPoints (g : Game) : Z :=
  round_points (game_round g) * multiplier (game_roundCount g).

(** The game with the snapshot of itself pushed. *)
Definition pushed (g : Game) : Game :=
  set_undoStack (Game_snapshot g :: game_undoStack g) g.

(** The reveal and error events, by what they ask of the round: the reveal
    of an answer ([Some (Some a)]) or an error ([Some None]).  A guess is a
    reveal of the answer it matches and an error when it matches none; a
    number is a reveal when the question has it and is dropped otherwise;
    the other events are neither. *)
Definition eventAnswer (e : Action) (g : Game) : option (option Answer) :=
  match e with
  | HandlePlayerAnswer s =>
      Some (result_answer (Game_resolvePlayerAnswer s g))
  | RevealAnswerByNumber n =>
      match findByNumber n g with
      | Some a => Some (Some a)
      | None => None
      end
  | AddErrorForSelectedTeam => Some None
  | _ => None
  end.

(** Within a round the status does not leave STOLEN: no event other than
    the start of a round or an undo writes DEFAULT. *)
Definition staysStolen (g g' : Game) : Prop :=
  round_status (game_round g) = STOLEN ->
  round_status (game_round g') = STOLEN.

Definition inRound (e : Action) : Prop :=
  match e with
  | AdvanceToNextRound _ | Undo => False
  | _ => True
  end.

(** The outcome of [finishRound]: the next round is pending, unless the
    credited team [w] has reached 400 points and the game is finished. *)
Definition roundClosed (g g' : Game) (log : list Effect) : Prop :=
  game_pendingNextRound g' = true \/
  exists w, w ∈ game_teams g' /\ 400 <= team_points w /\
            board_finishGame (team_name w) ∈ log /\
            game_pendingNextRound g' = game_pendingNextRound g.

(** Operations all of whose effects satisfy [P]. *)
Definition emitsOnly (P : Effect -> Prop) {A} (m : Op A) : Prop :=
  forall g a g' l, m g = Some (a, g', l) -> Forall P l.

(** An effect other than the game-over banner. *)
Definition notFinish (e : Effect) : Prop :=
  match e with board_finishGame _ => False | _ => True end.

(** The events that are neither a reveal nor an error. *)
Definition bookkeeping (e : Action) : Prop :=
  match e with
  | SetCurrentTeam _ | AdvanceToNextRound _ | Undo => True
  | _ => False
  end.

(** With a team active, the events that complete the round: an error in a
    STOLEN round, and the reveal of a rank not yet revealed that either
    brings the right counter to the number of answers or falls in a STOLEN
    round. *)
Definition completes (e : Action) (g : Game) : Prop :=
  match eventAnswer e g with
  | Some None => round_status (game_round g) = STOLEN
  | Some (Some a) =>
      (lp a ∉ round_revealed (game_round g)) /\
      ((Z.of_nat (length (question_answers (round_question (game_round g))))
        = round_right (game_round g) + 1)
       \/ round_status (game_round g) = STOLEN)
  | None => False
  end.

(** Whether the round takes a reveal or error event: an error needs an
    active team, a reveal needs a rank that is not revealed yet.  Nothing
    else is asked -- not even that the round is still open. *)
Definition accepted (e : Action) (g : Game) : bool :=
  match eventAnswer e g with
  | Some None => bool_decide (is_Some (Game_getCurrentTeam g))
  | Some (Some a) => bool_decide (lp a ∉ round_revealed (game_round g))
  | None => false
  end.

(** [post m g Q]: whenever [m] returns from [g], its value, the game it
    leaves and its effects satisfy [Q]. *)
Definition post {A} (m : Op A) (g : Game)
    (Q : A -> Game -> list Effect -> Prop) : Prop :=
  forall a g' l, m g = Some (a, g', l) -> Q a g' l.

(** The right counter is the number of revealed ranks. *)
Definition roundCounts (r : Round) : Prop :=
  round_right r = Z.of_nat (size (round_revealed r)).

Definition snapshotCounts (s : UndoSnapshot) : Prop :=
  snap_roundRight s
  = Z.of_nat (size (list_to_set (snap_revealed s) : gset Z)).

(** The invariant, on the round in play and on the rounds the undo stack
    can bring back. *)
Definition countsRevealed (g : Game) : Prop :=
  roundCounts (game_round g) /\ Forall snapshotCounts (game_undoStack g).

(** ** Sessions *)

(** The games of a session: the game the constructor builds from the
    teams and the store, and the games the events lead to from there. *)
Inductive session (teams : list Team) (store : QuestionStore)
  : Game -> Prop :=
| session_new r g log :
    Game_new teams store r = Some (g, log) -> session teams store g
| session_step g a g' :
    session teams store g -> stateAfter (step a) g = Some g' ->
    session teams store g'.


(** ** Guesses and datasets *)

(** The two sides of the comparison in [resolvePlayerAnswer] are not
    treated alike: the stored text is lower-cased and keeps its diacritics,
    the guess loses its diacritics and keeps its case. *)
Definition matches (answer : Answer) (playerAnswer : jsString) : Prop :=
  toLowerCase (ans answer) = removeDiacritics playerAnswer.

(** A round on a question with the answers "kot" and "zaba" spelt with its
    dotted Z (U+017C), blue active. *)
Definition zaba : jsString := [380; 97; 98; 97]%N.

Definition animalsGame : Game :=
  mkGame sampleTeams
    (mkStore false
       [mkQuestion (str "Zwierze")
          [mkAnswer (str "kot") 1 60; mkAnswer zaba 2 40]] 0)
    1 false []
    (mkRound 0 DEFAULT 0 ∅
       (mkQuestion (str "Zwierze")
          [mkAnswer (str "kot") 1 60; mkAnswer zaba 2 40]))
    (str "blue").

(** The record of a dataset entry that is not a placeholder. *)
Definition recordOf (e : RawEntry) : option Answer :=
  match e with RawFalsy _ => None | RawRecord a => Some a end.

(** The question a dataset line stands for: its title, and the records of
    its entries that are not placeholders, in their order. *)
Definition questionOf (line : jsString * list RawEntry) : Question :=
  mkQuestion line.1 (omap recordOf line.2).

(** ** Playable games and sound sessions *)

(** A game the events can be played on: the array of teams has the two
    slots [setRandomTeam] draws from, and the cursor of the store points at
    a question. *)
Definition playable (g : Game) : Prop :=
  (2 <= length (game_teams g))%nat /\
  0 <= store_currentQuestionIndex (game_questionsStore g)
    < Z.of_nat (length (store_questions (game_questionsStore g))).

(** The rounded draw of [setRandomTeam] is 0 or 1. *)
Definition validDraw (a : Action) : Prop :=
  match a with
  | AdvanceToNextRound r => (r < 2)%nat
  | _ => True
  end.

(** Each event of the list pushes a snapshot at the game it is played on:
    the side conditions of the forward actions, along the run. *)
Fixpoint pushesAlong (l : list Action) (g : Game) : Prop :=
  match l with
  | [] => True
  | a :: l' =>
      pushes a g = true /\
      forall g1, stateAfter (step a) g = Some g1 -> pushesAlong l' g1
  end.

Definition nonnegAnswers (q : Question) : Prop :=
  Forall (fun a => 0 <= points a) (question_answers q).

Definition soundSnapshot (s : UndoSnapshot) : Prop :=
  nonnegAnswers (snap_roundQuestion s) /\ 0 <= snap_roundPoints s.

(** The invariant of a session played on a dataset whose point values are
    not negative: the game is well formed and playable, and neither the
    questions nor the points of the round, in play or on the undo stack,
    are negative. *)
Record sound (g : Game) : Prop := {
  sound_wf : wellFormed g;
  sound_teams : (2 <= length (game_teams g))%nat;
  sound_store : Forall nonnegAnswers (store_questions (game_questionsStore g));
  sound_question : nonnegAnswers (round_question (game_round g));
  sound_points : 0 <= round_points (game_round g);
  sound_stack : Forall soundSnapshot (game_undoStack g) }.

(** A start on fresh teams and a dataset without negative point values. *)
Record goodStart (teams : list Team) (store : QuestionStore) : Prop := {
  start_teams : (2 <= length teams)%nat;
  start_names : NoDup (team_name <$> teams);
  start_counters :
    Forall (fun t => 0 <= team_points t /\ 0 <= team_errors t) teams;
  start_cursor :
    0 <= store_currentQuestionIndex store
      < Z.of_nat (length (store_questions store));
  start_points : Forall nonnegAnswers (store_questions store) }.

(** ** Runs of the sample game *)

(** The game a run leaves, or the game it started from when an event
    throws. *)
Definition after (l : list Action) (g : Game) : Game := default g (run l g).

(** A run checked event by event: every event pushes and none throws. *)
Fixpoint forwardRunb (l : list Action) (g : Game) : option Game :=
  match l with
  | [] => Some g
  | a :: l' =>
      if pushes a g
      then match stateAfter (step a) g with
           | Some g1 => forwardRunb l' g1
           | None => None
           end
      else None
  end.

(** Blue wins four rounds in a row and stands at 395 points when round 5
    opens; it then reveals "kot" and errs three times, so that the round is
    stolen with 40 points in it and red is to play. *)
Definition fourRounds : list Action :=
  [ RevealAnswerByNumber 1; RevealAnswerByNumber 2; AdvanceToNextRound 0;
    RevealAnswerByNumber 1; RevealAnswerByNumber 2; RevealAnswerByNumber 3;
    AdvanceToNextRound 0;
    RevealAnswerByNumber 1; RevealAnswerByNumber 2; AdvanceToNextRound 0;
    RevealAnswerByNumber 1; RevealAnswerByNumber 2; RevealAnswerByNumber 3;
    AdvanceToNextRound 0 ].

Definition stolenRoundFive : Game :=
  after (fourRounds ++
         [ RevealAnswerByNumber 1; AddErrorForSelectedTeam;
           AddErrorForSelectedTeam; AddErrorForSelectedTeam ]) sampleGame.

(** The sample game after blue revealed "kot", erred three times, and red
    erred once: the steal is resolved. *)
Definition stealResolved : Game :=
  after [ RevealAnswerByNumber 1; AddErrorForSelectedTeam;
          AddErrorForSelectedTeam; AddErrorForSelectedTeam;
          AddErrorForSelectedTeam ] sampleGame.

Definition blue0 : Team := Team_new (str "blue").
Definition red0 : Team := Team_new (str "red").
Definition kot : Answer := mkAnswer (str "kot") 1 40.

(** ** Texts *)

(** The code units of Basic Latin and of the letters the Polish alphabet
    adds to it.  On a text made of them [toLowerCase] and [normalizeNFKD]
    above are the functions of the language, unit by unit. *)
Definition polishUnit (c : N) : bool :=
  (c <? 128)%N
  || existsb (N.eqb c)
       [211; 243; 260; 261; 262; 263; 280; 281; 321; 322; 323; 324;
        346; 347; 377; 378; 379; 380]%N.

Definition polishText (s : jsString) : Prop :=
  Forall (fun c => polishUnit c = true) s.

(** "Lodz" spelt with its stroke, acute and acute (U+0141, U+00F3,
    U+017A), and an answer with a hyphen. *)
Definition lodz : jsString := [321; 243; 100; 378]%N.
Definition cocaCola : Answer := mkAnswer (str "coca-cola") 1 30.

(** ** The store in use *)

(** [k] successive calls of [getQuestion]: the questions they return, in
    order, and the store they leave. *)
Fixpoint getQuestions (k : nat) (s : QuestionStore)
  : list (option Question) * QuestionStore :=
  match k with
  | O => ([], s)
  | S k' =>
      let '(q, s1) := QuestionStore_getNextQuestion s in
      let '(qs, s2) := getQuestions k' s1 in
      (q :: qs, s2)
  end.

(** ** Invariants of a session *)

(** The teams [ts'] are the teams [ts], each with no fewer points. *)
Definition noPointsLost (ts ts' : list Team) : Prop :=
  Forall2 (fun t t' => team_name t' = team_name t /\
                       team_points t <= team_points t') ts ts'.

(** While the round has not been stolen no team stands at three errors. *)
Definition belowThree (status : ROUND_STATUS) (errors : list Z) : Prop :=
  status = DEFAULT -> Forall (fun e => e < 3) errors.

(** That invariant, on the round in play and on the rounds the undo stack
    can bring back; the snapshots record the teams of the game. *)
Definition errorsInStep (g : Game) : Prop :=
  belowThree (round_status (game_round g)) (team_errors <$> game_teams g) /\
  Forall (fun s =>
            (fun x => x.1.1) <$> snap_teamState s
            = team_name <$> game_teams g /\
            belowThree (snap_roundStatus s)
              ((fun x => x.2) <$> snap_teamState s))
    (game_undoStack g).

(** The points a list of answers is worth. *)
Definition worth (answers : list Answer) : Z :=
  foldr (fun a total => points a + total) 0 answers.

(** The answers of a question whose rank is not on the board. *)
Definition hidden (revealed : gset Z) (q : Question) : list Answer :=
  filter (fun a => lp a ∉ revealed) (question_answers q).

(** The points of the round and the worth of the answers still hidden do
    not exceed what the question offers. *)
Definition withinOffer (pts : Z) (revealed : gset Z) (q : Question) : Prop :=
  pts + worth (hidden revealed q) <= worth (question_answers q).

Definition roundWithinOffer (g : Game) : Prop :=
  withinOffer (round_points (game_round g)) (round_revealed (game_round g))
    (round_question (game_round g)) /\
  Forall (fun s => withinOffer (snap_roundPoints s)
                     (list_to_set (snap_revealed s)) (snap_roundQuestion s))
    (game_undoStack g).

(** The ranks of the answers of a question. *)
Definition ranks (q : Question) : gset Z :=
  list_to_set (lp <$> question_answers q).

(** A round is over when the right counter has reached the number of
    answers of its question or when it has been stolen. *)
Definition over (q : Question) (right : Z) (status : ROUND_STATUS) : Prop :=
  Z.of_nat (length (question_answers q)) = right \/ status = STOLEN.

(** The revealed ranks are ranks of the question, and the next round is
    pending only when the round is over; so in the rounds the undo stack
    can bring back. *)
Definition pendingWhenOver (g : Game) : Prop :=
  (round_revealed (game_round g) ⊆ ranks (round_question (game_round g)) /\
   (game_pendingNextRound g = true ->
    over (round_question (game_round g)) (round_right (game_round g))
      (round_status (game_round g)))) /\
  Forall (fun s =>
            list_to_set (snap_revealed s) ⊆ ranks (snap_roundQuestion s) /\
            (snap_pendingNextRound s = true ->
             over (snap_roundQuestion s) (snap_roundRight s)
               (snap_roundStatus s)))
    (game_undoStack g).

(** ** What the board is asked to show *)

(** What a request to the board shows of the game [g]: the points and the
    errors of a team as the team has them, an answer of the question in
    play whose rank is revealed, the title and the number of answers of the
    question in play, and as the winner a team with 400 points or more.
    The other requests carry nothing of the kind. *)
Definition showsGame (g : Game) (e : Effect) : Prop :=
  match e with
  | board_setPoints name pts =>
      exists t, t ∈ game_teams g /\ team_name t = name /\ team_points t = pts
  | board_setErrors name errorCnt =>
      exists t, t ∈ game_teams g /\ team_name t = name /\
                team_errors t = errorCnt
  | board_setAnswer number text pts =>
      number ∈ round_revealed (game_round g) /\
      exists a, a ∈ question_answers (round_question (game_round g)) /\
                lp a = number /\ ans a = text /\ points a = pts
  | board_setQuestion text =>
      text = question_name (round_question (game_round g))
  | board_manageAnswerFields answerLength =>
      answerLength = length (question_answers (round_question (game_round g)))
  | board_finishGame name =>
      exists t, t ∈ game_teams g /\ team_name t = name /\ 400 <= team_points t
  | _ => True
  end.

(** The calls of the keyboard that go to the game, or lead to it: the
    record control starts the recognition that ends in
    [handlePlayerAnswer]. *)
Definition reachesGame (c : Call) : bool :=
  match c with
  | game_undo | record_click | game_setCurrentTeam _
  | game_addErrorForSelectedTeam | game_advanceToNextRound
  | game_revealAnswerByNumber _ => true
  | _ => false
  end.

(** The sample game with blue ten points below zero. *)
Definition inDebt : Game :=
  set_teams (alter (Team_addPoints (-10)) 0%nat) sampleGame.

(** The requests of a reveal: the answer on its row, and the sound. *)
Definition revealRequest (x : Effect) : Prop :=
  match x with
  | board_setAnswer _ _ _ | audio_playReveal => True
  | _ => False
  end.

(** ** The export of the questions *)

(** [Array.prototype.sort] with the comparator [(a, b) => a.lp - b.lp].
    The sort of the language is stable and the comparator orders the ranks
    totally, so its result is the one of every stable sort; here, insertion
    from the right. *)
Fixpoint insertByLp (a : Answer) (sorted : list Answer) : list Answer :=
  match sorted with
  | [] => [a]
  | b :: rest =>
      if lp a <=? lp b then a :: b :: rest else b :: insertByLp a rest
  end.

Definition sortByLp (answers : list Answer) : list Answer :=
  foldr insertByLp [] answers.

(** [formatAnswers] of the export script:
    [answers.filter(Boolean).sort((a, b) => a.lp - b.lp)]. *)
Definition formatAnswers (answers : list RawEntry) : list Answer :=
  sortByLp (omap recordOf answers).

(** * Properties *)

(** ** Running operations *)

Lemma bind_Some {A B} (m : Op A) (k : A -> Op B) g b g2 l :
  bind m k g = Some (b, g2, l) <->
  exists a g1 l1 l2,
    m g = Some (a, g1, l1) /\ k a g1 = Some (b, g2, l2) /\ l = l1 ++ l2.
Proof.
  unfold bind. split.
  - destruct (m g) as [[[a g1] l1]|]; [|discriminate].
    destruct (k a g1) as [[[b' g2'] l2]|] eqn:Hk; [|discriminate].
    intros ?; simplify_eq. by exists a, g1, l1, l2.
  - intros (a & g1 & l1 & l2 & H1 & H2 & H3). by rewrite H1, H2, H3.
Qed.

Section Keeps.
Context (R : Game -> Game -> Prop) `{!PreOrder R}.

Lemma keeps_ret {A} (a : A) : keeps R (ret a).
Proof. intros g ? ? ? H; cbv in H; simplify_eq. reflexivity. Qed.

Lemma keeps_get : keeps R get.
Proof. intros g ? ? ? H; cbv in H; simplify_eq. reflexivity. Qed.

Lemma keeps_emit e : keeps R (emit e).
Proof. intros g ? ? ? H; cbv in H; simplify_eq. reflexivity. Qed.

Lemma keeps_throw {A} : keeps R (@throw A).
Proof. intros g ? ? ? H; cbv in H; simplify_eq. Qed.

Lemma keeps_modify f : (forall g, R g (f g)) -> keeps R (modify f).
Proof. intros Hf g ? ? ? H; cbv [modify] in H; simplify_eq. apply Hf. Qed.

Lemma keeps_bind {A B} (m : Op A) (k : A -> Op B) :
  keeps R m -> (forall a, keeps R (k a)) -> keeps R (bind m k).
Proof.
  intros Hm Hk g b g2 l (a & g1 & l1 & l2 & H1 & H2 & _)%bind_Some.
  transitivity g1; [by eapply Hm | by eapply Hk].
Qed.

Lemma keeps_forEach {A} (xs : list A) (body : A -> Op unit) :
  (forall x, keeps R (body x)) -> keeps R (forEach xs body).
Proof.
  intros Hb. induction xs as [|x xs IH]; simpl.
  - apply keeps_ret.
  - apply keeps_bind; [apply Hb | intros _; apply IH].
Qed.
End Keeps.

(** Proves [keeps R m] by walking over the text of [m]; what is left are
    the field assignments, to be checked against [R]. *)
Create HintDb keeps discriminated.

Ltac keeps_step :=
  first
    [ solve [auto 1 with keeps nocore]
    | solve [apply keeps_ret; apply _] | solve [apply keeps_get; apply _]
    | solve [apply keeps_emit; apply _] | solve [apply keeps_throw]
    | apply keeps_bind; [apply _ | | intros ?]
    | apply keeps_forEach; [apply _ | intros ?]
    | apply keeps_modify; intros ?
    | progress cbv beta iota zeta
    | match goal with
      | |- keeps _ (match ?x with _ => _ end) => destruct x eqn:?
      | |- keeps _ (?f _) => progress unfold f
      end ].

Ltac keeps_walk := repeat (keeps_step; try assumption).

#[global] Instance same_preorder {X} (f : Game -> X) : PreOrder (same f).
Proof. split; [by intros g | intros g1 g2 g3 H1 H2; unfold same in *; congruence]. Qed.

Ltac frame := keeps_walk; try (unfold same; reflexivity).

Lemma finishRound_round : keeps (same game_round) Round_finishRound.
Proof.
  unfold Round_finishRound. frame.
Qed.

(** ** Revealing a rank twice (C8) *)

(** The guard at the head of the two reveal methods. *)
Lemma setBoardAnswer_again g a :
  lp a ∈ round_revealed (game_round g) ->
  Round_setBoardAnswer a g = Some (tt, g, []).
Proof.
  intros Hin. unfold Round_setBoardAnswer, bind, get. by rewrite decide_True.
Qed.

Lemma revealAnswerOnly_again g a :
  lp a ∈ round_revealed (game_round g) ->
  Round_revealAnswerOnly a g = Some (tt, g, []).
Proof.
  intros Hin. unfold Round_revealAnswerOnly, bind, get. by rewrite decide_True.
Qed.

(** The first reveal of an answer, on either path, puts its rank in the
    revealed set. *)
Lemma setBoardAnswer_revealed a g g' l :
  Round_setBoardAnswer a g = Some (tt, g', l) ->
  lp a ∈ round_revealed (game_round g').
Proof.
  unfold Round_setBoardAnswer, modifyRound, bind, get, modify, emit, ret.
  destruct (decide _) as [Hin|Hout]; [intros ?; by simplify_eq|].
  destruct (_ || _).
  - destruct (Round_finishRound _) as [[[[] g2] l2]|] eqn:E; intros ?; simplify_eq.
    apply finishRound_round in E. rewrite E. simpl. set_solver.
  - intros ?; simplify_eq. simpl. set_solver.
Qed.

Lemma revealAnswerOnly_revealed a g g' l :
  Round_revealAnswerOnly a g = Some (tt, g', l) ->
  lp a ∈ round_revealed (game_round g').
Proof.
  unfold Round_revealAnswerOnly, modifyRound, bind, get, modify, emit, ret.
  destruct (decide _) as [Hin|Hout]; intros ?; simplify_eq; [done|].
  simpl. set_solver.
Qed.

(** Revealing the same answer twice in a row: whatever the two paths, the
    second reveal changes nothing and requests nothing. *)
Corollary second_reveal_is_noop (first second : bool) a g g1 l1 :
  reveal first a g = Some (tt, g1, l1) ->
  reveal second a g1 = Some (tt, g1, []).
Proof.
  intros H1.
  assert (lp a ∈ round_revealed (game_round g1)) as Hin.
  { destruct first; [by eapply setBoardAnswer_revealed
                    | by eapply revealAnswerOnly_revealed]. }
  destruct second; [by apply setBoardAnswer_again | by apply revealAnswerOnly_again].
Qed.

(** ** What [undo] computes *)

Lemma restoreTeam_eq state g :
  restoreTeam state g = Some (tt, set_teams (restore1 state) g, []).
Proof.
  destruct state as [[n p] e].
  unfold restoreTeam, restore1, bind, get, modify, ret, set_teams.
  simpl. destruct (list_find _ _) as [[i t]|]; simpl; [done|].
  by destruct g.
Qed.

Lemma forEach_restoreTeam states g :
  forEach states restoreTeam g
  = Some (tt, set_teams (restoreTeams states) g, []).
Proof.
  revert g. induction states as [|s states IH]; intros g; simpl.
  - by destruct g.
  - unfold bind. rewrite restoreTeam_eq, IH. done.
Qed.

(** A loop whose body only requests effects. *)
Lemma forEach_emits {A} (xs : list A) (body : A -> Op unit)
    (f : A -> list Effect) g :
  (forall x g, body x g = Some (tt, g, f x)) ->
  forEach xs body g = Some (tt, g, concat (map f xs)).
Proof.
  intros Hb. induction xs as [|x xs IH]; simpl; [done|].
  unfold bind. by rewrite Hb, IH.
Qed.

Lemma undo_pops snapshot rest g :
  game_undoStack g = snapshot :: rest ->
  exists log, Game_undo g = Some (true, restored snapshot rest g, log).
Proof.
  intros Hst. unfold Game_undo, bind, get. rewrite Hst.
  cbn [modify]. rewrite forEach_restoreTeam.
  erewrite forEach_emits; [|intros x g'; reflexivity].
  simpl. eexists. reflexivity.
Qed.

Lemma undo_empty g :
  game_undoStack g = [] -> Game_undo g = Some (false, g, []).
Proof. intros Hst. unfold Game_undo, bind, get. by rewrite Hst. Qed.

(** ** Restoring the teams *)

Lemma restore1_names s ts :
  team_name <$> restore1 s ts = team_name <$> ts.
Proof.
  unfold restore1. destruct (list_find _ _) as [[i t]|]; [|done].
  apply list_eq; intros k. rewrite !list_lookup_fmap.
  destruct (decide (i = k)) as [->|Hne].
  - rewrite !list_lookup_alter_eq. by destruct (ts !! k).
  - by rewrite !list_lookup_alter_ne.
Qed.

Lemma restoreTeams_names states ts :
  team_name <$> restoreTeams states ts = team_name <$> ts.
Proof.
  unfold restoreTeams.
  revert ts. induction states as [|s states IH]; intros ts; simpl; [done|].
  by rewrite IH, restore1_names.
Qed.

(** In an array of teams with distinct names, a pass rewrites the counters
    of the team it names and nothing else. *)
Lemma restore1_lookup s ts k t :
  NoDup (team_name <$> ts) ->
  ts !! k = Some t ->
  restore1 s ts !! k
  = Some (if decide (team_name t = s.1.1)
          then mkTeam (team_name t) (Z.max 0 s.1.2) (Z.max 0 s.2) else t).
Proof.
  intros Hnd Hk. unfold restore1.
  destruct (list_find _ _) as [[i ti]|] eqn:Hfind.
  - apply list_find_Some in Hfind as (Hi & Hname & _).
    destruct (decide (k = i)) as [->|Hne].
    + rewrite !list_lookup_alter_eq, Hi. simplify_eq. simpl.
      by rewrite decide_True.
    + rewrite !list_lookup_alter_ne, Hk by done.
      rewrite decide_False; [done|]. intros Heq. apply Hne.
      apply (NoDup_lookup _ _ _ (team_name t) Hnd);
        rewrite list_lookup_fmap; [rewrite Hk | rewrite Hi]; simpl; congruence.
  - rewrite Hk. rewrite decide_False; [done|].
    eapply list_find_None in Hfind. rewrite Forall_forall in Hfind.
    apply Hfind. by eapply list_elem_of_lookup_2.
Qed.

Lemma restoreTeams_lookup states ts k t :
  NoDup (team_name <$> ts) ->
  NoDup ((fun s => s.1.1) <$> states) ->
  ts !! k = Some t ->
  restoreTeams states ts !! k
  = Some (match list_find (fun s => s.1.1 = team_name t) states with
          | Some (_, s) => mkTeam (team_name t) (Z.max 0 s.1.2) (Z.max 0 s.2)
          | None => t
          end).
Proof.
  unfold restoreTeams.
  revert ts t. induction states as [|s states IH]; intros ts t Hnd Hst Hk.
  - done.
  - apply NoDup_cons in Hst as [Hs Hst]. simpl.
    pose proof (restore1_lookup s ts k t Hnd Hk) as H1.
    rewrite (IH _ _ ltac:(by rewrite restore1_names) Hst H1).
    case_decide as Hn.
    + simpl. rewrite decide_True by done.
      destruct (list_find _ states) as [[j s']|] eqn:Hfind; [|done].
      apply list_find_Some in Hfind as (Hj & Hname & _).
      exfalso. apply Hs. apply list_elem_of_fmap. exists s'.
      split; [congruence | by eapply list_elem_of_lookup_2].
    + rewrite decide_False by done.
      destruct (list_find _ states) as [[j s']|]; done.
Qed.

(** The states recorded from an array of teams, played back onto teams of
    the same names, give the recorded array back when the recorded counters
    were not negative. *)
Lemma restoreTeams_self ts0 ts :
  NoDup (team_name <$> ts0) ->
  Forall (fun t => 0 <= team_points t /\ 0 <= team_errors t) ts0 ->
  team_name <$> ts = team_name <$> ts0 ->
  restoreTeams (teamState <$> ts0) ts = ts0.
Proof.
  intros Hnd Hpos Hnames. apply list_eq; intros k.
  assert (length (restoreTeams (teamState <$> ts0) ts) = length ts0) as Hlen.
  { rewrite <-(length_fmap team_name), restoreTeams_names, Hnames.
    apply length_fmap. }
  destruct (ts0 !! k) as [t0|] eqn:H0.
  - assert (exists t, ts !! k = Some t /\ team_name t = team_name t0)
      as (t & Hk & Hn).
    { assert ((team_name <$> ts) !! k = Some (team_name t0)) as H
        by (by rewrite Hnames, list_lookup_fmap, H0).
      rewrite list_lookup_fmap in H.
      destruct (ts !! k) as [t|]; simplify_eq/=. by exists t. }
    assert ((fun s => s.1.1) <$> (teamState <$> ts0) = team_name <$> ts0)
      as Hfst by (by rewrite <-list_fmap_compose).
    rewrite (restoreTeams_lookup _ _ _ _ ltac:(by rewrite Hnames)
               ltac:(by rewrite Hfst) Hk).
    destruct (list_find _ _) as [[j s]|] eqn:Hfind.
    + apply list_find_Some in Hfind as (Hj & Hname & _).
      rewrite list_lookup_fmap in Hj.
      destruct (ts0 !! j) as [tj|] eqn:Htj; simplify_eq/=.
      assert (j = k) as ->.
      { apply (NoDup_lookup _ _ _ (team_name t0) Hnd);
          rewrite list_lookup_fmap; [rewrite Htj | rewrite H0]; simpl;
          congruence. }
      simplify_eq. rewrite Forall_forall in Hpos.
      destruct (Hpos t0 ltac:(by eapply list_elem_of_lookup_2)) as [Hp He].
      destruct t0 as [n p e]; simpl in *.
      rewrite Hn. f_equal. f_equal; lia.
    + exfalso. eapply list_find_None in Hfind. rewrite Forall_forall in Hfind.
      apply (Hfind (teamState t0)); [|simpl; congruence].
      apply list_elem_of_fmap. exists t0.
      split; [done | by eapply list_elem_of_lookup_2].
  - apply lookup_ge_None in H0. apply lookup_ge_None. lia.
Qed.

(** ** Well-formed games *)

Lemma alter_names (f : Team -> Team) i (ts : list Team) :
  (forall t, team_name (f t) = team_name t) ->
  team_name <$> alter f i ts = team_name <$> ts.
Proof.
  intros Hf. apply list_eq; intros k. rewrite !list_lookup_fmap.
  destruct (decide (i = k)) as [->|Hne].
  - rewrite list_lookup_alter_eq. destruct (ts !! k); simpl; by rewrite ?Hf.
  - by rewrite list_lookup_alter_ne.
Qed.

Lemma resetErrors_names (ts : list Team) :
  team_name <$> map Team_resetErrors ts = team_name <$> ts.
Proof. induction ts; simpl; by f_equal. Qed.

Lemma setCurrentQuestionIndex_shape c s :
  store_random (QuestionStore_setCurrentQuestionIndex c s) = store_random s /\
  store_questions (QuestionStore_setCurrentQuestionIndex c s)
  = store_questions s.
Proof. unfold QuestionStore_setCurrentQuestionIndex. by destruct (_ =? _). Qed.

Lemma getNextQuestion_shape s q s' :
  QuestionStore_getNextQuestion s = (q, s') ->
  store_random s' = store_random s /\ store_questions s' = store_questions s.
Proof.
  unfold QuestionStore_getNextQuestion.
  destruct (_ =? _); intros ?; by simplify_eq.
Qed.

Ltac shape_goal :=
  unfold same, shape; simpl;
  rewrite ?alter_names, ?resetErrors_names by done;
  try done.

Lemma getQuestion_shape : keeps (same shape) Game_getQuestion.
Proof.
  intros g q g' l. unfold Game_getQuestion, bind, get, modify, ret.
  destruct (QuestionStore_getNextQuestion _) as [q0 s] eqn:Hq.
  intros ?; simplify_eq. apply getNextQuestion_shape in Hq as [Hr Hqs].
  shape_goal. by rewrite Hr, Hqs.
Qed.

#[local] Hint Resolve getQuestion_shape : keeps.

Ltac cursor_shape :=
  match goal with
  | |- context [QuestionStore_setCurrentQuestionIndex ?c ?s] =>
      destruct (setCurrentQuestionIndex_shape c s) as [-> ->]
  end.

Lemma step_shape a : keeps (same shape) (step a).
Proof.
  destruct a; simpl; unfold ignore; keeps_walk; shape_goal.
  by cursor_shape.
Qed.

(** ** The undo stack (C1, C9) *)

(** A snapshot taken from a well-formed game, restored onto a game with the
    same teams and questions, gives that game back. *)
Lemma restored_snapshot g g' rest :
  wellFormed g -> shape g' = shape g ->
  restored (Game_snapshot g) rest g' = set_undoStack rest g.
Proof.
  intros [Hnd Hpos Hcur] Hshape. unfold shape in Hshape. simplify_eq.
  rename H into Hnames, H0 into Hrandom, H1 into Hquestions.
  unfold restored, set_undoStack. simpl. f_equal.
  - by apply restoreTeams_self.
  - unfold QuestionStore_setCurrentQuestionIndex. rewrite Hrandom, Hquestions.
    destruct (game_questionsStore g) as [rnd qs c]; simpl in *.
    destruct (Z.eqb_spec (Z.of_nat (length qs)) 0) as [Hz|Hz]; [lia|].
    f_equal. rewrite (Z.rem_small c) by lia.
    rewrite Z.rem_mod_nonneg by lia.
    rewrite <-(Z.mul_1_l (Z.of_nat (length qs))) at 1.
    rewrite Z.mod_add by lia. apply Z.mod_small; lia.
  - destruct (game_round g); simpl. f_equal. apply list_to_set_elements_L.
Qed.

Lemma undo_restores g g' rest :
  wellFormed g -> shape g' = shape g ->
  game_undoStack g' = Game_snapshot g :: rest ->
  stateAfter (step Undo) g' = Some (set_undoStack rest g).
Proof.
  intros Hwf Hshape Hst. destruct (undo_pops _ _ _ Hst) as [log Hundo].
  unfold stateAfter, exec, step, ignore, bind. rewrite Hundo. simpl.
  by rewrite restored_snapshot.
Qed.

Lemma push_then {A} (m : Op A) g a g' l :
  (Game_pushUndoSnapshot ;; m) g = Some (a, g', l) ->
  keeps (same game_undoStack) m ->
  game_undoStack g' = Game_snapshot g :: game_undoStack g.
Proof.
  intros (? & g1 & ? & ? & Hpush & Hm & _)%bind_Some Hkeep.
  cbv [Game_pushUndoSnapshot modify] in Hpush. simplify_eq.
  by apply Hkeep in Hm.
Qed.

Ltac stack_frame := keeps_walk; try (unfold same; reflexivity).

(** A pushing event leaves the stack it found with one snapshot on top,
    taken before the event had any effect. *)
Lemma pushes_snapshot a g g' :
  pushes a g = true ->
  stateAfter (step a) g = Some g' ->
  game_undoStack g' = Game_snapshot g :: game_undoStack g.
Proof.
  unfold stateAfter, exec. intros Hpush Hstep.
  destruct (step a g) as [[[[] g1] l]|] eqn:Hrun; simplify_eq/=.
  destruct a; simpl in *; try done.
  - eapply push_then; [exact Hrun|]. stack_frame.
  - unfold ignore, Game_revealAnswerByNumber, bind at 1 2, get in Hrun.
    apply bool_decide_eq_true in Hpush as [answer Hfind]. rewrite Hfind in Hrun.
    destruct (bind Game_pushUndoSnapshot _ g) as [[[b g2] l2]|] eqn:Hrun2;
      simplify_eq/=.
    eapply push_then; [exact Hrun2|]. stack_frame.
  - unfold ignore, Game_addErrorForSelectedTeam, bind at 1 2, get in Hrun.
    apply bool_decide_eq_true in Hpush as [team Hteam]. rewrite Hteam in Hrun.
    destruct (bind Game_pushUndoSnapshot _ g) as [[[b g2] l2]|] eqn:Hrun2;
      simplify_eq/=.
    eapply push_then; [exact Hrun2|]. stack_frame.
  - unfold Game_setCurrentTeam in Hrun. cbv iota in Hrun.
    unfold bind at 1 in Hrun.
    cbv [Game_pushUndoSnapshot modify] in Hrun.
    eapply (push_then (modify (set_currentTeam teamName) ;;
                       emit (board_setActiveTeam teamName)));
      [|stack_frame].
    unfold bind at 1. cbv [Game_pushUndoSnapshot modify]. exact Hrun.
  - unfold ignore, Game_advanceToNextRound, bind at 1 2, get in Hrun.
    rewrite Hpush in Hrun. unfold bind at 1 in Hrun.
    destruct (Game_startNewRound r g) as [[[b g2] l2]|] eqn:Hrun2;
      simplify_eq/=.
    eapply push_then; [exact Hrun2|]. stack_frame.
Qed.

Lemma forwardRun_run g l g' : forwardRun g l g' -> run l g = Some g'.
Proof. induction 1 as [|g a g1 l g' _ Hstep _ IH]; simpl; [done|]. by rewrite Hstep. Qed.

Lemma run_app l1 l2 g :
  run (l1 ++ l2) g = run l1 g ≫= run l2.
Proof.
  revert g. induction l1 as [|a l1 IH]; intros g; simpl; [done|].
  destruct (stateAfter (step a) g); simpl; [apply IH | done].
Qed.

(** As many undos as there were pushing events lead to a game with the
    stack, the teams' names and the questions the run started from. *)
Lemma forwardRun_unwinds g l g' :
  forwardRun g l g' ->
  exists g'', run (replicate (length l) Undo) g' = Some g'' /\
              game_undoStack g'' = game_undoStack g /\ shape g'' = shape g.
Proof.
  induction 1 as [g|g a g1 l g' Hpush Hstep _ (g1' & Hrun & Hst & Hsh)].
  - by exists g.
  - cbn [length]. rewrite replicate_S_end, run_app, Hrun. simpl.
    rewrite (pushes_snapshot _ _ _ Hpush Hstep) in Hst.
    destruct (undo_pops _ _ _ Hst) as [log Hundo].
    unfold stateAfter, exec, ignore, bind. rewrite Hundo. simpl.
    eexists; split; [done|]. split; [done|].
    assert (shape g1 = shape g) as <-.
    { unfold stateAfter, exec in Hstep.
      destruct (step a g) as [[[[] g2] l2]|] eqn:Hs; simplify_eq/=.
      by apply step_shape in Hs. }
    rewrite <-Hsh. unfold shape, restored. simpl.
    rewrite restoreTeams_names.
    by cursor_shape.
Qed.

(** Undo exactness along a run that is given. *)
Lemma undo_exactness_along (g g' : Game) (l : list Action) :
  wellFormed g ->
  forwardRun g l g' ->
  run (l ++ replicate (length l) Undo) g = Some g.
Proof.
  intros Hwf Hrun. rewrite run_app, (forwardRun_run _ _ _ Hrun). simpl.
  destruct Hrun as [g|g a g1 l g' Hpush Hstep Hrun]; [done|].
  destruct (forwardRun_unwinds _ _ _ Hrun) as (g1' & Hund & Hst & Hsh).
  cbn [length]. rewrite replicate_S_end, run_app, Hund.
  cbn [mbind option_bind run].
  rewrite (pushes_snapshot _ _ _ Hpush Hstep) in Hst.
  assert (shape g1' = shape g) as Hsh'.
  { rewrite Hsh. unfold stateAfter, exec in Hstep.
    destruct (step a g) as [[[[] g2] l2]|] eqn:Hs; simplify_eq/=.
    by apply step_shape in Hs. }
  rewrite (undo_restores _ _ _ Hwf Hsh' Hst). by destruct g.
Qed.

(** C9.  A guess that matches no answer while no team is active changes
    nothing but the undo stack: [handlePlayerAnswer] returns the game it
    found -- round, teams, active team, round counter, pending flag, store
    and cursor -- with one snapshot more on the stack, and requests no
    effect.  In a well-formed game the next [undo] succeeds and gives back
    the very game the guess was made in. *)
Theorem unmatched_guess_without_team (g : Game) (playerAnswer : jsString) :
  wellFormed g ->
  Game_getCurrentTeam g = None ->
  result_status (Game_resolvePlayerAnswer playerAnswer g) = false ->
  let g1 := set_undoStack (Game_snapshot g :: game_undoStack g) g in
  Game_handlePlayerAnswer playerAnswer g = Some (tt, g1, []) /\
  length (game_undoStack g1) = S (length (game_undoStack g)) /\
  exists log, Game_undo g1 = Some (true, g, log).
Proof.
  intros Hwf Hteam Hres g1. split; [|split; [done|]].
  - unfold Game_handlePlayerAnswer, bind, Game_pushUndoSnapshot, modify, get.
    change (Game_getCurrentTeam (set_undoStack _ g)) with (Game_getCurrentTeam g).
    change (Game_resolvePlayerAnswer playerAnswer (set_undoStack _ g))
      with (Game_resolvePlayerAnswer playerAnswer g).
    by rewrite Hteam, Hres.
  - destruct (undo_pops (Game_snapshot g) (game_undoStack g) g1 eq_refl)
      as [log Hundo].
    exists log. rewrite Hundo, restored_snapshot by done. by destruct g.
Qed.

(** ** Running an operation to its end *)

Lemma wp_ret {A} (a : A) g Q : Q a g [] -> wp (ret a) g Q.
Proof. intros HQ. by exists a, g, []. Qed.

Lemma wp_get g Q : Q g g [] -> wp get g Q.
Proof. intros HQ. by exists g, g, []. Qed.

Lemma wp_modify f g Q : Q tt (f g) [] -> wp (modify f) g Q.
Proof. intros HQ. by exists tt, (f g), []. Qed.

Lemma wp_emit e g Q : Q tt g [e] -> wp (emit e) g Q.
Proof. intros HQ. by exists tt, g, [e]. Qed.

Lemma wp_bind {A B} (m : Op A) (k : A -> Op B) g Q :
  wp m g (fun a g1 l1 => wp (k a) g1 (fun b g2 l2 => Q b g2 (l1 ++ l2))) ->
  wp (bind m k) g Q.
Proof.
  intros (a & g1 & l1 & Hm & b & g2 & l2 & Hk & HQ).
  exists b, g2, (l1 ++ l2). split; [|done]. apply bind_Some. by exists a, g1, l1, l2.
Qed.

Ltac head_of t := lazymatch t with ?f _ => head_of f | _ => t end.

Ltac wp_step :=
  first
    [ apply wp_ret | apply wp_get | apply wp_modify | apply wp_emit
    | apply wp_bind
    | progress cbv beta iota zeta
    | lazymatch goal with
      | |- wp throw _ _ => fail
      | |- wp (match ?x with _ => _ end) _ _ => destruct x eqn:?
      | |- wp ?m _ _ => let h := head_of m in progress unfold h
      end ].

Ltac wp_walk := repeat wp_step.

Lemma logged_nil {A} (x : option (A * Game * list Effect)) : logged [] x = x.
Proof. by destruct x as [[[a g] l]|]. Qed.

Lemma logged_logged {A} l1 l2 (x : option (A * Game * list Effect)) :
  logged l1 (logged l2 x) = logged (l1 ++ l2) x.
Proof. destruct x as [[[a g] l]|]; simpl; [|done]. by rewrite app_assoc. Qed.

Lemma bind_run {A B} (m : Op A) (k : A -> Op B) g a g1 l1 :
  m g = Some (a, g1, l1) -> bind m k g = logged l1 (k a g1).
Proof. intros Hm. unfold bind. by rewrite Hm. Qed.

Lemma bind_ret {A B} (a : A) (k : A -> Op B) g : bind (ret a) k g = k a g.
Proof. by rewrite (bind_run _ _ _ a g []), logged_nil. Qed.

Lemma bind_get {B} (k : Game -> Op B) g : bind get k g = k g g.
Proof. by rewrite (bind_run _ _ _ g g []), logged_nil. Qed.

Lemma bind_modify {B} f (k : unit -> Op B) g :
  bind (modify f) k g = k tt (f g).
Proof. by rewrite (bind_run _ _ _ tt (f g) []), logged_nil. Qed.

Lemma bind_modifyRound {B} f (k : unit -> Op B) g :
  bind (modifyRound f) k g = k tt (set_round (f (game_round g)) g).
Proof. exact (bind_modify (fun g => set_round (f (game_round g)) g) k g). Qed.

Lemma bind_emit {B} e (k : unit -> Op B) g :
  bind (emit e) k g = logged [e] (k tt g).
Proof. by rewrite (bind_run _ _ _ tt g [e]). Qed.

Lemma bind_bind {A B C} (m : Op A) (k : A -> Op B) (h : B -> Op C) g :
  bind (bind m k) h g = bind m (fun a => bind (k a) h) g.
Proof.
  unfold bind. destruct (m g) as [[[a g1] l1]|]; [|done].
  destruct (k a g1) as [[[b g2] l2]|]; [|done].
  destruct (h b g2) as [[[c g3] l3]|]; [|done]. by rewrite app_assoc.
Qed.

Ltac run_op :=
  repeat first
    [ rewrite bind_bind | rewrite bind_ret | rewrite bind_get
    | rewrite bind_modify | rewrite bind_modifyRound | rewrite bind_emit
    | rewrite logged_logged
    | rewrite logged_nil ].

(** ** Games of two teams *)

Lemma getCurrentTeam_Some g i :
  Game_getCurrentTeam g = Some i -> exists t, activeAt g i t.
Proof.
  unfold Game_getCurrentTeam, activeAt.
  destruct (game_currentTeam g) as [|c n] eqn:Hcur; [done|].
  destruct (list_find _ _) as [[j t]|] eqn:Hfind; intros ?; simplify_eq/=.
  apply list_find_Some in Hfind as (Hi & Hname & _). by exists t.
Qed.

Lemma activeAt_getCurrentTeam g i t :
  twoTeams g -> activeAt g i t -> Game_getCurrentTeam g = Some i.
Proof.
  intros [_ Hnd Htr] [Hi Hname]. unfold Game_getCurrentTeam.
  assert (team_name t <> []) as Hne.
  { rewrite Forall_forall in Htr. apply Htr. by eapply list_elem_of_lookup_2. }
  rewrite <-Hname. destruct (team_name t) as [|c n] eqn:Hn; [done|].
  rewrite <-Hn.
  assert (list_find (fun t0 => team_name t0 = team_name t) (game_teams g)
          = Some (i, t)) as ->; [|done].
  apply list_find_Some. split_and!; [done..|].
  intros j y Hj Hlt Hy. assert (j = i); [|lia].
  apply (NoDup_lookup _ _ _ (team_name t) Hnd);
    rewrite list_lookup_fmap; [rewrite Hj | rewrite Hi]; simpl; congruence.
Qed.

(** The team [switchCurrentTeam] selects when slot [i] is active: the one
    in the other slot. *)
Lemma switchCurrentTeam_other g i t j u :
  twoTeams g -> activeAt g i t ->
  game_teams g !! j = Some u -> i <> j ->
  Game_switchCurrentTeam g
  = Some (tt, set_currentTeam (team_name u) g,
          [board_setActiveTeam (team_name u)]).
Proof.
  intros [Hlen Hnd Htr] [Hi Hname] Hj Hij.
  unfold Game_switchCurrentTeam, bind, get.
  assert (list_find (fun t0 => team_name t0 <> game_currentTeam g)
            (game_teams g) = Some (j, u)) as ->; [|done].
  apply list_find_Some. split_and!; [done| |].
  - rewrite <-Hname. intros Heq. apply Hij.
    apply (NoDup_lookup _ _ _ (team_name t) Hnd);
      rewrite list_lookup_fmap; [rewrite Hi | rewrite Hj]; simpl; congruence.
  - intros k y Hk Hlt Hy. apply Hy.
    pose proof (lookup_lt_Some _ _ _ Hi). pose proof (lookup_lt_Some _ _ _ Hj).
    assert (k = i) as -> by lia. congruence.
Qed.

Lemma twoTeams_alter (f : Team -> Team) i g :
  (forall t, team_name (f t) = team_name t) ->
  twoTeams g -> twoTeams (set_teams (alter f i) g).
Proof.
  intros Hf [Hlen Hnd Htr]. split; simpl.
  - by rewrite length_alter.
  - by rewrite alter_names.
  - rewrite Forall_forall in Htr |- *. intros t Ht.
    apply list_elem_of_lookup in Ht as [k Hk].
    rewrite list_lookup_alter in Hk. case_decide; simplify_eq.
    + destruct (game_teams g !! k) as [t0|] eqn:H0; simplify_eq/=.
      rewrite Hf. apply Htr. by eapply list_elem_of_lookup_2.
    + apply Htr. by eapply list_elem_of_lookup_2.
Qed.

(** [finishRound] in a game of two teams, with the team [t] of slot [i]
    active and the team [u] in the other slot. *)
Lemma finishRound_two g i t j u :
  twoTeams g -> activeAt g i t -> game_teams g !! j = Some u -> i <> j ->
  let t' := Team_addPoints (awardedPoints g) t in
  let g1 := set_teams (alter (Team_addPoints (awardedPoints g)) i) g in
  Round_finishRound g
  = Some (tt,
          (if 400 <=? team_points t' then g1
           else set_pendingNextRound true (set_currentTeam (team_name u) g1)),
          board_setPoints (team_name t) (team_points t')
          :: (if 400 <=? team_points t' then [board_finishGame (team_name t)]
              else [board_setActiveTeam (team_name u)])).
Proof.
  intros Htwo Hact Hj Hij t' g1. pose proof Hact as [Hi Hname].
  unfold Round_finishRound, bind at 1, get.
  rewrite (activeAt_getCurrentTeam _ _ _ Htwo Hact).
  unfold bind at 1, modify. fold (awardedPoints g). fold g1.
  assert (game_teams g1 !! i = Some t') as Hi1.
  { unfold g1. simpl. by rewrite list_lookup_alter_eq, Hi. }
  unfold bind at 1, teamAt, bind at 1, get. rewrite Hi1.
  unfold ret, bind at 1, emit. simpl team_name. simpl team_points.
  destruct (400 <=? _); [done|].
  unfold bind. erewrite (switchCurrentTeam_other g1 i t' j u); [done|..].
  - by apply twoTeams_alter.
  - split; [done|]. simpl. exact Hname.
  - unfold g1. simpl. by rewrite list_lookup_alter_ne.
  - done.
Qed.

(** An error in a round that has not been stolen. *)
Lemma setBoardError_default g i t j u :
  twoTeams g -> activeAt g i t -> game_teams g !! j = Some u -> i <> j ->
  round_status (game_round g) = DEFAULT ->
  let g1 := set_teams (alter Team_addError i) g in
  Round_setBoardError i g
  = Some (tt,
          (if team_errors t + 1 =? 3
           then set_round (setStatus STOLEN (game_round g))
                  (set_currentTeam (team_name u) g1)
           else g1),
          [board_setErrors (team_name t) (team_errors t + 1); audio_playWrong]
          ++ (if team_errors t + 1 =? 3
              then [board_setActiveTeam (team_name u)] else [])).
Proof.
  intros Htwo Hact Hj Hij Hst g1. pose proof Hact as [Hi Hname].
  assert (game_teams g1 !! i = Some (Team_addError t)) as Hi1.
  { unfold g1. simpl. by rewrite list_lookup_alter_eq, Hi. }
  unfold Round_setBoardError, bind at 1, modify. fold g1.
  unfold bind at 1, teamAt, bind at 1, get. rewrite Hi1.
  unfold ret, bind at 1, emit, bind at 1, bind at 1, get.
  change (round_status (game_round g1)) with (round_status (game_round g)).
  rewrite Hst. rewrite decide_False by done.
  unfold bind at 1, bind at 1. rewrite Hi1. simpl team_errors. simpl team_name.
  destruct (_ =? 3); [|done].
  unfold bind. erewrite (switchCurrentTeam_other g1 i (Team_addError t) j u);
    [done|..].
  - by apply twoTeams_alter.
  - split; [done|]. simpl. exact Hname.
  - unfold g1. simpl. by rewrite list_lookup_alter_ne.
  - done.
Qed.

(** An error in a stolen round: the error is recorded, the other team is
    selected, and the round is finished for it. *)
Lemma setBoardError_stolen g i t j u :
  twoTeams g -> activeAt g i t -> game_teams g !! j = Some u -> i <> j ->
  round_status (game_round g) = STOLEN ->
  let g2 := set_currentTeam (team_name u) (set_teams (alter Team_addError i) g) in
  Round_setBoardError i g
  = match Round_finishRound g2 with
    | Some (_, g', l) =>
        Some (tt, g',
              [board_setErrors (team_name t) (team_errors t + 1);
               audio_playWrong; board_setActiveTeam (team_name u)] ++ l)
    | None => None
    end.
Proof.
  intros Htwo Hact Hj Hij Hst g2. pose proof Hact as [Hi Hname].
  set (g1 := set_teams (alter Team_addError i) g).
  assert (game_teams g1 !! i = Some (Team_addError t)) as Hi1.
  { unfold g1. simpl. by rewrite list_lookup_alter_eq, Hi. }
  unfold Round_setBoardError, teamAt. run_op. fold g1. rewrite Hi1. run_op.
  change (round_status (game_round g1)) with (round_status (game_round g)).
  rewrite Hst, decide_True by done.
  assert (Game_switchCurrentTeam g1
          = Some (tt, g2, [board_setActiveTeam (team_name u)])) as Hsw.
  { apply (switchCurrentTeam_other g1 i (Team_addError t) j u).
    - by apply twoTeams_alter.
    - split; [done|]. simpl. exact Hname.
    - unfold g1. simpl. by rewrite list_lookup_alter_ne.
    - done. }
  rewrite (bind_run _ _ _ _ _ _ Hsw).
  change (bind get _ g2) with (Round_finishRound g2).
  rewrite logged_logged.
  by destruct (Round_finishRound g2) as [[[[] g'] l]|].
Qed.

(** In a game of two teams the slot that is not active holds a team. *)
Lemma twoTeams_other g i t :
  twoTeams g -> activeAt g i t ->
  exists j u, game_teams g !! j = Some u /\ i <> j.
Proof.
  intros [Hlen _ _] [Hi _]. pose proof (lookup_lt_Some _ _ _ Hi) as Hlt.
  destruct (game_teams g) as [|t0 [|t1 [|? ?]]] eqn:Hts; simplify_eq/=.
  destruct i as [|[|i]]; simpl in *; [by exists 1%nat, t1 | by exists 0%nat, t0 | lia].
Qed.

(** ** Reveal and error events *)

Lemma resolvePlayerAnswer_cases s g :
  (exists a, Game_resolvePlayerAnswer s g = mkResult (Some a) true) \/
  Game_resolvePlayerAnswer s g = mkResult None false.
Proof.
  unfold Game_resolvePlayerAnswer.
  destruct (list_find _ _) as [[k a]|]; [left; by exists a | by right].
Qed.

(** With a team active, a reveal event is [setBoardAnswer] and an error
    event is [setBoardError] for the active team, both on the game with
    its snapshot pushed. *)
Lemma step_event_active e g i x :
  Game_getCurrentTeam g = Some i ->
  eventAnswer e g = Some x ->
  exec (step e) g
  = exec (match x with
          | Some a => Round_setBoardAnswer a
          | None => Round_setBoardError i
          end) (pushed g).
Proof.
  intros Hteam Hev. unfold exec.
  destruct e; simpl in Hev; simplify_eq; simpl.
  - unfold Game_handlePlayerAnswer, Game_pushUndoSnapshot. run_op.
    fold (pushed g).
    change (Game_getCurrentTeam (pushed g)) with (Game_getCurrentTeam g).
    change (Game_resolvePlayerAnswer playerAnswer (pushed g))
      with (Game_resolvePlayerAnswer playerAnswer g).
    rewrite Hteam.
    by destruct (resolvePlayerAnswer_cases playerAnswer g) as [[a ->]| ->].
  - unfold ignore, Game_revealAnswerByNumber, Game_pushUndoSnapshot. run_op.
    destruct (findByNumber number g) as [a|]; simplify_eq. run_op.
    fold (pushed g).
    change (Game_getCurrentTeam (pushed g)) with (Game_getCurrentTeam g).
    rewrite Hteam. run_op. unfold bind.
    by destruct (Round_setBoardAnswer a (pushed g)) as [[[[] g'] l]|];
      simpl; rewrite ?app_nil_r.
  - unfold ignore, Game_addErrorForSelectedTeam, Game_pushUndoSnapshot. run_op.
    rewrite Hteam. run_op. fold (pushed g). unfold bind.
    by destruct (Round_setBoardError i (pushed g)) as [[[[] g'] l]|];
      simpl; rewrite ?app_nil_r.
Qed.

(** With no team active, a reveal event is [revealAnswerOnly] followed by
    the completion check, and an error event changes nothing but, for a
    guess, the undo stack. *)
Lemma step_event_inactive e g x :
  Game_getCurrentTeam g = None ->
  eventAnswer e g = Some x ->
  exec (step e) g
  = match x with
    | Some a => exec (Round_revealAnswerOnly a ;; flagIfFinished) (pushed g)
    | None => Some (if pushes e g then pushed g else g, [])
    end.
Proof.
  intros Hteam Hev. unfold exec.
  destruct e; simpl in Hev; simplify_eq; simpl.
  - unfold Game_handlePlayerAnswer, Game_pushUndoSnapshot. run_op.
    fold (pushed g).
    change (Game_getCurrentTeam (pushed g)) with (Game_getCurrentTeam g).
    change (Game_resolvePlayerAnswer playerAnswer (pushed g))
      with (Game_resolvePlayerAnswer playerAnswer g).
    rewrite Hteam.
    by destruct (resolvePlayerAnswer_cases playerAnswer g) as [[a ->]| ->].
  - unfold ignore, Game_revealAnswerByNumber, Game_pushUndoSnapshot. run_op.
    destruct (findByNumber number g) as [a|]; simplify_eq. run_op.
    fold (pushed g).
    change (Game_getCurrentTeam (pushed g)) with (Game_getCurrentTeam g).
    rewrite Hteam. run_op. unfold bind.
    destruct (Round_revealAnswerOnly a (pushed g)) as [[[[] g1] l1]|]; [|done].
    destruct (flagIfFinished g1) as [[[[] g2] l2]|]; [|done].
    simpl. by rewrite !app_nil_r.
  - unfold ignore, Game_addErrorForSelectedTeam. run_op.
    rewrite Hteam. rewrite bool_decide_eq_false_2; [done|].
    by intros [? ?].
Qed.

(** A number the question does not have is dropped. *)
Lemma step_event_dropped e g :
  eventAnswer e g = None ->
  (exists s, e = HandlePlayerAnswer s) \/ e = AddErrorForSelectedTeam \/
  (exists n, e = RevealAnswerByNumber n) ->
  exec (step e) g = Some (g, []).
Proof.
  intros Hev [[s ->]|[->|[n ->]]]; simpl in Hev; [done..|].
  unfold exec. simpl. unfold ignore, Game_revealAnswerByNumber. run_op.
  by destruct (findByNumber n g).
Qed.

(** C8.  Revealing an answer whose rank is already in the round's revealed
    set does nothing on either path: [setBoardAnswer] (awarding) and
    [revealAnswerOnly] (non-awarding) return at once, leaving the whole game
    as it was -- round points, the right counter, the revealed set, the
    status and both teams included -- and requesting no effect.  A reveal
    event that reaches them through the game, by a guess or by a number,
    leaves the round and the teams as they were and requests no effect
    either. *)
Theorem reveal_revealed_rank_is_noop (g : Game) (a : Answer) :
  lp a ∈ round_revealed (game_round g) ->
  Round_setBoardAnswer a g = Some (tt, g, []) /\
  Round_revealAnswerOnly a g = Some (tt, g, []) /\
  forall e, eventAnswer e g = Some (Some a) ->
    exists g',
      exec (step e) g = Some (g', []) /\
      game_round g' = game_round g /\ game_teams g' = game_teams g.
Proof.
  intros Hin.
  split; [by apply setBoardAnswer_again|].
  split; [by apply revealAnswerOnly_again|].
  intros e Hev. destruct (Game_getCurrentTeam g) as [i|] eqn:Hteam.
  - rewrite (step_event_active _ _ _ _ Hteam Hev). unfold exec.
    rewrite (setBoardAnswer_again (pushed g) a Hin). by eexists.
  - rewrite (step_event_inactive _ _ _ Hteam Hev). unfold exec.
    rewrite (bind_run _ _ _ _ _ _ (revealAnswerOnly_again (pushed g) a Hin)).
    unfold flagIfFinished. run_op.
    destruct (Round_checkFinish _); run_op; by eexists.
Qed.

Lemma twoTeams_pushed g : twoTeams g -> twoTeams (pushed g).
Proof. intros [H1 H2 H3]. by split. Qed.

Lemma twoTeams_set_round r g : twoTeams g -> twoTeams (set_round r g).
Proof. intros [H1 H2 H3]. by split. Qed.

(** The first reveal of a rank on the awarding path. *)
Lemma setBoardAnswer_fresh g a :
  lp a ∉ round_revealed (game_round g) ->
  let g1 := set_round (revealIn a true (game_round g)) g in
  Round_setBoardAnswer a g
  = logged [board_setAnswer (lp a) (ans a) (points a); audio_playReveal]
      (if Round_checkFinish (game_round g1)
          || bool_decide (round_status (game_round g) = STOLEN)
       then Round_finishRound g1
       else Some (tt, g1, [])).
Proof.
  intros Hfresh g1. unfold Round_setBoardAnswer. run_op.
  rewrite decide_False by done. run_op. fold g1.
  change (round_status (game_round g1)) with (round_status (game_round g)).
  destruct (Round_checkFinish _ || _); reflexivity.
Qed.

#[global] Instance staysStolen_preorder : PreOrder staysStolen.
Proof.
  split; [intros g H; exact H | intros g1 g2 g3 H1 H2 H; exact (H2 (H1 H))].
Qed.


(** Membership in a list of effects that is written out. *)
Ltac in_list :=
  repeat (apply elem_of_cons; first [by left | right]).

(** ** The steal (C3, C5) *)

Lemma activeAt_pushed g i t : activeAt g i t -> activeAt (pushed g) i t.
Proof. by intros []. Qed.

Lemma finishRound_closes g i t j u g' log :
  twoTeams g -> activeAt g i t -> game_teams g !! j = Some u -> i <> j ->
  Round_finishRound g = Some (tt, g', log) ->
  roundClosed g g' log /\ game_round g' = game_round g.
Proof.
  intros Htwo Hact Hj Hij. pose proof Hact as [Hi _].
  rewrite (finishRound_two g i t j u Htwo Hact Hj Hij).
  destruct (Z.leb_spec 400 (team_points (Team_addPoints (awardedPoints g) t)))
    as [Hwin|Hlow]; intros ?; simplify_eq; (split; [|done]).
  - right. exists (Team_addPoints (awardedPoints g) t). split_and!; try done.
    + apply (list_elem_of_lookup_2 _ i). simpl.
      by rewrite list_lookup_alter_eq, Hi.
    + set_solver.
  - by left.
Qed.


Lemma eventAnswer_question e g g' :
  round_question (game_round g') = round_question (game_round g) ->
  eventAnswer e g' = eventAnswer e g.
Proof.
  intros Hq. destruct e; simpl; try done.
  - unfold Game_resolvePlayerAnswer. by rewrite Hq.
  - unfold findByNumber. by rewrite Hq.
Qed.

(** What an error event keeps in a DEFAULT round, and what it changes. *)
Lemma error_in_default g i t j u e :
  twoTeams g -> activeAt g i t -> game_teams g !! j = Some u -> i <> j ->
  round_status (game_round g) = DEFAULT ->
  eventAnswer e g = Some None ->
  exists g',
    stateAfter (step e) g = Some g' /\ twoTeams g' /\
    game_teams g' !! i = Some (Team_addError t) /\
    game_teams g' !! j = Some u /\
    game_roundCount g' = game_roundCount g /\
    round_points (game_round g') = round_points (game_round g) /\
    round_question (game_round g') = round_question (game_round g) /\
    game_pendingNextRound g' = game_pendingNextRound g /\
    if decide (team_errors t + 1 = 3)
    then round_status (game_round g') = STOLEN /\
         game_currentTeam g' = team_name u
    else round_status (game_round g') = DEFAULT /\
         game_currentTeam g' = game_currentTeam g.
Proof.
  intros Htwo Hact Hj Hij Hst Hev. pose proof Hact as [Hi Hname].
  pose proof (activeAt_getCurrentTeam _ _ _ Htwo Hact) as Hteam.
  pose proof (twoTeams_pushed _ Htwo) as Htwo'.
  pose proof (activeAt_pushed _ _ _ Hact) as Hact'.
  unfold stateAfter. rewrite (step_event_active _ _ _ _ Hteam Hev).
  unfold exec.
  rewrite (setBoardError_default (pushed g) i t j u Htwo' Hact' Hj Hij Hst).
  eexists. split; [done|].
  pose proof (twoTeams_alter Team_addError i (pushed g) ltac:(done) Htwo')
    as [H1 H2 H3].
  assert (alter Team_addError i (game_teams g) !! i = Some (Team_addError t))
    as Hi' by (by rewrite list_lookup_alter_eq, Hi).
  assert (alter Team_addError i (game_teams g) !! j = Some u)
    as Hj' by (by rewrite list_lookup_alter_ne).
  case_decide as H3e.
  - rewrite H3e. simpl. split_and!; try done; by split.
  - destruct (Z.eqb_spec (team_errors t + 1) 3); [done|]. simpl.
    split_and!; try done; by split.
Qed.

(** What an error event does in a STOLEN round: the erring team [t] gets
    the error, the other team [u] gets the points of the round, and the
    selection goes back to [t] unless [u] has reached 400 points. *)
Lemma error_in_stolen g i t j u e :
  twoTeams g -> activeAt g i t -> game_teams g !! j = Some u -> i <> j ->
  round_status (game_round g) = STOLEN ->
  eventAnswer e g = Some None ->
  let u' := Team_addPoints (awardedPoints g) u in
  exists g' log,
    exec (step e) g = Some (g', log) /\
    game_teams g' !! i = Some (Team_addError t) /\
    game_teams g' !! j = Some u' /\
    game_round g' = game_round g /\
    (board_finishGame (team_name u) ∈ log <-> 400 <= team_points u') /\
    if 400 <=? team_points u'
    then game_currentTeam g' = team_name u /\
         game_pendingNextRound g' = game_pendingNextRound g
    else game_currentTeam g' = team_name t /\
         game_pendingNextRound g' = true.
Proof.
  intros Htwo Hact Hj Hij Hst Hev u'. pose proof Hact as [Hi Hname].
  pose proof (activeAt_getCurrentTeam _ _ _ Htwo Hact) as Hteam.
  pose proof (twoTeams_pushed _ Htwo) as Htwo'.
  pose proof (activeAt_pushed _ _ _ Hact) as Hact'.
  rewrite (step_event_active _ _ _ _ Hteam Hev). unfold exec.
  rewrite (setBoardError_stolen (pushed g) i t j u Htwo' Hact' Hj Hij Hst).
  set (g2 := set_currentTeam _ _).
  assert (twoTeams g2) as Htwo2.
  { unfold g2. destruct (twoTeams_alter Team_addError i (pushed g)
                           ltac:(done) Htwo') as [H1 H2 H3]. by split. }
  assert (activeAt g2 j u) as Hact2.
  { split; [|done]. unfold g2. simpl. by rewrite list_lookup_alter_ne. }
  assert (game_teams g2 !! i = Some (Team_addError t)) as Hi2.
  { unfold g2. simpl. by rewrite list_lookup_alter_eq, Hi. }
  rewrite (finishRound_two g2 j u i _ Htwo2 Hact2 Hi2 ltac:(done)).
  change (awardedPoints g2) with (awardedPoints g). fold u'.
  eexists _, _. split; [done|].
  assert (alter (Team_addPoints (awardedPoints g)) j
            (alter Team_addError i (game_teams g)) !! i
          = Some (Team_addError t)) as Hi'.
  { by rewrite list_lookup_alter_ne, list_lookup_alter_eq, Hi. }
  assert (alter (Team_addPoints (awardedPoints g)) j
            (alter Team_addError i (game_teams g)) !! j = Some u') as Hj'.
  { by rewrite list_lookup_alter_eq, list_lookup_alter_ne, Hj. }
  destruct (Z.leb_spec 400 (team_points u')) as [Hwin|Hlow]; simpl;
    split_and!; try done.
  - split; [done|]. intros _. in_list.
  - split; [|intros; exfalso; subst u'; simpl in *; lia]. intros Hin. exfalso.
    repeat (apply elem_of_cons in Hin as [Hin|Hin]; [discriminate|]).
    by apply elem_of_nil in Hin.
Qed.

(** C5, as the code has it.  In a game of two teams let the active team
    [orig], with no error yet, err three times in a DEFAULT round: the round
    is STOLEN and the opponent [opp] is active.  Let [opp] then err once:
    [orig] is credited the points of the round times the multiplier.  If
    that leaves [orig] below 400 points, [pendingNextRound] is set and the
    active team is [opp], the team that erred last -- not [orig].  If
    [orig] reaches 400 the game is finished with [orig] active and the flag
    as it was. *)
Theorem steal_resolved_by_error (g : Game) (i j : nat) (orig opp : Team)
    (e1 e2 e3 e4 : Action) :
  twoTeams g -> activeAt g i orig -> game_teams g !! j = Some opp -> i <> j ->
  round_status (game_round g) = DEFAULT ->
  team_errors orig = 0 ->
  Forall (fun e => eventAnswer e g = Some None) [e1; e2; e3; e4] ->
  exists g3 g4 orig',
    run [e1; e2; e3] g = Some g3 /\
    round_status (game_round g3) = STOLEN /\
    game_currentTeam g3 = team_name opp /\
    run [e4] g3 = Some g4 /\
    game_teams g4 !! i = Some orig' /\
    team_name orig' = team_name orig /\
    team_points orig' = team_points orig + awardedPoints g /\
    if 400 <=? team_points orig'
    then game_currentTeam g4 = team_name orig /\
         game_pendingNextRound g4 = game_pendingNextRound g
    else game_currentTeam g4 = team_name opp /\
         game_pendingNextRound g4 = true.
Proof.
  intros Htwo Hact Hj Hij Hst Herr Hev.
  apply Forall_cons in Hev as [Hev1 Hev].
  apply Forall_cons in Hev as [Hev2 Hev].
  apply Forall_cons in Hev as [Hev3 Hev].
  apply Forall_cons in Hev as [Hev4 _].
  destruct (error_in_default g i orig j opp e1 Htwo Hact Hj Hij Hst Hev1)
    as (g1 & Hs1 & Htwo1 & Hi1 & Hj1 & Hrc1 & Hp1 & Hq1 & Hpe1 & Hd1).
  rewrite decide_False in Hd1 by lia. destruct Hd1 as [Hst1 Hc1].
  assert (activeAt g1 i (Team_addError orig)) as Hact1.
  { split; [done|]. rewrite Hc1. by destruct Hact. }
  rewrite <-(eventAnswer_question e2 g g1 Hq1) in Hev2.
  destruct (error_in_default g1 i _ j opp e2 Htwo1 Hact1 Hj1 Hij Hst1 Hev2)
    as (g2 & Hs2 & Htwo2 & Hi2 & Hj2 & Hrc2 & Hp2 & Hq2 & Hpe2 & Hd2).
  rewrite decide_False in Hd2 by (simpl; lia). destruct Hd2 as [Hst2 Hc2].
  assert (activeAt g2 i (Team_addError (Team_addError orig))) as Hact2.
  { split; [done|]. rewrite Hc2, Hc1. by destruct Hact. }
  rewrite <-(eventAnswer_question e3 g g2) in Hev3 by congruence.
  destruct (error_in_default g2 i _ j opp e3 Htwo2 Hact2 Hj2 Hij Hst2 Hev3)
    as (g3 & Hs3 & Htwo3 & Hi3 & Hj3 & Hrc3 & Hp3 & Hq3 & Hpe3 & Hd3).
  rewrite decide_True in Hd3 by (simpl; lia). destruct Hd3 as [Hst3 Hc3].
  assert (activeAt g3 j opp) as Hact3 by (by split).
  rewrite <-(eventAnswer_question e4 g g3) in Hev4 by congruence.
  destruct (error_in_stolen g3 j opp i _ e4 Htwo3 Hact3 Hi3 ltac:(done)
              Hst3 Hev4)
    as (g4 & log & Hs4 & Hj4 & Hi4 & Hr4 & _ & Hout).
  assert (awardedPoints g3 = awardedPoints g) as Haw
    by (unfold awardedPoints; congruence).
  rewrite Haw in Hi4, Hout.
  exists g3, g4, (Team_addPoints (awardedPoints g)
                    (Team_addError (Team_addError (Team_addError orig)))).
  simpl run. rewrite Hs1, Hs2, Hs3. unfold stateAfter. rewrite Hs4.
  split_and!; try done.
  simpl in Hout |- *.
  destruct (400 <=? _); destruct Hout as [Hc4 Hp4]; split; congruence.
Qed.

(** ** The award (C2) *)

Section EmitsOnly.
Context (P : Effect -> Prop).

Lemma emitsOnly_ret {A} (a : A) : emitsOnly P (ret a).
Proof. intros g ? ? ? H; cbv in H; simplify_eq. constructor. Qed.

Lemma emitsOnly_get : emitsOnly P get.
Proof. intros g ? ? ? H; cbv in H; simplify_eq. constructor. Qed.

Lemma emitsOnly_modify f : emitsOnly P (modify f).
Proof. intros g ? ? ? H; cbv [modify] in H; simplify_eq. constructor. Qed.

Lemma emitsOnly_throw {A} : emitsOnly P (@throw A).
Proof. intros g ? ? ? H; cbv in H; simplify_eq. Qed.

Lemma emitsOnly_emit e : P e -> emitsOnly P (emit e).
Proof. intros He g ? ? ? H; cbv [emit] in H; simplify_eq. by repeat constructor. Qed.

Lemma emitsOnly_bind {A B} (m : Op A) (k : A -> Op B) :
  emitsOnly P m -> (forall a, emitsOnly P (k a)) -> emitsOnly P (bind m k).
Proof.
  intros Hm Hk g b g2 l (a & g1 & l1 & l2 & H1 & H2 & ->)%bind_Some.
  apply Forall_app. split; [by eapply Hm | by eapply Hk].
Qed.

Lemma emitsOnly_forEach {A} (xs : list A) (body : A -> Op unit) :
  (forall x, emitsOnly P (body x)) -> emitsOnly P (forEach xs body).
Proof.
  intros Hb. induction xs as [|x xs IH]; simpl.
  - apply emitsOnly_ret.
  - apply emitsOnly_bind; [apply Hb | intros _; apply IH].
Qed.
End EmitsOnly.

Ltac emits_step :=
  first
    [ apply emitsOnly_ret | apply emitsOnly_get | apply emitsOnly_modify
    | apply emitsOnly_throw
    | apply emitsOnly_emit
    | apply emitsOnly_bind; [| intros ?]
    | apply emitsOnly_forEach; intros ?
    | progress cbv beta iota zeta
    | match goal with
      | |- emitsOnly _ (match ?x with _ => _ end) => destruct x eqn:?
      | |- emitsOnly _ (?f _) => progress unfold f
      | |- emitsOnly _ ?f => progress unfold f
      end ].

(** Selecting a team, starting a round and undoing never announce a
    winner. *)
Lemma step_no_winner e : bookkeeping e -> emitsOnly notFinish (step e).
Proof. destruct e; intros []; simpl; repeat emits_step; done. Qed.

(** C2.  Round award.  In a game of two teams, with the team [t] of slot
    [i] active and the team [u] in the other slot:
    - a reveal that completes the round (the right counter reaches the
      number of answers, or the round is STOLEN) credits the active team
      [t] with the points of the round, the revealed answer included, times
      the multiplier of the round counter, and leaves [u] as it was;
    - an error that resolves a STOLEN round first hands the selection to
      [u], which is then the active team the award goes to: [u] is credited
      the points of the round times the multiplier;
    - the multiplier is 2 in round 4, 3 in round 5 and 1 otherwise;
    - the credited total is compared with 400 at that moment and nowhere
      else: the winner is announced exactly when the total just credited
      is 400 or more, and an event that does not complete the round
      announces none.  The total is the plain sum, never capped. *)
Theorem round_award (g : Game) (i j : nat) (t u : Team) (e : Action) :
  twoTeams g -> activeAt g i t -> game_teams g !! j = Some u -> i <> j ->
  (forall a,
     eventAnswer e g = Some (Some a) -> completes e g ->
     let t' := Team_addPoints
                 ((round_points (game_round g) + points a)
                  * multiplier (game_roundCount g)) t in
     exists g' log,
       exec (step e) g = Some (g', log) /\
       game_teams g' !! i = Some t' /\ game_teams g' !! j = Some u /\
       (board_finishGame (team_name t) ∈ log <-> 400 <= team_points t')) /\
  (eventAnswer e g = Some None -> completes e g ->
   let u' := Team_addPoints
               (round_points (game_round g) * multiplier (game_roundCount g))
               u in
   exists g' log,
     exec (step e) g = Some (g', log) /\
     game_teams g' !! j = Some u' /\
     game_teams g' !! i = Some (Team_addError t) /\
     (board_finishGame (team_name u) ∈ log <-> 400 <= team_points u')) /\
  (multiplier 4 = 2 /\ multiplier 5 = 3 /\
   forall n, n <> 4 -> n <> 5 -> multiplier n = 1) /\
  (forall g' log w,
     exec (step e) g = Some (g', log) ->
     board_finishGame w ∈ log -> completes e g).
Proof.
  intros Htwo Hact Hj Hij. pose proof Hact as [Hi Hname].
  pose proof (activeAt_getCurrentTeam _ _ _ Htwo Hact) as Hteam.
  pose proof (twoTeams_pushed _ Htwo) as Htwo'.
  pose proof (activeAt_pushed _ _ _ Hact) as Hact'.
  split; [|split; [|split]].
  - intros a Hev Hc t'. unfold completes in Hc. rewrite Hev in Hc.
    destruct Hc as [Hfresh Hfin].
    rewrite (step_event_active _ _ _ _ Hteam Hev). unfold exec.
    rewrite (setBoardAnswer_fresh (pushed g) a Hfresh).
    set (g1 := set_round _ _).
    assert (Round_checkFinish (game_round g1)
            || bool_decide (round_status (game_round (pushed g)) = STOLEN)
            = true) as ->.
    { apply orb_true_iff. destruct Hfin as [Hlen|Hst].
      - left. unfold Round_checkFinish, g1. simpl. by apply Z.eqb_eq.
      - right. by apply bool_decide_eq_true. }
    assert (twoTeams g1) as Htwo1 by (by apply twoTeams_set_round).
    assert (activeAt g1 i t) as Hact1 by done.
    rewrite (finishRound_two g1 i t j u Htwo1 Hact1 Hj Hij).
    change (awardedPoints g1)
      with ((round_points (game_round g) + points a)
            * multiplier (game_roundCount g)).
    fold t'. eexists _, _. split; [done|].
    assert (alter (Team_addPoints
                     ((round_points (game_round g) + points a)
                      * multiplier (game_roundCount g))) i (game_teams g) !! i
            = Some t') as Hi1 by (by rewrite list_lookup_alter_eq, Hi).
    assert (alter (Team_addPoints
                     ((round_points (game_round g) + points a)
                      * multiplier (game_roundCount g))) i (game_teams g) !! j
            = Some u) as Hj1 by (by rewrite list_lookup_alter_ne).
    destruct (Z.leb_spec 400 (team_points t')) as [Hwin|Hlow]; simpl;
      split_and!; try done.
    + split; [done|]. intros _. in_list.
    + split; [|intros; exfalso; subst t'; simpl in *; lia]. intros Hin. exfalso.
      repeat (apply elem_of_cons in Hin as [Hin|Hin]; [discriminate|]).
      by apply elem_of_nil in Hin.
  - intros Hev Hc u'. unfold completes in Hc. rewrite Hev in Hc.
    destruct (error_in_stolen g i t j u e Htwo Hact Hj Hij Hc Hev)
      as (g' & log & Hrun & Hi' & Hj' & _ & Hwin & _).
    by exists g', log.
  - do 2 (split; [done|]). intros n H4 H5. unfold multiplier.
    destruct (Z.eqb_spec n 4); [done|]. by destruct (Z.eqb_spec n 5).
  - intros g' log w Hrun Hin. unfold completes.
    destruct (eventAnswer e g) as [[a|]|] eqn:Hev.
    + rewrite (step_event_active _ _ _ _ Hteam Hev) in Hrun.
      unfold exec in Hrun.
      destruct (decide (lp a ∈ round_revealed (game_round g))) as [Hold|Hfresh].
      { rewrite (setBoardAnswer_again (pushed g) a Hold) in Hrun.
        simplify_eq. by apply elem_of_nil in Hin. }
      split; [done|].
      rewrite (setBoardAnswer_fresh (pushed g) a Hfresh) in Hrun.
      unfold Round_checkFinish in Hrun. simpl in Hrun.
      destruct (Z.eqb_spec
                  (Z.of_nat (length (question_answers
                                       (round_question (game_round g)))))
                  (round_right (game_round g) + 1)) as [Hlen|Hlen]; [by left|].
      destruct (bool_decide_reflect (round_status (game_round g) = STOLEN))
        as [Hst|Hst]; [by right|].
      simpl in Hrun. simplify_eq.
      repeat (apply elem_of_cons in Hin as [Hin|Hin]; [discriminate|]).
      by apply elem_of_nil in Hin.
    + destruct (round_status (game_round g)) eqn:Hst; [|done].
      rewrite (step_event_active _ _ _ _ Hteam Hev) in Hrun.
      unfold exec in Hrun.
      rewrite (setBoardError_default (pushed g) i t j u Htwo' Hact' Hj Hij Hst)
        in Hrun.
      simplify_eq. destruct (_ =? 3); simpl in Hin;
        repeat (apply elem_of_cons in Hin as [Hin|Hin]; [discriminate|]);
        by apply elem_of_nil in Hin.
    + unfold exec in Hrun.
      destruct (step e g) as [[[[] g1] l1]|] eqn:Hstep; simplify_eq.
      assert (Forall notFinish log) as Hlog.
      { destruct e; simpl in Hev; try done.
        - destruct (findByNumber number g) eqn:Hf; [done|].
          assert (exec (step (RevealAnswerByNumber number)) g = Some (g, []))
            as Hd.
          { apply step_event_dropped; [simpl; by rewrite Hf | eauto]. }
          unfold exec in Hd. rewrite Hstep in Hd. simplify_eq. constructor.
        - by eapply (step_no_winner (SetCurrentTeam teamName)).
        - by eapply (step_no_winner (AdvanceToNextRound r)).
        - by eapply (step_no_winner Undo). }
      rewrite Forall_forall in Hlog. by apply Hlog in Hin.
Qed.

(** ** Events after the steal is resolved (C4) *)

(** The reveal on the non-awarding path, followed by the completion check
    of its callers: only the round and the pending flag can change. *)
Lemma revealOnly_then_flag g a :
  exists g' log,
    exec (Round_revealAnswerOnly a ;; flagIfFinished) g = Some (g', log) /\
    game_teams g' = game_teams g /\
    game_round g'
    = if decide (lp a ∈ round_revealed (game_round g)) then game_round g
      else revealIn a false (game_round g).
Proof.
  unfold exec, Round_revealAnswerOnly, flagIfFinished. run_op.
  destruct (decide _) as [Hold|Hfresh]; run_op.
  - destruct (Round_checkFinish _); simpl; eauto.
  - destruct (Round_checkFinish _); simpl; eauto.
Qed.

Lemma revealIn_changes a award r :
  lp a ∉ round_revealed r -> revealIn a award r <> r.
Proof.
  intros Hfresh Heq. apply Hfresh. rewrite <-Heq. simpl. set_solver.
Qed.

(** C4, as the code has it.  Once the steal is resolved -- the round is
    STOLEN and the next round is pending -- reveal and error events are
    still processed as in any other state.  The round and the teams are
    left unchanged exactly by the events that are no-ops everywhere: the
    reveal of a rank already revealed or absent from the question, and an
    unmatched guess or manual error while no team is active.  An error for
    an active team and a reveal of a rank not yet revealed do change
    them. *)
Theorem events_after_steal_resolved (g : Game) (e : Action) :
  twoTeams g ->
  round_status (game_round g) = STOLEN ->
  game_pendingNextRound g = true ->
  ~ bookkeeping e ->
  exists g' log,
    exec (step e) g = Some (g', log) /\
    ((game_round g' = game_round g /\ game_teams g' = game_teams g)
     <-> accepted e g = false).
Proof.
  intros Htwo Hst Hpend Hev. unfold accepted.
  destruct (eventAnswer e g) as [[a|]|] eqn:Hans.
  - (* a reveal *)
    destruct (Game_getCurrentTeam g) as [i|] eqn:Hteam.
    + destruct (getCurrentTeam_Some _ _ Hteam) as [t Hact].
      destruct (twoTeams_other _ _ _ Htwo Hact) as (j & u & Hj & Hij).
      rewrite (step_event_active _ _ _ _ Hteam Hans). unfold exec.
      destruct (decide (lp a ∈ round_revealed (game_round g))) as [Hold|Hfresh].
      * rewrite (setBoardAnswer_again (pushed g) a Hold).
        eexists _, _. split; [done|]. split; [|done].
        intros _. apply bool_decide_eq_false. by intros [].
      * rewrite (setBoardAnswer_fresh (pushed g) a Hfresh).
        change (round_status (game_round (pushed g)))
          with (round_status (game_round g)).
        rewrite Hst, bool_decide_eq_true_2, orb_true_r by done.
        set (g1 := set_round _ _).
        assert (twoTeams g1) as Htwo1
          by (by apply twoTeams_set_round, twoTeams_pushed).
        assert (activeAt g1 i t) as Hact1 by done.
        pose proof (finishRound_two g1 i t j u Htwo1 Hact1 Hj Hij) as Hfin.
        destruct (finishRound_closes g1 i t j u _ _ Htwo1 Hact1 Hj Hij Hfin)
          as [_ Hround].
        rewrite Hfin. eexists _, _. split; [done|]. split.
        -- intros [Hr _]. rewrite Hround in Hr. simpl in Hr.
           by apply revealIn_changes in Hr.
        -- intros Hacc. apply bool_decide_eq_false in Hacc. by destruct Hacc.
    + rewrite (step_event_inactive _ _ _ Hteam Hans).
      destruct (revealOnly_then_flag (pushed g) a)
        as (g' & log & Hrun & Hteams & Hround).
      exists g', log. split; [done|]. rewrite Hround, Hteams. simpl.
      destruct (decide _) as [Hold|Hfresh].
      * split; [|done]. intros _. apply bool_decide_eq_false. by intros [].
      * split.
        -- intros [Hr _]. by apply revealIn_changes in Hr.
        -- intros Hacc. apply bool_decide_eq_false in Hacc. by destruct Hacc.
  - (* an error *)
    destruct (Game_getCurrentTeam g) as [i|] eqn:Hteam.
    + destruct (getCurrentTeam_Some _ _ Hteam) as [t Hact].
      destruct (twoTeams_other _ _ _ Htwo Hact) as (j & u & Hj & Hij).
      destruct (error_in_stolen g i t j u e Htwo Hact Hj Hij Hst Hans)
        as (g' & log & Hrun & Hi' & _).
      exists g', log. split; [done|].
      split; [|intros Hacc; apply bool_decide_eq_false in Hacc;
               destruct Hacc; eauto].
      intros [_ Hteams]. rewrite Hteams in Hi'. destruct Hact as [Hi _].
      rewrite Hi in Hi'. simplify_eq. destruct t as [n p er].
      unfold Team_addError in Hi'. simplify_eq/=. lia.
    + rewrite (step_event_inactive _ _ _ Hteam Hans).
      eexists _, _. split; [done|]. split.
      * intros _. apply bool_decide_eq_false. by intros [? ?].
      * intros _. by destruct (pushes e g).
  - (* a number the question does not have *)
    rewrite step_event_dropped; [by eexists _, _| done |].
    destruct e; simpl in *; eauto; by destruct Hev.
Qed.

(** ** What a run can lead to *)

Lemma post_ret {A} (a : A) g Q : Q a g [] -> post (ret a) g Q.
Proof. intros HQ ? ? ? H. cbv [ret] in H. by simplify_eq. Qed.

Lemma post_get g Q : Q g g [] -> post get g Q.
Proof. intros HQ ? ? ? H. cbv [get] in H. by simplify_eq. Qed.

Lemma post_modify f g Q : Q tt (f g) [] -> post (modify f) g Q.
Proof. intros HQ ? ? ? H. cbv [modify] in H. by simplify_eq. Qed.

Lemma post_modifyRound f g Q :
  Q tt (set_round (f (game_round g)) g) [] -> post (modifyRound f) g Q.
Proof. intros HQ ? ? ? H. cbv [modifyRound modify] in H. by simplify_eq. Qed.

Lemma post_emit e g Q : Q tt g [e] -> post (emit e) g Q.
Proof. intros HQ ? ? ? H. cbv [emit] in H. by simplify_eq. Qed.

Lemma post_throw {A} g Q : post (@throw A) g Q.
Proof. intros ? ? ? H. cbv [throw] in H. by simplify_eq. Qed.

Lemma post_bind {A B} (m : Op A) (k : A -> Op B) g Q :
  post m g (fun a g1 l1 => post (k a) g1 (fun b g2 l2 => Q b g2 (l1 ++ l2))) ->
  post (bind m k) g Q.
Proof.
  intros Hm b g2 l (a & g1 & l1 & l2 & H1 & H2 & ->)%bind_Some.
  by eapply Hm.
Qed.

Ltac post_step :=
  first
    [ apply post_ret | apply post_get | apply post_modifyRound
    | apply post_modify | apply post_emit | apply post_throw
    | apply post_bind
    | progress cbv beta iota zeta
    | lazymatch goal with
      | |- post (match ?x with _ => _ end) _ _ => destruct x eqn:?
      | |- post ?m _ _ => let h := head_of m in progress unfold h
      end ].

Ltac post_walk := repeat post_step.

(** ** The right counter (C7) *)

Lemma revealIn_counts a award r :
  lp a ∉ round_revealed r -> roundCounts r -> roundCounts (revealIn a award r).
Proof.
  unfold roundCounts. simpl. intros Hfresh ->.
  rewrite size_union by set_solver. rewrite size_singleton. lia.
Qed.

Lemma snapshot_counts g :
  roundCounts (game_round g) -> snapshotCounts (Game_snapshot g).
Proof.
  unfold roundCounts, snapshotCounts. simpl. intros ->.
  by rewrite list_to_set_elements_L.
Qed.

Ltac counts_leaf :=
  unfold countsRevealed in *; simpl;
  repeat match goal with
         | H : _ /\ _ |- _ => destruct H
         | H : decide _ = right _ |- _ => clear H
         end;
  try (split; [try done; try (by apply revealIn_counts)
              | try done; try (apply Forall_cons; split;
                                 [by apply snapshot_counts | done])]).

Lemma step_counts a g g' :
  countsRevealed g -> stateAfter (step a) g = Some g' -> countsRevealed g'.
Proof.
  intros Hinv Hstep. unfold stateAfter, exec in Hstep.
  destruct (step a g) as [[[[] g1] l]|] eqn:Hrun; simplify_eq/=.
  revert g' l Hrun. generalize tt.
  change (post (step a) g (fun _ g' _ => countsRevealed g')).
  destruct a; simpl; unfold ignore.
  - post_walk; counts_leaf.
  - post_walk; counts_leaf.
  - post_walk; counts_leaf.
  - post_walk; counts_leaf.
  - post_walk; counts_leaf.
    all: unfold roundCounts; simpl; by rewrite size_empty.
  - intros [] g2 l2 Hrun. unfold bind in Hrun.
    destruct Hinv as [Hr Hs].
    destruct (game_undoStack g) as [|snapshot rest] eqn:Hst.
    + rewrite (undo_empty g Hst) in Hrun. cbv [ret] in Hrun. simplify_eq/=.
      split; [done|]. rewrite Hst. constructor.
    + destruct (undo_pops snapshot rest g Hst) as [log Hundo].
      rewrite Hundo in Hrun. cbv [ret] in Hrun. simplify_eq/=.
      apply Forall_cons in Hs as [Hsnap Hrest]. by split.
Qed.

Lemma new_game_counts teams store r g log :
  Game_new teams store r = Some (g, log) -> countsRevealed g.
Proof.
  unfold Game_new.
  destruct (QuestionStore_getNextQuestion store) as [[q|] s]; [|done].
  destruct (bind _ _ _) as [[[[] g1] l1]|] eqn:Hrun; intros ?; simplify_eq.
  revert g log Hrun. generalize tt.
  match goal with
  | |- forall u g log, ?m ?g0 = _ -> _ =>
      change (post m g0 (fun _ g' _ => countsRevealed g'))
  end.
  post_walk; counts_leaf.
  all: unfold roundCounts; simpl; by rewrite size_empty.
Qed.


(** ** Matching a guess (C6) *)

Lemma resolvePlayerAnswer_matches s g a :
  result_answer (Game_resolvePlayerAnswer s g) = Some a ->
  a ∈ question_answers (round_question (game_round g)) /\ matches a s.
Proof.
  unfold Game_resolvePlayerAnswer.
  destruct (list_find _ _) as [[k a']|] eqn:Hfind; intros ?; simplify_eq/=.
  apply list_find_Some in Hfind as (Hk & Hm & _).
  split; [by eapply list_elem_of_lookup_2 | done].
Qed.

(** C6 fails on the code.  The guess "Kot" differs from the stored answer
    "kot" by the case of one letter and is not recognised: it is booked as
    an error of the active team.  The stored answer "zaba" with its dotted
    Z is recognised under no spelling of the guess, its own included,
    because the guess loses the dot and the stored text keeps it.  What the
    comparison does tolerate is capitals in the stored text and diacritics
    in the guess. *)
Theorem guess_matching_is_one_sided :
  Game_resolvePlayerAnswer (str "kot") animalsGame
  = mkResult (Some (mkAnswer (str "kot") 1 60)) true /\
  Game_resolvePlayerAnswer (str "Kot") animalsGame = mkResult None false /\
  (exists g' log,
     Game_handlePlayerAnswer (str "Kot") animalsGame = Some (tt, g', log) /\
     team_errors <$> game_teams g' = [1; 0] /\
     round_revealed (game_round g') = ∅) /\
  Game_resolvePlayerAnswer zaba animalsGame = mkResult None false /\
  Game_resolvePlayerAnswer (str "zaba") animalsGame = mkResult None false /\
  (forall guess, ~ matches (mkAnswer zaba 2 40) guess) /\
  matches (mkAnswer (str "Pies") 2 30) (str "pies") /\
  matches (mkAnswer (str "zaba") 2 40) zaba.
Proof.
  split_and!; try (vm_compute; reflexivity).
  - eexists _, _. split; [vm_compute; reflexivity|]. split; reflexivity.
  - intros guess Hm. unfold matches, removeDiacritics in Hm.
    assert (380%N ∈ toLowerCase (ans (mkAnswer zaba 2 40))) as Hin
      by (vm_compute; left).
    rewrite Hm in Hin. apply list_elem_of_filter in Hin as [Hkept _].
    vm_compute in Hkept. discriminate.
Qed.

(** ** Questions of the store (C10) *)




Lemma swap_Permutation {A} (l : list A) i j : swap l i j ≡ₚ l.
Proof.
  unfold swap.
  destruct (l !! i) as [a|] eqn:Hi; [|done].
  destruct (l !! j) as [b|] eqn:Hj; [|done].
  by apply Permutation_insert_swap.
Qed.

Lemma shuffleFrom_Permutation {A} rand i (l : list A) :
  shuffleFrom rand i l ≡ₚ l.
Proof.
  revert l. induction i as [|i IH]; intros l; simpl; [done|].
  by rewrite IH, swap_Permutation.
Qed.


(** ** Events return *)

Lemma getCurrentTeam_lt g i :
  Game_getCurrentTeam g = Some i -> (i < length (game_teams g))%nat.
Proof.
  intros Hi. destruct (getCurrentTeam_Some g i Hi) as (t & Ht & _).
  by eapply lookup_lt_Some.
Qed.

Lemma getNextQuestion_playable s :
  0 <= store_currentQuestionIndex s < Z.of_nat (length (store_questions s)) ->
  exists q s',
    QuestionStore_getNextQuestion s = (Some q, s') /\
    store_questions s' = store_questions s /\
    0 <= store_currentQuestionIndex s'
      < Z.of_nat (length (store_questions s')).
Proof.
  intros Hc. unfold QuestionStore_getNextQuestion, questionAt.
  destruct (Z.eqb_spec (Z.of_nat (length (store_questions s))) 0); [lia|].
  destruct (Z.ltb_spec (store_currentQuestionIndex s) 0); [lia|].
  destruct (store_questions s !! Z.to_nat (store_currentQuestionIndex s))
    as [q|] eqn:Hq.
  - eexists _, _. split; [done|]. simpl. split; [done|].
    rewrite Z.rem_mod_nonneg by lia. apply Z.mod_pos_bound. lia.
  - apply lookup_ge_None in Hq. lia.
Qed.

Lemma setCurrentQuestionIndex_playable c s :
  (0 < length (store_questions s))%nat ->
  0 <= store_currentQuestionIndex (QuestionStore_setCurrentQuestionIndex c s)
    < Z.of_nat (length (store_questions
                          (QuestionStore_setCurrentQuestionIndex c s))).
Proof.
  intros Hlen. unfold QuestionStore_setCurrentQuestionIndex.
  set (n := Z.of_nat (length (store_questions s))).
  destruct (Z.eqb_spec n 0); [lia|]. simpl. fold n.
  assert (0 < n) as Hn by lia.
  pose proof (Z.rem_bound_abs c n ltac:(lia)) as Hb.
  rewrite Z.rem_mod_nonneg by lia. apply Z.mod_pos_bound. lia.
Qed.

Ltac playable_leaf :=
  lazymatch goal with
  | |- wp throw _ _ =>
      exfalso;
      repeat match goal with
             | H : Game_getCurrentTeam _ = Some _ |- _ =>
                 apply getCurrentTeam_lt in H
             | H : _ !! _ = None |- _ => apply lookup_ge_None in H
             end;
      simpl in *; rewrite ?length_alter, ?length_map in *; lia
  | |- playable _ =>
      unfold playable in *; simpl;
      rewrite ?length_alter, ?length_map; assumption
  end.

(** Every event returns, on a playable game, and leaves a playable game. *)
Lemma step_returns a g :
  playable g -> validDraw a ->
  wp (step a) g (fun _ g' _ => playable g').
Proof.
  intros Hp Hdraw. destruct a; simpl; unfold ignore.
  - wp_walk; playable_leaf.
  - wp_walk; playable_leaf.
  - wp_walk; playable_leaf.
  - wp_walk; playable_leaf.
  - unfold Game_advanceToNextRound, Game_startNewRound, Game_getQuestion.
    destruct Hp as [Hteams Hcur].
    destruct (getNextQuestion_playable _ Hcur) as (q & s' & Hq & Hqs & Hcur').
    wp_walk; simpl in *;
      repeat match goal with
             | H : QuestionStore_getNextQuestion _ = _ |- _ =>
                 rewrite Hq in H; simplify_eq
             end.
    + split; simpl; [by rewrite length_map | done].
    + exfalso. match goal with
               | H : _ !! r = None |- _ => apply lookup_ge_None in H
               end.
      rewrite length_map in *. lia.
    + by split.
  - destruct Hp as [Hteams Hcur].
    destruct (game_undoStack g) as [|snapshot rest] eqn:Hst.
    + exists tt, g, []. unfold bind. rewrite (undo_empty g Hst). by split.
    + destruct (undo_pops snapshot rest g Hst) as [log Hundo].
      eexists tt, _, _. unfold bind. rewrite Hundo. split; [done|].
      split; simpl.
      * rewrite <-(length_fmap team_name), restoreTeams_names, length_fmap.
        done.
      * apply setCurrentQuestionIndex_playable. lia.
Qed.

Lemma forwardRun_exists l g :
  playable g -> Forall validDraw l -> pushesAlong l g ->
  exists g', forwardRun g l g'.
Proof.
  revert g. induction l as [|a l IH]; intros g Hp Hd Hpush.
  - exists g. constructor.
  - apply Forall_cons in Hd as [Ha Hd]. destruct Hpush as [Hpa Hrest].
    destruct (step_returns a g Hp Ha) as ([] & g1 & log & Hrun & Hp1).
    assert (stateAfter (step a) g = Some g1) as Hs
      by (unfold stateAfter, exec; by rewrite Hrun).
    destruct (IH g1 Hp1 Hd (Hrest g1 Hs)) as [g' Hrun'].
    exists g'. by econstructor.
Qed.

(** C1.  Undo exactness.  Take a game [g] that satisfies the invariants of
    the data model (two or more teams of distinct names, counters that are
    not negative, the cursor on a question of the store) and any sequence
    [l] of forward actions -- [handlePlayerAnswer], [revealAnswerByNumber]
    with a rank of the question, [addErrorForSelectedTeam] with a team
    active, [setCurrentTeam], [advanceToNextRound] when pending.  Playing
    [l] and then calling [undo] as many times as [l] is long returns, and
    ends in [g] itself: the round (question, revealed set, status, points,
    right), the teams with their points and errors, the active team, the
    round counter, the pending flag and the cursor of the store are what
    they were, and so is the undo stack. *)
Theorem undo_exactness (g : Game) (l : list Action) :
  wellFormed g ->
  (2 <= length (game_teams g))%nat ->
  Forall validDraw l ->
  pushesAlong l g ->
  run (l ++ replicate (length l) Undo) g = Some g.
Proof.
  intros Hwf Hteams Hdraw Hpush.
  destruct (forwardRun_exists l g) as [g' Hrun]; try done.
  - split; [done|]. by destruct Hwf.
  - by eapply undo_exactness_along.
Qed.

(** ** Sound sessions *)

Lemma multiplier_pos n : 0 < multiplier n.
Proof. unfold multiplier. repeat case_match; lia. Qed.

Lemma sound_pushed g :
  sound g -> sound (set_undoStack (Game_snapshot g :: game_undoStack g) g).
Proof.
  intros [[] ? ? ? ? ?]. split; try done. apply Forall_cons. by split.
Qed.

Lemma sound_set_pendingNextRound b g :
  sound g -> sound (set_pendingNextRound b g).
Proof. intros [[] ? ? ? ? ?]. by split. Qed.

Lemma sound_set_currentTeam n g : sound g -> sound (set_currentTeam n g).
Proof. intros [[] ? ? ? ? ?]. by split. Qed.

Lemma sound_setStatus st g :
  sound g -> sound (set_round (setStatus st (game_round g)) g).
Proof. intros [[] ? ? ? ? ?]. by split. Qed.

Lemma sound_alter (f : Team -> Team) i g :
  (forall t, team_name (f t) = team_name t) ->
  (forall t, 0 <= team_points t /\ 0 <= team_errors t ->
             0 <= team_points (f t) /\ 0 <= team_errors (f t)) ->
  sound g -> sound (set_teams (alter f i) g).
Proof.
  intros Hn Hf [[Hnd Hc Hcur] ? ? ? ? ?]. split; try done; simpl.
  - split; simpl; [by rewrite alter_names | | done].
    apply Forall_alter; [done|]. intros t _. apply Hf.
  - by rewrite length_alter.
Qed.

Lemma sound_award i g :
  sound g ->
  sound (set_teams
           (alter (Team_addPoints
                     (round_points (game_round g)
                      * multiplier (game_roundCount g))) i) g).
Proof.
  intros Hs. apply sound_alter; [done| |done]. intros t [Hp He]. simpl.
  split; [|done]. pose proof (multiplier_pos (game_roundCount g)).
  destruct Hs. nia.
Qed.

Lemma sound_addError i g :
  sound g -> sound (set_teams (alter Team_addError i) g).
Proof.
  apply sound_alter; [done|]. intros t [Hp He]. simpl. split; [done | lia].
Qed.

Lemma sound_reveal a award g :
  a ∈ question_answers (round_question (game_round g)) ->
  sound g -> sound (set_round (revealIn a award (game_round g)) g).
Proof.
  intros Ha [[] ? ? Hq ? ?]. split; try done. simpl.
  unfold nonnegAnswers in Hq. rewrite Forall_forall in Hq.
  specialize (Hq a Ha). destruct award; lia.
Qed.

Lemma findByNumber_elem n g a :
  findByNumber n g = Some a ->
  a ∈ question_answers (round_question (game_round g)).
Proof.
  unfold findByNumber.
  destruct (list_find _ _) as [[k a']|] eqn:Hfind; intros ?; simplify_eq/=.
  apply list_find_Some in Hfind as (Hk & _). by eapply list_elem_of_lookup_2.
Qed.

Lemma resolvePlayerAnswer_elem s g a :
  result_answer (Game_resolvePlayerAnswer s g) = Some a ->
  a ∈ question_answers (round_question (game_round g)).
Proof. intros H. by apply resolvePlayerAnswer_matches in H as [? _]. Qed.

Lemma restore1_counters s ts :
  Forall (fun t => 0 <= team_points t /\ 0 <= team_errors t) ts ->
  Forall (fun t => 0 <= team_points t /\ 0 <= team_errors t) (restore1 s ts).
Proof.
  intros Hts. unfold restore1. destruct (list_find _ _) as [[i t]|]; [|done].
  apply Forall_alter; [apply Forall_alter; [done|]|].
  - intros t0 _ [_ He]. simpl. split; [lia | done].
  - intros t0 _ [Hp _]. simpl. split; [done | lia].
Qed.

Lemma restoreTeams_counters states ts :
  Forall (fun t => 0 <= team_points t /\ 0 <= team_errors t) ts ->
  Forall (fun t => 0 <= team_points t /\ 0 <= team_errors t)
    (restoreTeams states ts).
Proof.
  unfold restoreTeams. revert ts.
  induction states as [|s states IH]; intros ts Hts; simpl; [done|].
  by apply IH, restore1_counters.
Qed.

Ltac sound_leaf :=
  repeat first
    [ assumption
    | apply sound_set_pendingNextRound | apply sound_set_currentTeam
    | apply sound_setStatus | apply sound_award | apply sound_addError
    | apply sound_pushed
    | apply sound_reveal;
      [first [ eapply findByNumber_elem; eassumption
             | eapply resolvePlayerAnswer_elem; eassumption ] |] ].

Lemma step_sound a g g' :
  sound g -> stateAfter (step a) g = Some g' -> sound g'.
Proof.
  intros Hs Hstep. unfold stateAfter, exec in Hstep.
  destruct (step a g) as [[[[] g1] l]|] eqn:Hrun; simplify_eq/=.
  revert g' l Hrun. generalize tt.
  change (post (step a) g (fun _ g' _ => sound g')).
  destruct a; simpl; unfold ignore.
  - post_walk; sound_leaf.
  - post_walk; sound_leaf.
  - post_walk; sound_leaf.
  - post_walk; sound_leaf.
  - unfold Game_advanceToNextRound, Game_startNewRound, Game_getQuestion.
    pose proof Hs as [[Hnd Hc Hcur] Hlen Hst Hq Hp Hstk].
    destruct (getNextQuestion_playable _ Hcur) as (q & s' & Hnext & Hqs & Hcur').
    assert (nonnegAnswers q) as Hnq.
    { rewrite Forall_forall in Hst. apply Hst.
      unfold QuestionStore_getNextQuestion, questionAt in Hnext.
      repeat case_match; simplify_eq. by eapply list_elem_of_lookup_2. }
    post_walk; simpl in *;
      repeat match goal with
             | H : QuestionStore_getNextQuestion _ = _ |- _ =>
                 rewrite Hnext in H; simplify_eq
             end; try done.
    split; simpl; try done.
    + split; simpl; [by rewrite resetErrors_names | | done].
      clear -Hc. induction Hc as [|t ts [Hp _] _ IH]; simpl;
        constructor; [split; simpl; [done | lia] | done].
    + by rewrite length_map.
    + by rewrite Hqs.
    + apply Forall_cons. by split.
  - intros [] g2 l2 Hrun. unfold bind in Hrun.
    pose proof Hs as [[Hnd Hc Hcur] Hlen Hst Hq Hp Hstk].
    destruct (game_undoStack g) as [|snapshot rest] eqn:Hstack.
    + rewrite (undo_empty g Hstack) in Hrun. cbv [ret] in Hrun.
      by simplify_eq/=.
    + destruct (undo_pops snapshot rest g Hstack) as [log Hundo].
      rewrite Hundo in Hrun. cbv [ret] in Hrun. simplify_eq/=.
      apply Forall_cons in Hstk as [[Hsq Hsp] Hrest].
      split; simpl; try done.
      * split; simpl.
        -- by rewrite restoreTeams_names.
        -- by apply restoreTeams_counters.
        -- apply setCurrentQuestionIndex_playable. lia.
      * rewrite <-(length_fmap team_name), restoreTeams_names, length_fmap.
        done.
      * by destruct (setCurrentQuestionIndex_shape
                       (snap_questionsStoreIndex snapshot)
                       (game_questionsStore g)) as [_ ->].
Qed.

Lemma new_game_sound teams store r g log :
  goodStart teams store -> Game_new teams store r = Some (g, log) -> sound g.
Proof.
  intros [Hlen Hnd Hc Hcur Hpts]. unfold Game_new.
  destruct (getNextQuestion_playable _ Hcur) as (q & s' & Hnext & Hqs & Hcur').
  assert (nonnegAnswers q) as Hnq.
  { rewrite Forall_forall in Hpts. apply Hpts.
    unfold QuestionStore_getNextQuestion, questionAt in Hnext.
    repeat case_match; simplify_eq. by eapply list_elem_of_lookup_2. }
  rewrite Hnext.
  unfold bind, Round_new, emit, ret, Game_setRandomTeam, bind, get. simpl.
  destruct (teams !! r) as [t|] eqn:Hr; [|done]. simpl.
  intros ?; simplify_eq.
  split; simpl; try done.
  by rewrite Hqs.
Qed.

(** Every game of a session that starts well is well formed and playable:
    the hypotheses of the undo theorems hold throughout such a session. *)
Lemma session_sound teams store g :
  goodStart teams store -> session teams store g -> sound g.
Proof.
  intros Hstart Hsession.
  induction Hsession as [r g log Hnew|g a g' _ IH Hstep].
  - by eapply new_game_sound.
  - by eapply step_sound.
Qed.

(** Undo exactness holds at every game of a session that starts well. *)
Corollary undo_exactness_in_session teams store g l :
  goodStart teams store -> session teams store g ->
  Forall validDraw l -> pushesAlong l g ->
  run (l ++ replicate (length l) Undo) g = Some g.
Proof.
  intros Hstart Hsession Hdraw Hpush.
  destruct (session_sound _ _ _ Hstart Hsession) as [Hwf Hteams _ _ _ _].
  destruct (forwardRun_exists l g) as [g' Hrun]; try done.
  - split; [done|]. by destruct Hwf.
  - by eapply undo_exactness_along.
Qed.

(** ** Summaries of the sample runs *)

Lemma forwardRunb_sound l g g' :
  forwardRunb l g = Some g' -> forwardRun g l g'.
Proof.
  revert g. induction l as [|a l IH]; intros g; simpl.
  - intros ?; simplify_eq. constructor.
  - destruct (pushes a g) eqn:Hp; [|done].
    destruct (stateAfter (step a) g) as [g1|] eqn:Hs; [|done].
    intros Hrun. econstructor; eauto.
Qed.

Ltac by_compute := apply (bool_decide_unpack _); vm_compute; exact I.

Example stolenRoundFive_summary :
  game_roundCount stolenRoundFive = 5 /\
  round_status (game_round stolenRoundFive) = STOLEN /\
  round_points (game_round stolenRoundFive) = 40 /\
  game_pendingNextRound stolenRoundFive = false /\
  game_currentTeam stolenRoundFive = str "red" /\
  game_teams stolenRoundFive
  = [mkTeam (str "blue") 395 3; mkTeam (str "red") 0 0].
Proof. vm_compute. by repeat split. Qed.

Example stealResolved_summary :
  round_status (game_round stealResolved) = STOLEN /\
  game_pendingNextRound stealResolved = true /\
  game_currentTeam stealResolved = str "red" /\
  game_teams stealResolved
  = [mkTeam (str "blue") 40 3; mkTeam (str "red") 0 1].
Proof. vm_compute. by repeat split. Qed.

(** ** The properties on the sample game *)

(** C1 on the sample game: a guess, a reveal by number, an advance, a
    manual error and a team selection, then five undos. *)
Lemma undo_exactness_witness :
  let l := [ HandlePlayerAnswer (str "kot"); RevealAnswerByNumber 2;
             AdvanceToNextRound 1; AddErrorForSelectedTeam;
             SetCurrentTeam (str "blue") ] in
  wellFormed sampleGame /\
  (2 <= length (game_teams sampleGame))%nat /\
  Forall validDraw l /\
  pushesAlong l sampleGame /\
  run (l ++ replicate (length l) Undo) sampleGame = Some sampleGame.
Proof.
  intros l.
  assert (wellFormed sampleGame) as Hwf.
  { split; [by_compute | by_compute
           | vm_compute; split; [discriminate | reflexivity]]. }
  assert (2 <= length (game_teams sampleGame))%nat as Hteams
    by (vm_compute; lia).
  assert (Forall validDraw l) as Hdraw by (repeat constructor).
  assert (pushesAlong l sampleGame) as Hpush.
  { repeat (split; [vm_compute; reflexivity|];
            intros ? Hstep; vm_compute in Hstep;
            injection Hstep as <-). exact I. }
  do 4 (split; [assumption|]).
  exact (undo_exactness sampleGame l Hwf Hteams Hdraw Hpush).
Defined.

(** C2 on the stolen fifth round: red errs, blue is the active team at the
    award and is credited 40 x 3 on top of its 395 points; the winner is
    announced with blue at 515. *)
Lemma round_award_witness :
  let blue := mkTeam (str "blue") 395 3 in
  twoTeams stolenRoundFive /\
  activeAt stolenRoundFive 1 red0 /\
  game_teams stolenRoundFive !! 0%nat = Some blue /\
  1%nat <> 0%nat /\
  eventAnswer AddErrorForSelectedTeam stolenRoundFive = Some None /\
  completes AddErrorForSelectedTeam stolenRoundFive /\
  exists g' log,
    exec (step AddErrorForSelectedTeam) stolenRoundFive = Some (g', log) /\
    game_teams g' !! 0%nat = Some (mkTeam (str "blue") 515 3) /\
    game_teams g' !! 1%nat = Some (mkTeam (str "red") 0 1) /\
    (board_finishGame (str "blue") ∈ log <-> 400 <= 515).
Proof.
  intros blue.
  assert (twoTeams stolenRoundFive) as H1
    by (split; [vm_compute; reflexivity | by_compute | by_compute]).
  assert (activeAt stolenRoundFive 1 red0) as H2
    by (split; vm_compute; reflexivity).
  assert (game_teams stolenRoundFive !! 0%nat = Some blue) as H3
    by (vm_compute; reflexivity).
  assert (1%nat <> 0%nat) as H4 by lia.
  assert (eventAnswer AddErrorForSelectedTeam stolenRoundFive = Some None)
    as H5 by reflexivity.
  assert (completes AddErrorForSelectedTeam stolenRoundFive) as H6
    by (vm_compute; reflexivity).
  do 6 (split; [assumption|]).
  destruct (round_award stolenRoundFive 1 0 red0 blue AddErrorForSelectedTeam
              H1 H2 H3 H4) as (_ & Hb & _).
  destruct (Hb H5 H6) as (g' & log & Hrun & Hj & Hi & Hwin).
  exists g', log. split; [exact Hrun|].
  split; [rewrite Hj; vm_compute; reflexivity|].
  split; [rewrite Hi; vm_compute; reflexivity|]. exact Hwin.
Defined.



(** C4 fails as stated.  With the steal resolved, one more error of red is
    processed: red gets its second error and blue the 40 points of the
    round a second time; and a reveal of the second rank is processed
    too. *)
Lemma events_after_resolution_are_processed :
  round_status (game_round stealResolved) = STOLEN /\
  game_pendingNextRound stealResolved = true /\
  (exists g',
     stateAfter (step AddErrorForSelectedTeam) stealResolved = Some g' /\
     game_teams stealResolved
     = [mkTeam (str "blue") 40 3; mkTeam (str "red") 0 1] /\
     game_teams g' = [mkTeam (str "blue") 80 3; mkTeam (str "red") 0 2]) /\
  (exists g',
     stateAfter (step (RevealAnswerByNumber 2)) stealResolved = Some g' /\
     round_right (game_round stealResolved) = 1 /\
     round_right (game_round g') = 2 /\
     game_teams g' = [mkTeam (str "blue") 40 3; mkTeam (str "red") 70 1]).
Proof.
  split; [vm_compute; reflexivity|]. split; [vm_compute; reflexivity|].
  split; eexists; (split; [vm_compute; reflexivity|]); by repeat split.
Qed.

(** The amended C4 on the sample game: the extra error of red. *)
Lemma events_after_steal_resolved_witness :
  twoTeams stealResolved /\
  round_status (game_round stealResolved) = STOLEN /\
  game_pendingNextRound stealResolved = true /\
  ~ bookkeeping AddErrorForSelectedTeam /\
  accepted AddErrorForSelectedTeam stealResolved = true /\
  exists g' log,
    exec (step AddErrorForSelectedTeam) stealResolved = Some (g', log) /\
    ~ (game_round g' = game_round stealResolved /\
       game_teams g' = game_teams stealResolved).
Proof.
  assert (twoTeams stealResolved) as H1
    by (split; [vm_compute; reflexivity | by_compute | by_compute]).
  assert (round_status (game_round stealResolved) = STOLEN) as H2
    by (vm_compute; reflexivity).
  assert (game_pendingNextRound stealResolved = true) as H3
    by (vm_compute; reflexivity).
  assert (~ bookkeeping AddErrorForSelectedTeam) as H4 by (simpl; tauto).
  assert (accepted AddErrorForSelectedTeam stealResolved = true) as H5
    by (vm_compute; reflexivity).
  do 5 (split; [assumption|]).
  destruct (events_after_steal_resolved stealResolved AddErrorForSelectedTeam
              H1 H2 H3 H4) as (g' & log & Hrun & Hiff).
  exists g', log. split; [exact Hrun|].
  intros Hsame. apply Hiff in Hsame. rewrite H5 in Hsame. discriminate.
Defined.

(** C5 fails as stated.  Blue errs three times and red once: the next
    round is pending, and the active team is red, not blue. *)
Lemma steal_leaves_opponent_active :
  game_currentTeam sampleGame = str "blue" /\
  exists g3 g4,
    run [AddErrorForSelectedTeam; AddErrorForSelectedTeam;
         AddErrorForSelectedTeam] sampleGame = Some g3 /\
    round_status (game_round g3) = STOLEN /\
    game_currentTeam g3 = str "red" /\
    run [AddErrorForSelectedTeam] g3 = Some g4 /\
    game_pendingNextRound g4 = true /\
    game_currentTeam g4 = str "red" /\
    game_currentTeam g4 <> str "blue".
Proof.
  split; [vm_compute; reflexivity|].
  eexists _, _. split; [vm_compute; reflexivity|].
  split; [reflexivity|]. split; [reflexivity|].
  split; [vm_compute; reflexivity|].
  split; [reflexivity|]. split; [reflexivity|]. vm_compute. discriminate.
Qed.

(** The amended C5 on the sample game, the errors being three unmatched
    guesses of blue and a manual error of red. *)
Lemma steal_resolved_by_error_witness :
  let es := [ HandlePlayerAnswer (str "chomik"); HandlePlayerAnswer (str "ryba");
              AddErrorForSelectedTeam; AddErrorForSelectedTeam ] in
  twoTeams sampleGame /\ activeAt sampleGame 0 blue0 /\
  game_teams sampleGame !! 1%nat = Some red0 /\ 0%nat <> 1%nat /\
  round_status (game_round sampleGame) = DEFAULT /\
  team_errors blue0 = 0 /\
  Forall (fun e => eventAnswer e sampleGame = Some None) es /\
  exists g4,
    run es sampleGame = Some g4 /\
    game_pendingNextRound g4 = true /\
    game_currentTeam g4 = str "red".
Proof.
  intros es.
  assert (twoTeams sampleGame) as H1
    by (split; [vm_compute; reflexivity | by_compute | by_compute]).
  assert (activeAt sampleGame 0 blue0) as H2
    by (split; vm_compute; reflexivity).
  assert (game_teams sampleGame !! 1%nat = Some red0) as H3
    by (vm_compute; reflexivity).
  assert (0%nat <> 1%nat) as H4 by lia.
  assert (round_status (game_round sampleGame) = DEFAULT) as H5
    by (vm_compute; reflexivity).
  assert (team_errors blue0 = 0) as H6 by reflexivity.
  assert (Forall (fun e => eventAnswer e sampleGame = Some None) es) as H7
    by (repeat constructor).
  do 7 (split; [assumption|]).
  destruct (steal_resolved_by_error sampleGame 0 1 blue0 red0
              (HandlePlayerAnswer (str "chomik")) (HandlePlayerAnswer (str "ryba"))
              AddErrorForSelectedTeam AddErrorForSelectedTeam
              H1 H2 H3 H4 H5 H6 H7)
    as (g3 & g4 & orig' & Hr3 & _ & _ & Hr4 & _ & _ & Hpts & Hout).
  exists g4. split.
  - change es with ([HandlePlayerAnswer (str "chomik");
                     HandlePlayerAnswer (str "ryba");
                     AddErrorForSelectedTeam] ++ [AddErrorForSelectedTeam]).
    rewrite run_app, Hr3. exact Hr4.
  - assert ((400 <=? team_points orig') = false) as Hlow
      by (rewrite Hpts; vm_compute; reflexivity).
    rewrite Hlow in Hout. destruct Hout as [Hc Hp]. split; [exact Hp | exact Hc].
Defined.


Lemma sampleGame_session : session sampleTeams sampleStore sampleGame.
Proof.
  destruct (Game_new sampleTeams sampleStore 0) as [[g log]|] eqn:Hnew;
    [|vm_compute in Hnew; discriminate].
  assert (g = sampleGame) as <-
    by (unfold sampleGame; rewrite Hnew; reflexivity).
  by eapply session_new.
Qed.


(** C8 on the sample game: "kot" is on the board and is revealed again. *)
Lemma reveal_revealed_rank_is_noop_witness :
  let g := after [RevealAnswerByNumber 1] sampleGame in
  lp kot ∈ round_revealed (game_round g) /\
  Round_setBoardAnswer kot g = Some (tt, g, []) /\
  Round_revealAnswerOnly kot g = Some (tt, g, []).
Proof.
  intros g.
  assert (lp kot ∈ round_revealed (game_round g)) as Hin
    by (vm_compute; reflexivity).
  split; [exact Hin|].
  destruct (reveal_revealed_rank_is_noop g kot Hin) as (H1 & H2 & _).
  split; [exact H1 | exact H2].
Defined.

(** C9 on the sample game with no team selected. *)
Lemma unmatched_guess_without_team_witness :
  let g := after [SetCurrentTeam []] sampleGame in
  wellFormed g /\ Game_getCurrentTeam g = None /\
  result_status (Game_resolvePlayerAnswer (str "chomik") g) = false /\
  Game_handlePlayerAnswer (str "chomik") g = Some (tt, pushed g, []) /\
  exists log, Game_undo (pushed g) = Some (true, g, log).
Proof.
  intros g.
  assert (wellFormed g) as H1.
  { split; [by_compute | by_compute
           | vm_compute; split; [discriminate | reflexivity]]. }
  assert (Game_getCurrentTeam g = None) as H2 by (vm_compute; reflexivity).
  assert (result_status (Game_resolvePlayerAnswer (str "chomik") g) = false)
    as H3 by (vm_compute; reflexivity).
  do 3 (split; [assumption|]).
  destruct (unmatched_guess_without_team g (str "chomik") H1 H2 H3)
    as (Hrun & _ & Hundo).
  split; [exact Hrun | exact Hundo].
Defined.



(** * Further properties of the code *)

(** ** The text of an answer row *)

Lemma answerFieldFill_length : length answerFieldFill = 51%nat.
Proof. reflexivity. Qed.

Lemma fillAnswerField_long text :
  (51 < length text)%nat ->
  fillAnswerField text = take 48 text ++ str "...".
Proof.
  intros Hlen. unfold fillAnswerField. rewrite answerFieldFill_length.
  destruct (Z.ltb_spec (Z.of_nat 51) (Z.of_nat (length text))); [|lia].
  f_equal. unfold substring. simpl from_option.
  replace (Z.min (Z.max 0 0) (Z.of_nat (length text))) with 0 by lia.
  replace (Z.min (Z.max (Z.of_nat 51 - 3) 0) (Z.of_nat (length text)))
    with 48 by lia.
  by replace (Z.max 0 48 - Z.min 0 48) with 48 by lia.
Qed.

Lemma fillAnswerField_short text :
  (length text <= 51)%nat ->
  fillAnswerField text = text ++ drop (length text) answerFieldFill.
Proof.
  intros Hlen. unfold fillAnswerField. rewrite answerFieldFill_length.
  destruct (Z.ltb_spec (Z.of_nat 51) (Z.of_nat (length text))); [lia|].
  f_equal. unfold substring. simpl from_option.
  rewrite answerFieldFill_length.
  replace (Z.min (Z.max (Z.of_nat (length text)) 0) (Z.of_nat 51))
    with (Z.of_nat (length text)) by lia.
  rewrite Z.min_l, Z.max_r by lia. rewrite Nat2Z.id.
  apply take_ge. rewrite length_drop, answerFieldFill_length. lia.
Qed.

(** X1.  Whatever the text, [fillAnswerField] returns a string of the
    width of the template, 51 code units: a short text is padded with the
    tail of the template, a long one is cut. *)
Theorem fillAnswerField_length (text : jsString) :
  length (fillAnswerField text) = length answerFieldFill /\
  length answerFieldFill = 51%nat.
Proof.
  split; [|reflexivity]. rewrite answerFieldFill_length.
  destruct (decide (length text <= 51)%nat) as [Hle|Hgt].
  - rewrite fillAnswerField_short by done.
    rewrite length_app, length_drop, answerFieldFill_length. lia.
  - rewrite fillAnswerField_long by lia.
    rewrite length_app, length_take.
    change (length (str "...")) with 3%nat. lia.
Qed.

(** X2.  What [fillAnswerField] keeps of the text.  The first 48 code
    units always open the result.  The whole text opens it exactly when the
    text has at most 51 code units; a longer text is cut after its 48th
    unit and closed by three full stops, so a text of 52 units loses its
    last four. *)
Theorem fillAnswerField_shows (text : jsString) :
  take 48 text `prefix_of` fillAnswerField text /\
  (text `prefix_of` fillAnswerField text <-> (length text <= 51)%nat) /\
  ((51 < length text)%nat ->
   fillAnswerField text = take 48 text ++ str "...").
Proof.
  split; [|split].
  - destruct (decide (length text <= 51)%nat) as [Hle|Hgt].
    + rewrite fillAnswerField_short by done.
      etrans; [apply prefix_take | by apply prefix_app_r].
    + rewrite fillAnswerField_long by lia. by apply prefix_app_r.
  - split.
    + intros Hpre. destruct (decide (length text <= 51)%nat); [done|].
      exfalso. rewrite fillAnswerField_long in Hpre by lia.
      apply prefix_length in Hpre.
      rewrite length_app, length_take in Hpre.
      change (length (str "...")) with 3%nat in Hpre. lia.
    + intros Hle. rewrite fillAnswerField_short by done. by apply prefix_app_r.
  - apply fillAnswerField_long.
Qed.

(** ** Folding a text *)

Lemma removeDiacritics_app s1 s2 :
  removeDiacritics (s1 ++ s2) = removeDiacritics s1 ++ removeDiacritics s2.
Proof.
  unfold removeDiacritics, normalizeNFKD.
  by rewrite !map_app, concat_app, filter_app.
Qed.

Lemma removeDiacritics_basic c :
  (c < 128)%N ->
  removeDiacritics [c] = if keptUnit c then [c] else [].
Proof.
  intros Hc. unfold removeDiacritics, normalizeNFKD. simpl map.
  destruct (N.eqb_spec c 322); [lia|].
  unfold decomposeUnit.
  repeat match goal with
         | |- context [(c =? ?k)%N] => destruct (N.eqb_spec c k); [lia|]
         end.
  simpl. destruct (keptUnit c) eqn:Hk.
  - by rewrite filter_cons_True, filter_nil.
  - rewrite filter_cons_False, filter_nil; [done|]. by rewrite Hk.
Qed.

(** A unit of the Polish alphabet is dropped or folded to one unit of
    Basic Latin that folding leaves alone. *)
Lemma removeDiacritics_unit c :
  polishUnit c = true ->
  removeDiacritics [c] = [] \/
  exists b, removeDiacritics [c] = [b] /\ (b < 128)%N /\
            removeDiacritics [b] = [b].
Proof.
  unfold polishUnit. intros [Hc|Hc]%orb_true_iff.
  - apply N.ltb_lt in Hc. rewrite removeDiacritics_basic by done.
    destruct (keptUnit c) eqn:Hk; [right | by left].
    exists c. split; [done|]. split; [done|].
    by rewrite removeDiacritics_basic, Hk.
  - simpl in Hc.
    repeat match type of Hc with
           | (_ || _) = true => apply orb_true_iff in Hc as [Hc|Hc]
           | (c =? _)%N = true => apply N.eqb_eq in Hc; subst c
           end;
      try discriminate;
      first [ by left
            | right; eexists; split; [vm_compute; reflexivity|];
              split; [done | vm_compute; reflexivity] ].
Qed.

(** X3.  On a text of the Polish alphabet [removeDiacritics] is
    idempotent: its result is made of Basic Latin units of the class
    [[\w\s.-_\/]], is no longer than the text, and is left as it is by a
    second pass. *)
Theorem removeDiacritics_idempotent (s : jsString) :
  polishText s ->
  removeDiacritics (removeDiacritics s) = removeDiacritics s /\
  Forall (fun c => (c < 128)%N /\ keptUnit c = true) (removeDiacritics s) /\
  (length (removeDiacritics s) <= length s)%nat.
Proof.
  intros Hs.
  assert (Forall (fun c => keptUnit c = true) (removeDiacritics s)) as Hkept.
  { rewrite Forall_forall. intros c Hc. unfold removeDiacritics in Hc.
    by apply list_elem_of_filter in Hc as [? _]. }
  assert (removeDiacritics (removeDiacritics s) = removeDiacritics s /\
          Forall (fun c => (c < 128)%N) (removeDiacritics s) /\
          (length (removeDiacritics s) <= length s)%nat) as (H1 & H2 & H3).
  { clear Hkept. induction Hs as [|c s Hc _ (IH1 & IH2 & IH3)];
      [by repeat split|].
    change (c :: s) with ([c] ++ s).
    rewrite !removeDiacritics_app, !length_app, IH1.
    destruct (removeDiacritics_unit c Hc) as [->|(b & -> & Hb & Hbb)].
    - simpl. split; [done|]. split; [done | lia].
    - rewrite Hbb. simpl. split; [done|]. split; [by constructor | lia]. }
  split; [done|]. split; [|done].
  rewrite Forall_forall in H2, Hkept |- *. intros c Hc.
  split; [by apply H2 | by apply Hkept].
Qed.

(** X3 on "Lodz" in Polish spelling: the capital L with stroke is
    dropped, the two letters with an acute lose it. *)
Lemma removeDiacritics_idempotent_witness :
  polishText lodz /\
  removeDiacritics lodz = str "odz" /\
  removeDiacritics (removeDiacritics lodz) = removeDiacritics lodz.
Proof.
  assert (polishText lodz) as H by (repeat constructor).
  split; [exact H|]. split; [reflexivity|].
  exact (proj1 (removeDiacritics_idempotent lodz H)).
Defined.

(** X4.  A stored answer whose lower-cased text holds a code unit outside
    the class [[\w\s.-_\/]] -- a hyphen, an apostrophe, a letter with its
    diacritic -- is matched by no guess: [removeDiacritics] never returns
    such a unit, and [resolvePlayerAnswer] compares its result with the
    lower-cased text for equality.  The property is stated on texts of the
    Polish alphabet, where [toLowerCase] is exact. *)
Theorem answer_outside_class_is_never_matched (g : Game) (a : Answer) :
  polishText (ans a) ->
  Exists (fun c => keptUnit c = false) (toLowerCase (ans a)) ->
  forall guess,
    ~ matches a guess /\
    result_answer (Game_resolvePlayerAnswer guess g) <> Some a.
Proof.
  intros _ Hex guess.
  assert (~ matches a guess) as Hno.
  { unfold matches. intros Hm. rewrite Hm in Hex.
    apply Exists_exists in Hex as (c & Hc & Hk).
    unfold removeDiacritics in Hc.
    apply list_elem_of_filter in Hc as [Hkept _]. congruence. }
  split; [done|]. intros Hres.
  by apply resolvePlayerAnswer_matches in Hres as [_ Hm].
Qed.

(** X4 on "coca-cola": the guess loses its hyphen, the stored text keeps
    it. *)
Lemma answer_outside_class_is_never_matched_witness :
  polishText (ans cocaCola) /\
  Exists (fun c => keptUnit c = false) (toLowerCase (ans cocaCola)) /\
  ~ matches cocaCola (str "coca-cola") /\
  removeDiacritics (str "coca-cola") = str "cocacola".
Proof.
  assert (polishText (ans cocaCola)) as H1 by (repeat constructor).
  assert (Exists (fun c => keptUnit c = false) (toLowerCase (ans cocaCola)))
    as H2.
  { apply Exists_exists. exists 45%N. split; [|reflexivity].
    vm_compute. do 4 right. left. }
  split; [exact H1|]. split; [exact H2|]. split; [|reflexivity].
  exact (proj1 (answer_outside_class_is_never_matched animalsGame cocaCola
                  H1 H2 (str "coca-cola"))).
Defined.

(** ** Indicators and rows of the board *)

Lemma lit_indicators (l : list jsString) (errorCnt : Z) :
  let lit := Z.to_nat (Z.min errorCnt (Z.of_nat (length l))) in
  imap (fun i _ => if Z.of_nat i <? errorCnt
                   then str "fail active" else str "fail") l
  = replicate lit (str "fail active") ++ replicate (length l - lit) (str "fail").
Proof.
  intros lit. apply list_eq. intros i. rewrite list_lookup_imap.
  destruct (l !! i) as [c|] eqn:Hi; simpl.
  - apply lookup_lt_Some in Hi.
    destruct (Z.ltb_spec (Z.of_nat i) errorCnt).
    + rewrite lookup_app_l by (rewrite length_replicate; lia).
      symmetry. apply lookup_replicate_2. lia.
    + rewrite lookup_app_r by (rewrite length_replicate; lia).
      symmetry. apply lookup_replicate_2. rewrite length_replicate. lia.
  - apply lookup_ge_None in Hi. symmetry. apply lookup_ge_None.
    rewrite length_app, !length_replicate. lia.
Qed.

(** X5.  On a panel that has indicators, [board.setErrors] lights the
    first [errorCnt] of them and puts the others out, whatever they showed
    before: a count above the number of indicators lights them all, a count
    of zero or less none.  (On a panel without indicators it throws: the
    model returns [None].) *)
Theorem setErrors_lights_the_first (errorIndicators : list jsString)
    (errorCnt : Z) :
  errorIndicators <> [] ->
  let lit := Z.to_nat (Z.min errorCnt (Z.of_nat (length errorIndicators))) in
  setErrors errorIndicators errorCnt
  = Some (replicate lit (str "fail active")
          ++ replicate (length errorIndicators - lit) (str "fail")) /\
  setErrors [] errorCnt = None.
Proof.
  intros Hne lit. split; [|done]. unfold setErrors.
  rewrite lit_indicators. by destruct errorIndicators.
Qed.

(** X5 on three indicators and five errors. *)
Lemma setErrors_lights_the_first_witness :
  [str "fail"; str "fail active"; str "fail"] <> [] /\
  setErrors [str "fail"; str "fail active"; str "fail"] 5
  = Some [str "fail active"; str "fail active"; str "fail active"].
Proof.
  assert ([str "fail"; str "fail active"; str "fail"] <> []) as H
    by discriminate.
  split; [exact H|].
  exact (proj1 (setErrors_lights_the_first _ 5 H)).
Defined.

Lemma insert_existing {A} (rows : list A) i v :
  match rows !! i with None => rows | Some _ => <[i := v]> rows end
  = <[i := v]> rows.
Proof.
  destruct (rows !! i) eqn:Hi; [done|].
  symmetry. apply list_insert_ge. by apply lookup_ge_None.
Qed.

(** X6.  [board.manageAnswerFields] row by row: among the first six rows
    the page has, row [k] (counted from 0) is shown when [k] is below the
    number of answers and hidden otherwise; the rows from the seventh on
    keep their display, so a question of more than six answers shows six
    rows. *)
Theorem manageAnswerFields_shows_six (answerLength : Z)
    (rowFields : list jsString) (k : nat) :
  manageAnswerFields answerLength rowFields !! k
  = (fun display =>
       if decide (k < 6)%nat
       then if decide (Z.of_nat k < answerLength)
            then str "block" else str "none"
       else display) <$> rowFields !! k.
Proof.
  unfold manageAnswerFields. cbn [foldl]. rewrite !insert_existing.
  rewrite !list_lookup_insert. rewrite !length_insert.
  destruct (rowFields !! k) as [d|] eqn:Hk.
  - apply lookup_lt_Some in Hk.
    do 6 (destruct k as [|k];
          [simpl; repeat case_decide; repeat case_match; try lia; try done|]).
    simpl. repeat case_decide; try lia; done.
  - apply lookup_ge_None in Hk. simpl.
    repeat case_decide; try lia; done.
Qed.

(** ** The store in use *)

Lemma getQuestions_app k1 k2 s :
  getQuestions (k1 + k2) s
  = let '(l1, s1) := getQuestions k1 s in
    let '(l2, s2) := getQuestions k2 s1 in
    (l1 ++ l2, s2).
Proof.
  revert s. induction k1 as [|k1 IH]; intros s; simpl.
  - by destruct (getQuestions k2 s).
  - destruct (QuestionStore_getNextQuestion s) as [q s1]. rewrite IH.
    destruct (getQuestions k1 s1) as [l1 s1'].
    by destruct (getQuestions k2 s1') as [l2 s2].
Qed.

(** Calls that do not pass the end of the array return the questions from
    the cursor on. *)
Lemma getQuestions_run rnd qs (c k : nat) :
  (c + k <= length qs)%nat -> (c < length qs)%nat ->
  getQuestions k (mkStore rnd qs (Z.of_nat c))
  = (Some <$> take k (drop c qs),
     mkStore rnd qs (Z.of_nat ((c + k) mod length qs))).
Proof.
  revert c. induction k as [|k IH]; intros c Hck Hlen.
  - simpl. rewrite Nat.add_0_r, Nat.mod_small by lia. done.
  - cbn [getQuestions]. unfold QuestionStore_getNextQuestion, questionAt.
    cbn [store_questions store_currentQuestionIndex store_random].
    destruct (Z.eqb_spec (Z.of_nat (length qs)) 0); [lia|].
    destruct (Z.ltb_spec (Z.of_nat c) 0); [lia|].
    rewrite Nat2Z.id.
    destruct (qs !! c) as [q|] eqn:Hq;
      [|apply lookup_ge_None in Hq; lia].
    rewrite Z.rem_mod_nonneg by lia.
    destruct (decide (c + 1 = length qs)%nat) as [Heq|Hne].
    + assert (k = 0)%nat as -> by lia.
      replace (Z.of_nat c + 1) with (Z.of_nat (length qs)) by lia.
      rewrite Z_mod_same_full. simpl.
      rewrite Heq, Nat.Div0.mod_same.
      rewrite (drop_S _ _ _ Hq). done.
    + rewrite Z.mod_small by lia.
      replace (Z.of_nat c + 1) with (Z.of_nat (c + 1)) by lia.
      rewrite IH by lia.
      rewrite (drop_S _ _ _ Hq). simpl.
      replace (c + 1 + k)%nat with (c + S k)%nat by lia.
      replace (S c) with (c + 1)%nat by lia. done.
Qed.

(** X7.  The store hands its questions out in turn and wraps around: from
    a cursor on one of its questions, as many calls of [getQuestion] as the
    store has questions return every question once -- those from the cursor
    to the end, then those from the start to the cursor -- and leave the
    store as it was. *)
Theorem getQuestion_goes_round (s : QuestionStore) :
  0 <= store_currentQuestionIndex s
    < Z.of_nat (length (store_questions s)) ->
  let c := Z.to_nat (store_currentQuestionIndex s) in
  getQuestions (length (store_questions s)) s
  = (Some <$> (drop c (store_questions s) ++ take c (store_questions s)), s).
Proof.
  destruct s as [rnd qs ci]. simpl. intros Hc.
  set (c := Z.to_nat ci). replace ci with (Z.of_nat c) by lia.
  replace (length qs) with ((length qs - c) + c)%nat at 1 by lia.
  rewrite getQuestions_app, getQuestions_run by lia.
  replace (c + (length qs - c))%nat with (length qs) by lia.
  rewrite Nat.Div0.mod_same.
  rewrite (getQuestions_run rnd qs 0 c) by lia.
  rewrite Nat.add_0_l, Nat.mod_small by lia.
  rewrite drop_0, fmap_app. f_equal. f_equal.
  rewrite take_ge; [done|]. rewrite length_drop. lia.
Qed.

(** X7 on the sample store with the cursor on its second question. *)
Lemma getQuestion_goes_round_witness :
  getQuestions 2 (mkStore false (store_questions sampleStore) 1)
  = (Some <$> (drop 1 (store_questions sampleStore)
               ++ take 1 (store_questions sampleStore)),
     mkStore false (store_questions sampleStore) 1).
Proof.
  apply (getQuestion_goes_round
           (mkStore false (store_questions sampleStore) 1)).
  simpl. lia.
Defined.

(** X8.  On a store that has questions [setCurrentQuestionIndex] accepts
    any integer and leaves the cursor at its residue modulo the number of
    questions, between 0 and that number: a negative index counts from the
    end.  The next [getQuestion] returns the question at that residue. *)
Theorem setCurrentQuestionIndex_wraps (s : QuestionStore) (index : Z) :
  (0 < length (store_questions s))%nat ->
  let n := Z.of_nat (length (store_questions s)) in
  let s' := QuestionStore_setCurrentQuestionIndex index s in
  s' = mkStore (store_random s) (store_questions s) (index mod n) /\
  0 <= index mod n < n /\
  (QuestionStore_getNextQuestion s').1
  = store_questions s !! Z.to_nat (index mod n) /\
  is_Some ((QuestionStore_getNextQuestion s').1).
Proof.
  intros Hlen n s'.
  assert (0 < n) as Hn by lia.
  assert (0 <= index mod n < n) as Hb by (apply Z.mod_pos_bound; lia).
  assert (s' = mkStore (store_random s) (store_questions s) (index mod n))
    as Hs'.
  { unfold s', QuestionStore_setCurrentQuestionIndex. fold n.
    destruct (Z.eqb_spec n 0); [lia|]. f_equal.
    pose proof (Z.rem_bound_abs index n ltac:(lia)).
    pose proof (Z.quot_rem' index n) as Hqr.
    rewrite Z.rem_mod_nonneg by lia.
    rewrite <-(Z.mul_1_l n) at 2. rewrite Z.mod_add by lia.
    assert (index mod n = (Z.rem index n + (index ÷ n) * n) mod n) as ->
      by (f_equal; lia).
    by rewrite Z.mod_add by lia. }
  split; [done|]. split; [done|]. rewrite Hs'.
  unfold QuestionStore_getNextQuestion, questionAt. simpl. fold n.
  destruct (Z.eqb_spec n 0); [lia|]. simpl.
  destruct (Z.ltb_spec (index mod n) 0); [lia|].
  split; [done|]. apply lookup_lt_is_Some. lia.
Qed.

(** X8 on the sample store: the index -1 is its last question. *)
Lemma setCurrentQuestionIndex_wraps_witness :
  QuestionStore_setCurrentQuestionIndex (-1) sampleStore
  = mkStore false (store_questions sampleStore) 1.
Proof.
  apply (setCurrentQuestionIndex_wraps sampleStore (-1)). simpl. lia.
Defined.

Lemma swap_length {A} (l : list A) i j : length (swap l i j) = length l.
Proof.
  unfold swap. destruct (l !! i), (l !! j); try done.
  by rewrite !length_insert.
Qed.

Lemma swap_app {A} (l1 l2 : list A) i j :
  (i < length l1)%nat -> (j < length l1)%nat ->
  swap (l1 ++ l2) i j = swap l1 i j ++ l2.
Proof.
  intros Hi Hj. unfold swap. rewrite !lookup_app_l by done.
  destruct (l1 !! i) as [a|] eqn:Ha; [|apply lookup_ge_None in Ha; lia].
  destruct (l1 !! j) as [b|] eqn:Hb; [|apply lookup_ge_None in Hb; lia].
  rewrite (insert_app_l l1) by done.
  by rewrite insert_app_l by (by rewrite length_insert).
Qed.

(** The passes of the loop from position [i] down only touch the slots up
    to [i]. *)
Lemma shuffleFrom_app {A} rand i (l1 l2 : list A) :
  (i < length l1)%nat ->
  shuffleFrom rand i (l1 ++ l2) = shuffleFrom rand i l1 ++ l2.
Proof.
  revert l1. induction i as [|i IH]; intros l1 Hi; simpl; [done|].
  assert (rand (S i) mod (S i + 1) < S i + 1)%nat
    by (apply Nat.mod_upper_bound; lia).
  rewrite swap_app by lia. apply IH. rewrite swap_length. lia.
Qed.

Lemma shuffleFrom_ext {A} rand rand' i (l : list A) :
  (forall p, (p <= i)%nat -> rand p = rand' p) ->
  shuffleFrom rand i l = shuffleFrom rand' i l.
Proof.
  revert l. induction i as [|i IH]; intros l Hr; simpl; [done|].
  rewrite (Hr (S i)) by lia. apply IH. intros p Hp. apply Hr. lia.
Qed.

(** The draw at the last position puts any chosen element there. *)
Lemma swap_last {A} (l : list A) i j y :
  length l = S i -> l !! j = Some y ->
  swap l i j = take i (swap l i j) ++ [y].
Proof.
  intros Hlen Hj.
  assert ((swap l i j) !! i = Some y) as Hi.
  { unfold swap. destruct (l !! i) as [x|] eqn:Hx;
      [|apply lookup_ge_None in Hx; lia].
    rewrite Hj. destruct (decide (j = i)) as [->|Hne].
    - simplify_eq. apply list_lookup_insert_eq. rewrite length_insert. lia.
    - rewrite list_lookup_insert_ne by done.
      apply list_lookup_insert_eq. lia. }
  rewrite <-(take_S_r _ _ _ Hi). symmetry. apply take_ge.
  rewrite swap_length. lia.
Qed.

Lemma shuffleFrom_reaches {A} (n : nat) :
  forall l l' : list A, length l = n -> l' ≡ₚ l ->
  exists rand, shuffleFrom rand (n - 1) l = l'.
Proof.
  induction n as [|[|m] IH]; intros l l' Hlen Hperm.
  - destruct l; [|done]. apply Permutation_nil_r in Hperm as ->.
    by exists (fun _ => O).
  - destruct l as [|x [|? ?]]; try done.
    symmetry in Hperm. apply Permutation_singleton_l in Hperm as <-.
    by exists (fun _ => O).
  - assert (length l' = S (S m)) as Hlen'
      by (by rewrite (Permutation_length Hperm)).
    destruct (decide (l' = [])) as [->|Hne]; [done|].
    destruct (exists_last Hne) as (l'' & y & ->).
    assert (y ∈ l) as Hy.
    { rewrite <-Hperm. apply elem_of_app. right. by left. }
    apply list_elem_of_lookup in Hy as [j Hj].
    pose proof (lookup_lt_Some _ _ _ Hj) as Hjlt.
    pose proof (swap_last l (S m) j y Hlen Hj) as Hsw.
    set (m' := take (S m) (swap l (S m) j)) in Hsw.
    assert (m' ≡ₚ l'') as Hm'.
    { apply (Permutation_app_inv_r [y]).
      rewrite <-Hsw, swap_Permutation. done. }
    assert (length m' = S m) as Hlm.
    { unfold m'. rewrite length_take, swap_length. lia. }
    destruct (IH m' l'' Hlm ltac:(done)) as [rand' Hrand'].
    exists (fun p => if decide (p = S m) then j else rand' p).
    replace (S (S m) - 1)%nat with (S m) by lia.
    cbn [shuffleFrom]. rewrite decide_True by done.
    rewrite Nat.mod_small by lia. rewrite Hsw.
    rewrite shuffleFrom_app by lia.
    rewrite (shuffleFrom_ext _ rand').
    + replace (S m - 1)%nat with m in Hrand' by lia. by rewrite Hrand'.
    + intros p Hp. by rewrite decide_False by lia.
Qed.

(** X9.  [shuffleQuestions] can return every ordering of the questions
    and nothing else: an array is the result of the shuffle for some draws
    exactly when it is a permutation of the questions. *)
Theorem shuffleQuestions_reaches_every_order
    (questions order : list Question) :
  (exists rand, QuestionStore_shuffleQuestions rand questions = order)
  <-> order ≡ₚ questions.
Proof.
  split.
  - intros [rand <-]. apply shuffleFrom_Permutation.
  - intros Hperm. by apply shuffleFrom_reaches.
Qed.

(** ** The constructor of the game *)


(** ** Runs of events *)

Lemma sample_goodStart : goodStart sampleTeams sampleStore.
Proof.
  split.
  - vm_compute. lia.
  - by_compute.
  - by_compute.
  - vm_compute. split; [discriminate | reflexivity].
  - unfold nonnegAnswers. by_compute.
Qed.


Lemma sampleGame_twoTeams : twoTeams sampleGame.
Proof. split; [vm_compute; reflexivity | by_compute | by_compute]. Qed.



(** X12.  No sequence of events changes the names of the teams, their
    number or their order, nor the questions of the store or its order
    flag: rounds, undos and awards only rewrite counters, the round and the
    cursor. *)
Theorem run_keeps_names_and_questions (g g' : Game) (l : list Action) :
  run l g = Some g' ->
  team_name <$> game_teams g' = team_name <$> game_teams g /\
  store_questions (game_questionsStore g')
  = store_questions (game_questionsStore g) /\
  store_random (game_questionsStore g')
  = store_random (game_questionsStore g).
Proof.
  assert (shape g' = shape g ->
          team_name <$> game_teams g' = team_name <$> game_teams g /\
          store_questions (game_questionsStore g')
          = store_questions (game_questionsStore g) /\
          store_random (game_questionsStore g')
          = store_random (game_questionsStore g)) as Hsh.
  { unfold shape. intros ?; by simplify_eq. }
  intros Hrun. apply Hsh. clear Hsh.
  revert g Hrun. induction l as [|a l IH]; intros g Hrun; simpl in Hrun.
  - by simplify_eq.
  - unfold stateAfter, exec in Hrun.
    destruct (step a g) as [[[[] g1] l1]|] eqn:Hstep; simplify_eq/=.
    rewrite (IH _ Hrun). by apply step_shape in Hstep.
Qed.

(** X12 on the four rounds of the sample run. *)
Lemma run_keeps_names_and_questions_witness :
  run fourRounds sampleGame = Some (after fourRounds sampleGame) /\
  team_name <$> game_teams (after fourRounds sampleGame)
  = [str "blue"; str "red"].
Proof.
  assert (run fourRounds sampleGame = Some (after fourRounds sampleGame))
    as H by (vm_compute; reflexivity).
  split; [exact H|].
  exact (proj1 (run_keeps_names_and_questions _ _ _ H)).
Defined.

Lemma advance_not_pending r g :
  game_pendingNextRound g = false ->
  Game_advanceToNextRound r g = Some (false, g, []).
Proof. intros Hp. unfold Game_advanceToNextRound. run_op. by rewrite Hp. Qed.

Lemma reveal_without_rank n g :
  findByNumber n g = None ->
  Game_revealAnswerByNumber n g = Some (false, g, []).
Proof. intros Hf. unfold Game_revealAnswerByNumber. run_op. by rewrite Hf. Qed.

Lemma addError_without_team g :
  Game_getCurrentTeam g = None ->
  Game_addErrorForSelectedTeam g = Some (false, g, []).
Proof.
  intros Hf. unfold Game_addErrorForSelectedTeam. run_op. by rewrite Hf.
Qed.

(** X13.  An event other than an undo does one of two things.  Either it
    pushes exactly one snapshot, taken of the game as the event found it,
    on the stack it found; or it is dropped -- a number the question does
    not have, a manual error with no team selected, an advance when no
    round is pending -- and then the game is left exactly as it was and the
    board is asked for nothing. *)
Theorem event_pushes_or_is_dropped (a : Action) (g g' : Game)
    (log : list Effect) :
  a <> Undo ->
  exec (step a) g = Some (g', log) ->
  if pushes a g
  then game_undoStack g' = Game_snapshot g :: game_undoStack g
  else g' = g /\ log = [].
Proof.
  intros Ha Hexec. destruct (pushes a g) eqn:Hpush.
  - apply (pushes_snapshot a); [done|]. unfold stateAfter. by rewrite Hexec.
  - unfold exec in Hexec. destruct a; simpl in *; try done.
    + apply bool_decide_eq_false in Hpush.
      unfold ignore, bind in Hexec.
      rewrite reveal_without_rank in Hexec; [by simplify_eq/=|].
      destruct (findByNumber number g); [|done].
      exfalso. apply Hpush. by eexists.
    + apply bool_decide_eq_false in Hpush.
      unfold ignore, bind in Hexec.
      rewrite addError_without_team in Hexec; [by simplify_eq/=|].
      destruct (Game_getCurrentTeam g); [|done].
      exfalso. apply Hpush. by eexists.
    + unfold ignore, bind in Hexec.
      rewrite advance_not_pending in Hexec by done. by simplify_eq/=.
Qed.

(** X13 on the sample game: the number 7 is dropped, a guess that matches
    nothing pushes its snapshot. *)
Lemma event_pushes_or_is_dropped_witness :
  RevealAnswerByNumber 7 <> Undo /\
  exec (step (RevealAnswerByNumber 7)) sampleGame = Some (sampleGame, []) /\
  pushes (RevealAnswerByNumber 7) sampleGame = false /\
  HandlePlayerAnswer (str "chomik") <> Undo /\
  exists g' log,
    exec (step (HandlePlayerAnswer (str "chomik"))) sampleGame
    = Some (g', log) /\
    game_undoStack g'
    = Game_snapshot sampleGame :: game_undoStack sampleGame.
Proof.
  assert (RevealAnswerByNumber 7 <> Undo) as H1 by discriminate.
  assert (exec (step (RevealAnswerByNumber 7)) sampleGame
          = Some (sampleGame, [])) as H2 by (vm_compute; reflexivity).
  assert (HandlePlayerAnswer (str "chomik") <> Undo) as H3 by discriminate.
  split; [exact H1|]. split; [exact H2|]. split; [reflexivity|].
  split; [exact H3|].
  destruct (exec (step (HandlePlayerAnswer (str "chomik"))) sampleGame)
    as [[g' log]|] eqn:H4; [|vm_compute in H4; discriminate].
  exists g', log. split; [reflexivity|].
  exact (event_pushes_or_is_dropped _ _ _ _ H3 H4).
Defined.




(** The states recorded from an array of teams of distinct names, played
    back onto it: every counter comes back, brought up to zero when it was
    below. *)
Lemma restoreTeams_recorded (ts : list Team) i t :
  NoDup (team_name <$> ts) -> ts !! i = Some t ->
  restoreTeams (teamState <$> ts) ts !! i
  = Some (mkTeam (team_name t) (Z.max 0 (team_points t))
            (Z.max 0 (team_errors t))).
Proof.
  intros Hnd Hi.
  assert ((fun s => s.1.1) <$> (teamState <$> ts) = team_name <$> ts)
    as Hfst by (by rewrite <-list_fmap_compose).
  rewrite (restoreTeams_lookup _ _ _ _ Hnd ltac:(by rewrite Hfst) Hi).
  destruct (list_find _ _) as [[j s]|] eqn:Hfind.
  - apply list_find_Some in Hfind as (Hj & Hname & _).
    rewrite list_lookup_fmap in Hj.
    destruct (ts !! j) as [tj|] eqn:Htj; simplify_eq/=.
    assert (j = i) as ->.
    { apply (NoDup_lookup _ _ _ (team_name t) Hnd);
        rewrite list_lookup_fmap; [rewrite Htj | rewrite Hi]; simpl;
        congruence. }
    by simplify_eq.
  - exfalso. eapply list_find_None in Hfind. rewrite Forall_forall in Hfind.
    apply (Hfind (teamState t)); [|done].
    apply list_elem_of_fmap. exists t.
    split; [done | by eapply list_elem_of_lookup_2].
Qed.

(** X16.  [undo] restores the counters of a team through [setPoints] and
    [setErrors], which do not go below zero.  With teams of distinct names,
    a team selection followed by an undo leaves every team with its points
    and its errors, each brought up to 0 when it was negative: a game with
    a negative counter is not given back by undo. *)
Theorem undo_brings_counters_up_to_zero (g : Game) (i : nat) (t : Team)
    (teamName : jsString) :
  NoDup (team_name <$> game_teams g) ->
  game_teams g !! i = Some t ->
  exists g',
    run [SetCurrentTeam teamName; Undo] g = Some g' /\
    game_teams g' !! i
    = Some (mkTeam (team_name t) (Z.max 0 (team_points t))
              (Z.max 0 (team_errors t))) /\
    (team_points t < 0 \/ team_errors t < 0 -> g' <> g).
Proof.
  intros Hnd Hi.
  set (g1 := set_currentTeam teamName (pushed g)).
  assert (stateAfter (step (SetCurrentTeam teamName)) g = Some g1) as H1
    by reflexivity.
  destruct (undo_pops (Game_snapshot g) (game_undoStack g) g1 eq_refl)
    as [log Hundo].
  exists (restored (Game_snapshot g) (game_undoStack g) g1).
  assert (game_teams (restored (Game_snapshot g) (game_undoStack g) g1) !! i
          = Some (mkTeam (team_name t) (Z.max 0 (team_points t))
                    (Z.max 0 (team_errors t)))) as Hteam.
  { simpl. by apply restoreTeams_recorded. }
  split; [|split; [exact Hteam|]].
  - cbn [run]. rewrite H1. cbn [run].
    unfold stateAfter, exec, step, ignore, bind. by rewrite Hundo.
  - intros Hneg Heq. rewrite Heq, Hi in Hteam. simplify_eq.
    destruct t as [n p e]; simplify_eq/=. lia.
Qed.

(** X16 on the sample game with blue at -10 points: after the selection
    and the undo blue stands at 0. *)
Lemma undo_brings_counters_up_to_zero_witness :
  NoDup (team_name <$> game_teams inDebt) /\
  game_teams inDebt !! 0%nat = Some (mkTeam (str "blue") (-10) 0) /\
  exists g',
    run [SetCurrentTeam []; Undo] inDebt = Some g' /\
    game_teams g' !! 0%nat = Some (mkTeam (str "blue") 0 0) /\
    g' <> inDebt.
Proof.
  assert (NoDup (team_name <$> game_teams inDebt)) as H1 by by_compute.
  assert (game_teams inDebt !! 0%nat = Some (mkTeam (str "blue") (-10) 0))
    as H2 by reflexivity.
  split; [exact H1|]. split; [exact H2|].
  destruct (undo_brings_counters_up_to_zero inDebt 0 _ [] H1 H2)
    as (g' & Hrun & Hteam & Hne).
  exists g'. split; [exact Hrun|]. split; [exact Hteam|].
  apply Hne. left. simpl. lia.
Defined.

(** X17.  The guesses, the reveals by number, the manual errors and the
    team selections leave the round counter, the question of the round and
    the store with its cursor as they are, and the number of teams: only
    the start of a round and an undo change them. *)
Theorem events_of_a_round_keep_its_question (e : Action) (g g' : Game)
    (log : list Effect) :
  inRound e ->
  exec (step e) g = Some (g', log) ->
  game_roundCount g' = game_roundCount g /\
  round_question (game_round g') = round_question (game_round g) /\
  game_questionsStore g' = game_questionsStore g /\
  length (game_teams g') = length (game_teams g).
Proof.
  intros He Hexec. unfold exec in Hexec.
  destruct (step e g) as [[[[] g1] l]|] eqn:Hrun; simplify_eq.
  assert (keeps (same (fun g => (game_roundCount g,
                                  round_question (game_round g),
                                  game_questionsStore g,
                                  length (game_teams g)))) (step e)) as Hk.
  { destruct e; simpl in He; try done; simpl; unfold ignore;
      keeps_walk; unfold same; simpl; by rewrite ?length_alter. }
  apply Hk in Hrun. unfold same in Hrun. by simplify_eq.
Qed.

(** X17 on a manual error in the sample game. *)
Lemma events_of_a_round_keep_its_question_witness :
  inRound AddErrorForSelectedTeam /\
  exists g' log,
    exec (step AddErrorForSelectedTeam) sampleGame = Some (g', log) /\
    game_roundCount g' = 1 /\
    game_questionsStore g' = game_questionsStore sampleGame.
Proof.
  assert (inRound AddErrorForSelectedTeam) as H1 by exact I.
  split; [exact H1|].
  destruct (exec (step AddErrorForSelectedTeam) sampleGame)
    as [[g' log]|] eqn:H2; [|vm_compute in H2; discriminate].
  exists g', log. split; [reflexivity|].
  destruct (events_of_a_round_keep_its_question _ _ _ _ H1 H2)
    as (Hc & _ & Hs & _).
  split; [exact Hc | exact Hs].
Defined.

Lemma resetErrors_lookup (ts : list Team) i :
  map Team_resetErrors ts !! i = Team_resetErrors <$> ts !! i.
Proof.
  revert i. induction ts as [|t ts IH]; intros [|i]; simpl; done.
Qed.

(** X18.  [advanceToNextRound] on a pending round, with the question [q]
    under the cursor of the store and the team [t] in the drawn slot: it
    returns true; the snapshot of the game it found is pushed; the round
    counter goes up by one; every team keeps its points and has its errors
    reset; the round is new on [q] -- nothing revealed, no points, status
    DEFAULT; the cursor moves on by one, wrapping; no round is pending; [t]
    is active; and the board is asked to clear itself and to show the
    title, the rows and the active team. *)
Theorem advanceToNextRound_opens_the_next_round (g : Game) (r : nat)
    (q : Question) (t : Team) :
  game_pendingNextRound g = true ->
  questionAt (game_questionsStore g)
    (store_currentQuestionIndex (game_questionsStore g)) = Some q ->
  game_teams g !! r = Some t ->
  let store := game_questionsStore g in
  Game_advanceToNextRound r g
  = Some (true,
          mkGame (map Team_resetErrors (game_teams g))
            (mkStore (store_random store) (store_questions store)
               (Z.rem (store_currentQuestionIndex store + 1)
                  (Z.of_nat (length (store_questions store)))))
            (game_roundCount g + 1) false
            (Game_snapshot g :: game_undoStack g)
            (mkRound 0 DEFAULT 0 ∅ q) (team_name t),
          [board_clearBoard; board_setQuestion (question_name q);
           board_manageAnswerFields (length (question_answers q));
           board_setActiveTeam (team_name t)]).
Proof.
  intros Hp Hq Ht store.
  assert ((Z.of_nat (length (store_questions store)) =? 0) = false) as Hn.
  { apply Z.eqb_neq. unfold questionAt in Hq. fold store in Hq.
    destruct (_ <? 0); [done|]. apply lookup_lt_Some in Hq. lia. }
  unfold Game_advanceToNextRound. run_op. rewrite Hp.
  unfold Game_startNewRound, Game_pushUndoSnapshot, Game_resetTeamsErrors,
    Game_getQuestion. run_op.
  unfold QuestionStore_getNextQuestion. cbn [game_questionsStore set_roundCount
    set_teams set_pendingNextRound set_undoStack]. fold store.
  fold store in Hq. rewrite Hn, Hq. run_op. unfold newRoundOf, Round_new. run_op.
  unfold Game_setRandomTeam. run_op. cbn [game_teams set_round
    set_questionsStore set_roundCount set_teams].
  cbn [game_teams set_pendingNextRound set_undoStack].
  rewrite resetErrors_lookup, Ht. simpl.
  unfold Game_setCurrentTeam. run_op. reflexivity.
Qed.

(** X18 on the sample game after its first question is complete: round 2
    opens on the second question, red is drawn, blue keeps its 70 points. *)
Lemma advanceToNextRound_opens_the_next_round_witness :
  let g := after [RevealAnswerByNumber 1; RevealAnswerByNumber 2] sampleGame in
  let owoc := mkQuestion (str "Owoc")
                [ mkAnswer (str "jablko") 1 50; mkAnswer (str "gruszka") 2 25;
                  mkAnswer (str "sliwka") 3 10 ] in
  game_pendingNextRound g = true /\
  questionAt (game_questionsStore g)
    (store_currentQuestionIndex (game_questionsStore g)) = Some owoc /\
  game_teams g !! 1%nat = Some red0 /\
  exists g',
    stateAfter (Game_advanceToNextRound 1) g = Some g' /\
    game_roundCount g' = 2 /\
    round_question (game_round g') = owoc /\
    game_currentTeam g' = str "red" /\
    game_teams g' = [mkTeam (str "blue") 70 0; mkTeam (str "red") 0 0].
Proof.
  intros g owoc.
  assert (game_pendingNextRound g = true) as H1 by reflexivity.
  assert (questionAt (game_questionsStore g)
            (store_currentQuestionIndex (game_questionsStore g)) = Some owoc)
    as H2 by reflexivity.
  assert (game_teams g !! 1%nat = Some red0) as H3 by reflexivity.
  split; [exact H1|]. split; [exact H2|]. split; [exact H3|].
  pose proof (advanceToNextRound_opens_the_next_round g 1 owoc red0 H1 H2 H3)
    as Hrun.
  eexists. unfold stateAfter, exec. rewrite Hrun. simpl.
  split; [reflexivity|]. by repeat split.
Defined.

(** X19.  [switchCurrentTeam] in a game of two teams.  With a team active
    it selects the other one, and a second switch selects the first again:
    two switches in a row leave the game as it was.  With no team active --
    none selected, or a name that is not a team's -- it selects the team of
    slot 0.  It never pushes a snapshot. *)
Theorem switchCurrentTeam_toggles (g : Game) :
  twoTeams g ->
  (forall i t, activeAt g i t ->
     exists u, u ∈ game_teams g /\ team_name u <> team_name t /\
       Game_switchCurrentTeam g
       = Some (tt, set_currentTeam (team_name u) g,
               [board_setActiveTeam (team_name u)]) /\
       (Game_switchCurrentTeam ;; Game_switchCurrentTeam) g
       = Some (tt, g, [board_setActiveTeam (team_name u);
                       board_setActiveTeam (team_name t)])) /\
  (Game_getCurrentTeam g = None ->
     exists t0, game_teams g !! 0%nat = Some t0 /\
       Game_switchCurrentTeam g
       = Some (tt, set_currentTeam (team_name t0) g,
               [board_setActiveTeam (team_name t0)])).
Proof.
  intros Htwo. split.
  - intros i t Hact.
    destruct (twoTeams_other g i t Htwo Hact) as (j & u & Hj & Hij).
    pose proof Hact as [Hi Hname].
    pose proof (switchCurrentTeam_other g i t j u Htwo Hact Hj Hij) as Hsw.
    exists u. split; [by eapply list_elem_of_lookup_2|]. split.
    { intros Heq. apply Hij. destruct Htwo as [_ Hnd _].
      apply (NoDup_lookup _ _ _ (team_name t) Hnd);
        rewrite list_lookup_fmap; [rewrite Hi | rewrite Hj]; simpl; congruence. }
    split; [exact Hsw|].
    unfold bind. rewrite Hsw.
    rewrite (switchCurrentTeam_other (set_currentTeam (team_name u) g) j u i t).
    + simpl. rewrite Hname. by destruct g.
    + by destruct Htwo.
    + by split.
    + done.
    + done.
  - intros Hnone. destruct Htwo as [Hlen Hnd Htr].
    destruct (game_teams g) as [|t0 [|t1 [|? ?]]] eqn:Hts; simplify_eq/=.
    exists t0. split; [done|].
    unfold Game_switchCurrentTeam, bind, get. rewrite Hts.
    assert (team_name t0 <> game_currentTeam g) as Hne.
    { intros Heq. unfold Game_getCurrentTeam in Hnone. rewrite Hts in Hnone.
      apply Forall_cons in Htr as [Hn0 _].
      destruct (game_currentTeam g) as [|c cs] eqn:Hc; [done|].
      cbn [list_find] in Hnone.
      by rewrite decide_True in Hnone by done. }
    cbn [list_find]. by rewrite decide_True by done.
Qed.

(** X19 on the sample game, blue active. *)
Lemma switchCurrentTeam_toggles_witness :
  twoTeams sampleGame /\ activeAt sampleGame 0 blue0 /\
  (Game_switchCurrentTeam ;; Game_switchCurrentTeam) sampleGame
  = Some (tt, sampleGame,
          [board_setActiveTeam (str "red"); board_setActiveTeam (str "blue")]).
Proof.
  assert (activeAt sampleGame 0 blue0) as H2 by (split; reflexivity).
  split; [exact sampleGame_twoTeams|]. split; [exact H2|].
  destruct (proj1 (switchCurrentTeam_toggles sampleGame sampleGame_twoTeams)
              0%nat blue0 H2) as (u & _ & _ & Hsw & Htwice).
  rewrite Htwice. vm_compute in Hsw. by simplify_eq.
Defined.

(** ** Invariants of a session *)

Lemma errors_alter (P : Z -> Prop) (f : Team -> Team) i (ts : list Team) :
  Forall P (team_errors <$> ts) ->
  (forall t, ts !! i = Some t -> P (team_errors (f t))) ->
  Forall P (team_errors <$> alter f i ts).
Proof.
  intros Hts Hf. rewrite Forall_fmap in Hts |- *.
  apply Forall_lookup. intros k t Hk.
  rewrite list_lookup_alter in Hk. case_decide; simplify_eq.
  - destruct (ts !! k) as [t0|] eqn:H0; simplify_eq/=. by apply Hf.
  - rewrite Forall_lookup in Hts. by apply (Hts k).
Qed.

Lemma errorsInStep_snapshot g :
  belowThree (round_status (game_round g)) (team_errors <$> game_teams g) ->
  (fun x => x.1.1) <$> snap_teamState (Game_snapshot g)
  = team_name <$> game_teams g /\
  belowThree (snap_roundStatus (Game_snapshot g))
    ((fun x => x.2) <$> snap_teamState (Game_snapshot g)).
Proof.
  intros H. simpl. rewrite <-!list_fmap_compose. by split.
Qed.

Lemma errors_lookup (ts : list Team) i t :
  Forall (fun e => e < 3) (team_errors <$> ts) ->
  ts !! i = Some t -> team_errors t < 3.
Proof.
  rewrite Forall_fmap, Forall_lookup. intros H Hi. by apply (H i).
Qed.

Ltac errors_leaf Hlive Hstack :=
  unfold errorsInStep; simpl in *;
  split;
  [ intros Hd;
    repeat match goal with
           | H : decide _ = left ?e |- _ => clear H
           end;
    try congruence;
    repeat (apply errors_alter; [|intros ? ?; simpl]);
    try (by apply Hlive);
    try match goal with
        | Hk : game_teams _ !! ?i = Some ?t,
          Ha : alter Team_addError ?i _ !! ?i = Some ?t',
          Hn : (team_errors ?t' =? 3) = false
          |- team_errors ?t + 1 < 3 =>
            rewrite list_lookup_alter_eq, Hk in Ha; simplify_eq/=;
            pose proof (errors_lookup _ _ _ (Hlive Hd) Hk); lia
        | Hk : game_teams _ !! _ = Some ?t |- team_errors ?t < 3 =>
            exact (errors_lookup _ _ _ (Hlive Hd) Hk)
        end
  | rewrite ?alter_names, ?resetErrors_names by done;
    try assumption;
    try (apply Forall_cons; split;
         [by apply errorsInStep_snapshot | assumption]) ].

Lemma errors_reset (ts : list Team) :
  Forall (fun e => e < 3) (team_errors <$> map Team_resetErrors ts).
Proof. induction ts; simpl; constructor; [lia | done]. Qed.

(** Played back onto teams of the recorded names, the recorded errors come
    back, brought up to zero when they were below it. *)
Lemma restoreTeams_errors states ts :
  NoDup (team_name <$> ts) ->
  (fun x => x.1.1) <$> states = team_name <$> ts ->
  Forall (fun e => e < 3) ((fun x => x.2) <$> states) ->
  Forall (fun e => e < 3) (team_errors <$> restoreTeams states ts).
Proof.
  intros Hnd Hnames Hst. rewrite Forall_fmap. apply Forall_lookup.
  intros k t' Hk.
  assert (is_Some (ts !! k)) as [t Ht].
  { apply lookup_lt_is_Some. apply lookup_lt_Some in Hk.
    by rewrite <-(length_fmap team_name), restoreTeams_names, length_fmap
      in Hk. }
  rewrite (restoreTeams_lookup _ _ _ _ Hnd ltac:(by rewrite Hnames) Ht) in Hk.
  destruct (list_find _ states) as [[j s]|] eqn:Hfind; simplify_eq/=.
  - apply list_find_Some in Hfind as (Hj & _ & _).
    rewrite Forall_fmap, Forall_lookup in Hst. specialize (Hst j s Hj).
    simpl in Hst. lia.
  - exfalso. eapply list_find_None in Hfind. rewrite Forall_forall in Hfind.
    assert ((team_name <$> ts) !! k = Some (team_name t')) as Hn
      by (by rewrite list_lookup_fmap, Ht).
    rewrite <-Hnames, list_lookup_fmap in Hn.
    destruct (states !! k) as [s|] eqn:Hs; simplify_eq/=.
    apply (Hfind s); [by eapply list_elem_of_lookup_2 | done].
Qed.

Lemma step_errorsInStep a g g' :
  NoDup (team_name <$> game_teams g) ->
  errorsInStep g -> stateAfter (step a) g = Some g' -> errorsInStep g'.
Proof.
  intros Hnd [Hlive Hstack] Hstep. unfold stateAfter, exec in Hstep.
  destruct (step a g) as [[[[] g1] l]|] eqn:Hrun; simplify_eq/=.
  revert g' l Hrun. generalize tt.
  change (post (step a) g (fun _ g' _ => errorsInStep g')).
  destruct a; simpl; unfold ignore.
  - post_walk; errors_leaf Hlive Hstack.
  - post_walk; errors_leaf Hlive Hstack.
  - post_walk; errors_leaf Hlive Hstack.
  - post_walk; errors_leaf Hlive Hstack.
  - post_walk; errors_leaf Hlive Hstack. apply errors_reset.
  - intros [] g2 l2 Hrun. unfold bind in Hrun.
    destruct (game_undoStack g) as [|snapshot rest] eqn:Hst.
    + rewrite (undo_empty g Hst) in Hrun. cbv [ret] in Hrun. simplify_eq/=.
      split; [done|]. rewrite Hst. constructor.
    + destruct (undo_pops snapshot rest g Hst) as [log Hundo].
      rewrite Hundo in Hrun. cbv [ret] in Hrun. simplify_eq/=.
      apply Forall_cons in Hstack as [[Hnames Hsnap] Hrest].
      split; simpl.
      * intros Hd. apply restoreTeams_errors; [done..|]. by apply Hsnap.
      * by rewrite restoreTeams_names.
Qed.

Lemma new_game_errorsInStep teams store r g log :
  Forall (fun t => team_errors t < 3) teams ->
  Game_new teams store r = Some (g, log) ->
  errorsInStep g /\ team_name <$> game_teams g = team_name <$> teams.
Proof.
  intros Hts. unfold Game_new.
  destruct (QuestionStore_getNextQuestion store) as [[q|] s]; [|done].
  unfold bind, Round_new, emit, ret, Game_setRandomTeam, bind, get. simpl.
  destruct (teams !! r) as [t|] eqn:Hr; [|done]. simpl.
  intros ?; simplify_eq. split; [|done]. split; simpl; [|constructor].
  intros _. by rewrite Forall_fmap.
Qed.

(** X20.  In a session of teams with distinct names that start with fewer
    than three errors, no team has three errors while the status of the
    round is DEFAULT: the error that brings a team to three turns the round
    to STOLEN in the same call, a new round resets the errors, and an undo
    brings back a round for which this held. *)
Theorem no_third_error_before_the_steal teams store g :
  NoDup (team_name <$> teams) ->
  Forall (fun t => team_errors t < 3) teams ->
  session teams store g ->
  round_status (game_round g) = DEFAULT ->
  Forall (fun t => team_errors t < 3) (game_teams g).
Proof.
  intros Hnd Hts Hsession.
  assert (errorsInStep g /\ team_name <$> game_teams g = team_name <$> teams)
    as [[Hlive _] _];
    [|intros Hd; specialize (Hlive Hd); by rewrite Forall_fmap in Hlive].
  induction Hsession as [r g log Hnew|g a g' _ [IH Hn] Hstep].
  - by eapply new_game_errorsInStep.
  - split.
    + eapply step_errorsInStep; [|done..]. by rewrite Hn.
    + rewrite <-Hn. unfold stateAfter, exec in Hstep.
      destruct (step a g) as [[[[] g1] l]|] eqn:Hrun; simplify_eq/=.
      apply step_shape in Hrun. unfold same, shape in Hrun. by simplify_eq.
Qed.

(** X20 on the sample game after two errors of blue. *)
Lemma no_third_error_before_the_steal_witness :
  let g := after [AddErrorForSelectedTeam; AddErrorForSelectedTeam] sampleGame in
  round_status (game_round g) = DEFAULT /\
  team_errors <$> game_teams g = [2; 0] /\
  Forall (fun t => team_errors t < 3) (game_teams g).
Proof.
  intros g.
  assert (NoDup (team_name <$> sampleTeams)) as H1 by by_compute.
  assert (Forall (fun t => team_errors t < 3) sampleTeams) as H2
    by (repeat constructor).
  assert (session sampleTeams sampleStore g) as H3.
  { apply (session_step _ _ (after [AddErrorForSelectedTeam] sampleGame)
             AddErrorForSelectedTeam); [|vm_compute; reflexivity].
    apply (session_step _ _ sampleGame AddErrorForSelectedTeam);
      [exact sampleGame_session | vm_compute; reflexivity]. }
  assert (round_status (game_round g) = DEFAULT) as H4 by reflexivity.
  split; [exact H4|]. split; [reflexivity|].
  exact (no_third_error_before_the_steal sampleTeams sampleStore g H1 H2 H3 H4).
Defined.

Lemma noPointsLost_refl ts : noPointsLost ts ts.
Proof. apply Forall2_same_length_lookup. split; [done|]. intros i t t' H1 H2. simplify_eq. done. Qed.

Lemma noPointsLost_alter ts0 ts f i :
  (forall t, team_name (f t) = team_name t /\ team_points t <= team_points (f t)) ->
  noPointsLost ts0 ts -> noPointsLost ts0 (alter f i ts).
Proof.
  intros Hf H. unfold noPointsLost in *.
  apply Forall2_same_length_lookup in H as [Hlen H].
  apply Forall2_same_length_lookup. split; [by rewrite length_alter|].
  intros k t t' Hk Hk'.
  rewrite list_lookup_alter in Hk'. case_decide; simplify_eq.
  - destruct (ts !! k) as [t1|] eqn:H1; simplify_eq/=.
    destruct (H _ _ _ Hk H1) as [Hn Hp]. destruct (Hf t1) as [Hn' Hp'].
    split; [congruence | lia].
  - by apply (H k).
Qed.

Lemma noPointsLost_reset ts0 ts :
  noPointsLost ts0 ts -> noPointsLost ts0 (map Team_resetErrors ts).
Proof.
  unfold noPointsLost. induction 1; simpl; constructor; [|done]. done.
Qed.

Ltac points_leaf Hq :=
  repeat match goal with
         | H : result_answer (Game_resolvePlayerAnswer _ _) = Some _ |- _ =>
             apply resolvePlayerAnswer_elem in H; simpl in H
         | H : findByNumber _ _ = Some _ |- _ =>
             apply findByNumber_elem in H; simpl in H
         end;
  try match goal with
      | H : ?a ∈ question_answers _ |- _ =>
          pose proof (proj1 (Forall_forall _ _) Hq a H)
      end;
  simpl in *; nia.

Ltac teams_leaf Hq :=
  simpl;
  repeat (apply noPointsLost_alter;
          [intros ?; simpl; split; [done | points_leaf Hq]|]);
  try apply noPointsLost_reset;
  try apply noPointsLost_refl.

(** X21.  In a sound game -- well formed, with no negative point value
    in the questions and no negative points in the round, as every game of
    a session on such a dataset is -- no event other than an undo takes
    points away from a team: after the event every team has its name and at
    least the points it had. *)
Theorem forward_events_take_no_points (a : Action) (g g' : Game) :
  sound g -> a <> Undo ->
  stateAfter (step a) g = Some g' ->
  noPointsLost (game_teams g) (game_teams g').
Proof.
  intros Hs Ha Hstep. unfold stateAfter, exec in Hstep.
  destruct (step a g) as [[[[] g1] l]|] eqn:Hrun; simplify_eq/=.
  revert g' l Hrun. generalize tt.
  change (post (step a) g
            (fun _ g' _ => noPointsLost (game_teams g) (game_teams g'))).
  pose proof Hs as [[Hnd Hc Hcur] Hlen Hst Hq Hp Hstk].
  pose proof (multiplier_pos (game_roundCount g)) as Hm.
  unfold nonnegAnswers in Hq.
  destruct a; simpl; unfold ignore; try done.
  - post_walk; teams_leaf Hq.
  - post_walk; teams_leaf Hq.
  - post_walk; teams_leaf Hq.
  - post_walk; teams_leaf Hq.
  - post_walk; teams_leaf Hq.
Qed.

(** X21 on the first reveal of the sample game. *)
Lemma forward_events_take_no_points_witness :
  sound sampleGame /\ RevealAnswerByNumber 1 <> Undo /\
  exists g',
    stateAfter (step (RevealAnswerByNumber 1)) sampleGame = Some g' /\
    noPointsLost (game_teams sampleGame) (game_teams g').
Proof.
  assert (sound sampleGame) as H1
    by exact (session_sound _ _ _ sample_goodStart sampleGame_session).
  assert (RevealAnswerByNumber 1 <> Undo) as H2 by discriminate.
  split; [exact H1|]. split; [exact H2|].
  destruct (stateAfter (step (RevealAnswerByNumber 1)) sampleGame)
    as [g'|] eqn:H3; [|vm_compute in H3; discriminate].
  exists g'. split; [reflexivity|].
  exact (forward_events_take_no_points _ _ _ H1 H2 H3).
Defined.

Lemma worth_nonneg l : Forall (fun a => 0 <= points a) l -> 0 <= worth l.
Proof. induction 1; simpl; lia. Qed.

Lemma worth_hidden_mono (R R' : gset Z) l :
  R ⊆ R' -> Forall (fun a => 0 <= points a) l ->
  worth (filter (fun a => lp a ∉ R') l) <= worth (filter (fun a => lp a ∉ R) l).
Proof.
  intros Hsub. induction 1 as [|b l Hb _ IH]; [done|].
  destruct (decide (lp b ∈ R)) as [Hin|Hout].
  - rewrite !filter_cons_False; [done | by intros H; apply H
                                 | intros H; apply H; by apply Hsub].
  - rewrite (filter_cons_True (fun a => lp a ∉ R)) by done.
    destruct (decide (lp b ∈ R')).
    + rewrite filter_cons_False by (by intros H; apply H). simpl. lia.
    + rewrite filter_cons_True by done. simpl. lia.
Qed.

Lemma worth_hidden_reveal (R : gset Z) l a :
  Forall (fun a => 0 <= points a) l -> a ∈ l -> lp a ∉ R ->
  worth (filter (fun b => lp b ∉ {[ lp a ]} ∪ R) l) + points a
  <= worth (filter (fun b => lp b ∉ R) l).
Proof.
  intros Hl Ha Hout.
  induction Hl as [|b l Hb Hl IH]; [by apply elem_of_nil in Ha|].
  apply elem_of_cons in Ha as [->|Ha].
  - rewrite filter_cons_False
      by (intros H; apply H; apply elem_of_union; left;
          by apply elem_of_singleton).
    rewrite filter_cons_True by done. simpl.
    pose proof (worth_hidden_mono R ({[ lp b ]} ∪ R) l
                  (union_subseteq_r _ _) Hl).
    lia.
  - specialize (IH Ha).
    destruct (decide (lp b ∈ R)) as [Hin|Hout'].
    + rewrite !filter_cons_False;
        [done | by intros H; apply H
        | intros H; apply H; apply elem_of_union; by right].
    + rewrite (filter_cons_True (fun a => lp a ∉ R)) by done.
      destruct (decide (lp b = lp a)) as [Heq|Hne].
      * rewrite filter_cons_False
          by (intros H; apply H; apply elem_of_union; left;
              by apply elem_of_singleton).
        simpl. lia.
      * rewrite filter_cons_True
          by (intros [H|H]%elem_of_union; [by apply elem_of_singleton in H | done]).
        simpl. lia.
Qed.

Lemma withinOffer_reveal a (award : bool) pts (R : gset Z) q :
  nonnegAnswers q -> a ∈ question_answers q -> lp a ∉ R ->
  withinOffer pts R q ->
  withinOffer (if award then pts + points a else pts) ({[ lp a ]} ∪ R) q.
Proof.
  unfold withinOffer, hidden, nonnegAnswers. intros Hq Ha Hout H.
  pose proof (worth_hidden_reveal _ _ _ Hq Ha Hout).
  rewrite Forall_forall in Hq. specialize (Hq a Ha).
  destruct award; lia.
Qed.

Lemma withinOffer_fresh q : withinOffer 0 ∅ q.
Proof.
  unfold withinOffer, hidden.
  induction (question_answers q) as [|a l IH]; [done|].
  rewrite filter_cons_True by apply not_elem_of_empty. simpl. lia.
Qed.

Lemma withinOffer_snapshot g :
  withinOffer (round_points (game_round g)) (round_revealed (game_round g))
    (round_question (game_round g)) ->
  withinOffer (snap_roundPoints (Game_snapshot g))
    (list_to_set (snap_revealed (Game_snapshot g)))
    (snap_roundQuestion (Game_snapshot g)).
Proof. simpl. by rewrite list_to_set_elements_L. Qed.

Ltac offer_leaf Hq Hlive Hstack :=
  unfold roundWithinOffer; simpl in *;
  split;
  [ first
      [ assumption
      | apply withinOffer_fresh
      | first [ apply (withinOffer_reveal _ true)
              | apply (withinOffer_reveal _ false) ];
        [ exact Hq
        | first [ eapply findByNumber_elem; eassumption
                | eapply resolvePlayerAnswer_elem; eassumption ]
        | assumption
        | exact Hlive ] ]
  | first [ assumption
          | apply Forall_cons; split;
            [by apply withinOffer_snapshot | assumption] ] ].

Lemma step_roundWithinOffer a g g' :
  sound g -> roundWithinOffer g ->
  stateAfter (step a) g = Some g' -> roundWithinOffer g'.
Proof.
  intros Hs [Hlive Hstack] Hstep. unfold stateAfter, exec in Hstep.
  destruct (step a g) as [[[[] g1] l]|] eqn:Hrun; simplify_eq/=.
  revert g' l Hrun. generalize tt.
  change (post (step a) g (fun _ g' _ => roundWithinOffer g')).
  pose proof (sound_question g Hs) as Hq.
  destruct a; simpl; unfold ignore.
  - post_walk; offer_leaf Hq Hlive Hstack.
  - post_walk; offer_leaf Hq Hlive Hstack.
  - post_walk; offer_leaf Hq Hlive Hstack.
  - post_walk; offer_leaf Hq Hlive Hstack.
  - post_walk; offer_leaf Hq Hlive Hstack.
  - intros [] g2 l2 Hrun. unfold bind in Hrun.
    destruct (game_undoStack g) as [|snapshot rest] eqn:Hst.
    + rewrite (undo_empty g Hst) in Hrun. cbv [ret] in Hrun. simplify_eq/=.
      split; [done|]. rewrite Hst. constructor.
    + destruct (undo_pops snapshot rest g Hst) as [log Hundo].
      rewrite Hundo in Hrun. cbv [ret] in Hrun. simplify_eq/=.
      apply Forall_cons in Hstack as [Hsnap Hrest]. by split.
Qed.

Lemma new_game_roundWithinOffer teams store r g log :
  Game_new teams store r = Some (g, log) -> roundWithinOffer g.
Proof.
  unfold Game_new.
  destruct (QuestionStore_getNextQuestion store) as [[q|] s]; [|done].
  unfold bind, Round_new, emit, ret, Game_setRandomTeam, bind, get. simpl.
  destruct (teams !! r) as [t|] eqn:Hr; [|done]. simpl.
  intros ?; simplify_eq. split; simpl; [apply withinOffer_fresh | constructor].
Qed.

(** X22.  In a session that starts on a dataset without negative point
    values, the points of the round are never negative and never exceed the
    sum of the points of the answers of its question -- also when two
    answers share a rank, since a rank is credited once. *)
Theorem round_points_within_the_question teams store g :
  goodStart teams store -> session teams store g ->
  0 <= round_points (game_round g)
    <= worth (question_answers (round_question (game_round g))).
Proof.
  intros Hstart Hsession.
  assert (sound g /\ roundWithinOffer g) as [Hs [Hlive _]].
  { induction Hsession as [r g log Hnew|g a g' _ [IHs IH] Hstep].
    - split; [by eapply new_game_sound | by eapply new_game_roundWithinOffer].
    - split; [by eapply step_sound | by eapply step_roundWithinOffer]. }
  split; [by destruct Hs|].
  unfold withinOffer in Hlive.
  assert (0 <= worth (hidden (round_revealed (game_round g))
                        (round_question (game_round g)))); [|lia].
  apply worth_nonneg. unfold hidden.
  pose proof (sound_question g Hs) as Hq. unfold nonnegAnswers in Hq.
  rewrite Forall_forall in Hq |- *. intros a Ha.
  apply list_elem_of_filter in Ha as [_ Ha]. by apply Hq.
Qed.

(** X22 on the sample game after "kot" is revealed: 40 of the 70 points of
    the question. *)
Lemma round_points_within_the_question_witness :
  let g := after [RevealAnswerByNumber 1] sampleGame in
  goodStart sampleTeams sampleStore /\ session sampleTeams sampleStore g /\
  0 <= round_points (game_round g) <= 70 /\
  round_points (game_round g) = 40.
Proof.
  intros g.
  assert (session sampleTeams sampleStore g) as H2.
  { apply (session_step _ _ sampleGame (RevealAnswerByNumber 1));
      [exact sampleGame_session | vm_compute; reflexivity]. }
  split; [exact sample_goodStart|]. split; [exact H2|]. split; [|reflexivity].
  exact (round_points_within_the_question _ _ g sample_goodStart H2).
Defined.

Lemma size_ranks (l : list Z) : (size (list_to_set l : gset Z) <= length l)%nat.
Proof.
  induction l as [|x l IH].
  { change (list_to_set [] : gset Z) with (∅ : gset Z). by rewrite size_empty. }
  change (list_to_set (x :: l) : gset Z) with ({[ x ]} ∪ list_to_set l : gset Z).
  rewrite size_union_alt, size_singleton. simpl.
  pose proof (subseteq_size (list_to_set l ∖ {[x]}) (list_to_set l : gset Z)
                (subseteq_difference_l _ _ _ (reflexivity _))).
  lia.
Qed.

(** When the counter has reached the number of answers every rank of the
    question is on the board. *)
Lemma full_board r a :
  roundCounts r -> round_revealed r ⊆ ranks (round_question r) ->
  Z.of_nat (length (question_answers (round_question r))) = round_right r ->
  a ∈ question_answers (round_question r) ->
  lp a ∈ round_revealed r.
Proof.
  unfold roundCounts. intros Hc Hsub Hfull Ha.
  assert (round_revealed r = ranks (round_question r)) as ->.
  { apply set_subseteq_size_eq; [done|].
    pose proof (size_ranks (lp <$> question_answers (round_question r))) as Hs.
    rewrite length_fmap in Hs. unfold ranks. lia. }
  unfold ranks. apply elem_of_list_to_set, list_elem_of_fmap. by exists a.
Qed.

Lemma rank_of_answer a q : a ∈ question_answers q -> lp a ∈ ranks q.
Proof.
  intros Ha. unfold ranks. apply elem_of_list_to_set, list_elem_of_fmap.
  by exists a.
Qed.

Lemma snapshot_pendingWhenOver g :
  round_revealed (game_round g) ⊆ ranks (round_question (game_round g)) ->
  (game_pendingNextRound g = true ->
   over (round_question (game_round g)) (round_right (game_round g))
     (round_status (game_round g))) ->
  list_to_set (snap_revealed (Game_snapshot g))
    ⊆ ranks (snap_roundQuestion (Game_snapshot g)) /\
  (snap_pendingNextRound (Game_snapshot g) = true ->
   over (snap_roundQuestion (Game_snapshot g))
     (snap_roundRight (Game_snapshot g))
     (snap_roundStatus (Game_snapshot g))).
Proof. simpl. rewrite list_to_set_elements_L. by split. Qed.

Ltac answer_elem :=
  first [ eapply findByNumber_elem; eassumption
        | eapply resolvePlayerAnswer_elem; eassumption ].

Ltac over_leaf Hcount Hsub Hpend :=
  let Hp := fresh "Hp" in
  intros Hp; unfold over in *; simpl;
  first
    [ discriminate Hp
    | congruence
    | by apply Hpend
    | by right
    | match goal with
      | H : (_ || _) = true |- _ =>
          apply orb_true_iff in H as [H|H];
          [ left; unfold Round_checkFinish in H; simpl in H;
            by apply Z.eqb_eq in H
          | right; by apply bool_decide_eq_true in H ]
      | H : Round_checkFinish _ = true |- _ =>
          left; unfold Round_checkFinish in H; simpl in H;
          by apply Z.eqb_eq in H
      end
    | destruct (Hpend Hp) as [Hfull|Hst]; [|by right];
      exfalso;
      match goal with
      | Hn : lp ?a ∉ round_revealed (game_round ?g) |- _ =>
          apply Hn; apply full_board; [done | done | done | answer_elem]
      end ].

Ltac pending_leaf Hcount Hsub Hpend Hstack :=
  unfold pendingWhenOver; simpl in *;
  split;
  [ split;
    [ first [ assumption
            | apply union_least;
              [apply singleton_subseteq_l, rank_of_answer; answer_elem
              | assumption]
            | apply empty_subseteq ]
    | over_leaf Hcount Hsub Hpend ]
  | first [ assumption
          | apply Forall_cons; split;
            [ apply snapshot_pendingWhenOver;
              [assumption | intros ?; by apply Hpend]
            | assumption ] ] ].

Lemma step_pendingWhenOver a g g' :
  countsRevealed g -> pendingWhenOver g ->
  stateAfter (step a) g = Some g' -> pendingWhenOver g'.
Proof.
  intros [Hcount _] [[Hsub Hpend] Hstack] Hstep. unfold stateAfter, exec in Hstep.
  destruct (step a g) as [[[[] g1] l]|] eqn:Hrun; simplify_eq/=.
  revert g' l Hrun. generalize tt.
  change (post (step a) g (fun _ g' _ => pendingWhenOver g')).
  destruct a; simpl; unfold ignore.
  - post_walk; pending_leaf Hcount Hsub Hpend Hstack.
  - post_walk; pending_leaf Hcount Hsub Hpend Hstack.
  - post_walk; pending_leaf Hcount Hsub Hpend Hstack.
  - post_walk; pending_leaf Hcount Hsub Hpend Hstack.
  - post_walk; pending_leaf Hcount Hsub Hpend Hstack.
  - intros [] g2 l2 Hrun. unfold bind in Hrun.
    destruct (game_undoStack g) as [|snapshot rest] eqn:Hst.
    + rewrite (undo_empty g Hst) in Hrun. cbv [ret] in Hrun. simplify_eq/=.
      split; [done|]. rewrite Hst. constructor.
    + destruct (undo_pops snapshot rest g Hst) as [log Hundo].
      rewrite Hundo in Hrun. cbv [ret] in Hrun. simplify_eq/=.
      apply Forall_cons in Hstack as [Hsnap Hrest]. by split.
Qed.

Lemma new_game_pendingWhenOver teams store r g log :
  Game_new teams store r = Some (g, log) -> pendingWhenOver g.
Proof.
  unfold Game_new.
  destruct (QuestionStore_getNextQuestion store) as [[q|] s]; [|done].
  unfold bind, Round_new, emit, ret, Game_setRandomTeam, bind, get. simpl.
  destruct (teams !! r) as [t|] eqn:Hr; [|done]. simpl.
  intros ?; simplify_eq. split; simpl; [|constructor].
  split; [apply empty_subseteq | done].
Qed.

(** X23.  In every game of a session the revealed ranks are ranks of
    answers of the question in play, and the next round is pending only
    when the round is over: every answer is counted as revealed
    ([checkFinish]) or the round has been stolen.  [advanceToNextRound]
    therefore never leaves a round that is still open in DEFAULT status. *)
Theorem next_round_pending_only_when_over teams store g :
  session teams store g ->
  round_revealed (game_round g) ⊆ ranks (round_question (game_round g)) /\
  (game_pendingNextRound g = true ->
   Round_checkFinish (game_round g) = true \/
   round_status (game_round g) = STOLEN).
Proof.
  intros Hsession.
  assert (countsRevealed g /\ pendingWhenOver g) as [_ [[Hsub Hpend] _]].
  { induction Hsession as [r g log Hnew|g a g' _ [IHc IH] Hstep].
    - split; [by eapply new_game_counts | by eapply new_game_pendingWhenOver].
    - split; [by eapply step_counts | by eapply step_pendingWhenOver]. }
  split; [done|]. intros Hp. destruct (Hpend Hp) as [Hfull|Hst]; [left | by right].
  unfold Round_checkFinish. by apply Z.eqb_eq.
Qed.

(** X23 on the sample game with both answers of the first question on the
    board. *)
Lemma next_round_pending_only_when_over_witness :
  let g := after [RevealAnswerByNumber 1; RevealAnswerByNumber 2] sampleGame in
  session sampleTeams sampleStore g /\
  game_pendingNextRound g = true /\
  round_revealed (game_round g) ⊆ ranks (round_question (game_round g)) /\
  (Round_checkFinish (game_round g) = true \/
   round_status (game_round g) = STOLEN).
Proof.
  intros g.
  assert (session sampleTeams sampleStore g) as H1.
  { apply (session_step _ _ (after [RevealAnswerByNumber 1] sampleGame)
             (RevealAnswerByNumber 2)); [|vm_compute; reflexivity].
    apply (session_step _ _ sampleGame (RevealAnswerByNumber 1));
      [exact sampleGame_session | vm_compute; reflexivity]. }
  assert (game_pendingNextRound g = true) as H2 by reflexivity.
  split; [exact H1|]. split; [exact H2|].
  destruct (next_round_pending_only_when_over _ _ g H1) as [Hsub Hover].
  split; [exact Hsub | exact (Hover H2)].
Defined.

(** ** What the board is asked to show *)

Lemma shown_at (ts : list Team) i t :
  ts !! i = Some t ->
  exists t0, t0 ∈ ts /\ team_name t0 = team_name t /\
             team_points t0 = team_points t.
Proof. intros Hi. exists t. split; [by eapply list_elem_of_lookup_2 | done]. Qed.

Lemma shown_errors_at (ts : list Team) i t :
  ts !! i = Some t ->
  exists t0, t0 ∈ ts /\ team_name t0 = team_name t /\
             team_errors t0 = team_errors t.
Proof. intros Hi. exists t. split; [by eapply list_elem_of_lookup_2 | done]. Qed.

Lemma shown_winner (ts : list Team) i t :
  ts !! i = Some t -> (400 <=? team_points t) = true ->
  exists t0, t0 ∈ ts /\ team_name t0 = team_name t /\ 400 <= team_points t0.
Proof.
  intros Hi Hw. exists t. split; [by eapply list_elem_of_lookup_2|].
  split; [done | by apply Z.leb_le].
Qed.

Lemma shown_errors_alter (f : Team -> Team) j (ts : list Team) name n :
  (forall x, team_name (f x) = team_name x /\ team_errors (f x) = team_errors x) ->
  (exists t0, t0 ∈ ts /\ team_name t0 = name /\ team_errors t0 = n) ->
  exists t0, t0 ∈ alter f j ts /\ team_name t0 = name /\ team_errors t0 = n.
Proof.
  intros Hf (t0 & Hin & Hn & He).
  apply list_elem_of_lookup in Hin as [k Hk].
  destruct (decide (j = k)) as [->|Hne].
  - exists (f t0). destruct (Hf t0) as [H1 H2].
    split; [|split; congruence].
    apply (list_elem_of_lookup_2 _ k). by rewrite list_lookup_alter_eq, Hk.
  - exists t0. split; [|done].
    apply (list_elem_of_lookup_2 _ k). by rewrite list_lookup_alter_ne.
Qed.

Ltac shows_leaf :=
  simpl in *; simplify_eq; rewrite ?app_nil_r;
  repeat (apply Forall_cons; split); try apply Forall_nil; simpl; try done;
  first [ eapply shown_at; eassumption
        | eapply shown_errors_at; eassumption
        | eapply shown_winner; eassumption
        | apply shown_errors_alter; [done|];
          eapply shown_errors_at; eassumption
        | split;
          [ apply elem_of_union; left; by apply elem_of_singleton
          | eexists; split;
            [ first [ eapply findByNumber_elem; eassumption
                    | eapply resolvePlayerAnswer_elem; eassumption ]
            | done ] ] ].

Lemma undo_log snapshot rest g :
  game_undoStack g = snapshot :: rest ->
  Game_undo g
  = Some (true, restored snapshot rest g,
          concat (map (fun t => [board_setPoints (team_name t) (team_points t);
                                 board_setErrors (team_name t) (team_errors t)])
                    (restoreTeams (snap_teamState snapshot) (game_teams g)))
          ++ [board_setQuestion (question_name (snap_roundQuestion snapshot));
              board_manageAnswerFields
                (length (question_answers (snap_roundQuestion snapshot)));
              board_setActiveTeam (snap_currentTeam snapshot);
              board_restoreBoardState]).
Proof.
  intros Hst. unfold Game_undo, bind, get. rewrite Hst.
  cbn [modify]. rewrite forEach_restoreTeam.
  erewrite forEach_emits; [|intros x g'; reflexivity].
  simpl. rewrite ?app_nil_r. reflexivity.
Qed.

(** X24.  Every request an event sends to the board agrees with the game
    the event leaves.  The points and the errors it asks to show for a team
    are those the team has; an answer it asks to reveal is an answer of the
    question in play, with its rank, text and points, and its rank is in
    the revealed set; the title and the number of rows are those of the
    question in play; and a team is announced as the winner only with 400
    points or more. *)
Theorem board_shows_the_game (a : Action) (g g' : Game)
    (log : list Effect) :
  exec (step a) g = Some (g', log) -> Forall (showsGame g') log.
Proof.
  unfold exec. intros Hstep.
  destruct (step a g) as [[[[] g1] l]|] eqn:Hrun; simplify_eq/=.
  revert g' log Hrun. generalize tt.
  change (post (step a) g (fun _ g' l => Forall (showsGame g') l)).
  destruct a; simpl; unfold ignore.
  - post_walk; shows_leaf.
  - post_walk; shows_leaf.
  - post_walk; shows_leaf.
  - post_walk; shows_leaf.
  - post_walk; shows_leaf.
  - intros [] g2 l2 Hrun. unfold bind in Hrun.
    destruct (game_undoStack g) as [|snapshot rest] eqn:Hst.
    + rewrite (undo_empty g Hst) in Hrun. cbv [ret] in Hrun. by simplify_eq/=.
    + rewrite (undo_log snapshot rest g Hst) in Hrun. cbv [ret] in Hrun.
      simplify_eq/=. rewrite app_nil_r. apply Forall_app. split.
      * apply Forall_concat, Forall_forall. intros es Hes.
        change (map ?f ?l) with (f <$> l) in Hes.
        apply list_elem_of_fmap in Hes as (t & -> & Hin).
        repeat (apply Forall_cons; split); try apply Forall_nil; simpl;
          first [done | by exists t].
      * repeat (apply Forall_cons; split); try apply Forall_nil; done.
Qed.

(** X24 on the error of red in the stolen fifth round, which ends the
    game. *)
Lemma board_shows_the_game_witness :
  exists g' log,
    exec (step AddErrorForSelectedTeam) stolenRoundFive = Some (g', log) /\
    board_finishGame (str "blue") ∈ log /\
    Forall (showsGame g') log.
Proof.
  destruct (exec (step AddErrorForSelectedTeam) stolenRoundFive)
    as [[g' log]|] eqn:H; [|vm_compute in H; discriminate].
  exists g', log. split; [reflexivity|]. split.
  - vm_compute in H. injection H as _ <-. in_list.
  - exact (board_shows_the_game _ _ _ _ H).
Defined.

(** ** The keyboard *)

(** X25.  What a key press can reach.  While the intro screen is shown no
    key reaches the game.  While the score overlay is shown the only call
    to the game a key can make is [undo].  A reveal is asked only by a key
    that is one digit from 1 to 9, for that number.  A team selection names
    blue, red or no team. *)
Theorem keydown_guards (screen : Screen) (key code : jsString) (c : Call) :
  keydown screen key code = Some c ->
  (introVisible screen = true -> reachesGame c = false) /\
  (scoreOverlayVisible screen = true -> reachesGame c = true -> c = game_undo) /\
  (forall n, c = game_revealAnswerByNumber n ->
             1 <= n <= 9 /\ key = [Z.to_N (n + 48)]) /\
  (forall name, c = game_setCurrentTeam name ->
                name ∈ [[]; str "blue"; str "red"]).
Proof.
  unfold keydown. intros Hk.
  destruct (introVisible screen).
  { repeat case_match; simplify_eq; repeat split; try done;
      intros; simplify_eq. }
  destruct (isKey key "s" "S").
  { simplify_eq. repeat split; try done; intros; simplify_eq. }
  destruct (isKey key "z" "Z").
  { simplify_eq. repeat split; try done; intros; simplify_eq. }
  destruct (scoreOverlayVisible screen); [done|].
  repeat match type of Hk with
         | (if isKey ?k ?a ?b then _ else _) = _ =>
             destruct (isKey k a b);
             [repeat case_match; simplify_eq;
              repeat split; try done; intros; simplify_eq; in_list|]
         end.
  unfold digitKey in Hk. destruct key as [|k [|? ?]]; simplify_eq/=.
  destruct (inRange 49 57 k) eqn:Hr; simplify_eq/=.
  unfold inRange in Hr. apply andb_true_iff in Hr as [H1 H2].
  apply N.leb_le in H1, H2.
  repeat split; try done; intros; simplify_eq; try lia.
  replace (Z.of_N k - 48 + 48) with (Z.of_N k) by lia. by rewrite N2Z.id.
Qed.

(** X25 on the key 7 with no overlay, and on the key X under the overlay. *)
Lemma keydown_guards_witness :
  let screen := mkScreen false true false true in
  keydown screen (str "7") (str "Digit7") = Some (game_revealAnswerByNumber 7) /\
  (1 <= 7 <= 9 /\ str "7" = [Z.to_N (7 + 48)]) /\
  keydown (mkScreen false true true true) (str "x") (str "KeyX") = None.
Proof.
  intros screen.
  assert (keydown screen (str "7") (str "Digit7")
          = Some (game_revealAnswerByNumber 7)) as H by reflexivity.
  split; [exact H|]. split; [|reflexivity].
  destruct (keydown_guards screen _ _ _ H) as (_ & _ & Hdigit & _).
  exact (Hdigit 7 eq_refl).
Defined.

(** ** Events with and without an active team *)

Lemma revealOnly_frame a :
  keeps (same (fun g => (game_teams g, game_currentTeam g, game_roundCount g,
                         game_undoStack g)))
    (Round_revealAnswerOnly a ;; flagIfFinished).
Proof. frame. Qed.

Lemma revealOnly_requests a :
  emitsOnly revealRequest (Round_revealAnswerOnly a ;; flagIfFinished).
Proof. repeat emits_step; done. Qed.

(** X26.  With no team active nothing is scored.  A guess, a reveal by
    number or a manual error made while [getCurrentTeam] finds no team
    leaves every team with its points and errors, the round with its points
    and its status, nobody selected and the round counter as it was; the
    board is asked at most to show the answer and play the reveal sound. *)
Theorem nothing_is_scored_without_a_team (e : Action) (g g' : Game)
    (log : list Effect) :
  Game_getCurrentTeam g = None ->
  ~ bookkeeping e ->
  exec (step e) g = Some (g', log) ->
  game_teams g' = game_teams g /\
  round_points (game_round g') = round_points (game_round g) /\
  round_status (game_round g') = round_status (game_round g) /\
  game_currentTeam g' = game_currentTeam g /\
  game_roundCount g' = game_roundCount g /\
  Forall revealRequest log.
Proof.
  intros Hteam He Hexec.
  destruct (eventAnswer e g) as [x|] eqn:Hev.
  - rewrite (step_event_inactive e g x Hteam Hev) in Hexec.
    destruct x as [a|].
    + unfold exec in Hexec.
      destruct ((Round_revealAnswerOnly a;; flagIfFinished) (pushed g))
        as [[[[] g1] l1]|] eqn:Hrun; simplify_eq.
      pose proof (revealOnly_frame a _ _ _ _ Hrun) as Hf.
      pose proof (revealOnly_requests a _ _ _ _ Hrun) as Hlog.
      unfold same in Hf. simpl in Hf. simplify_eq.
      destruct (revealOnly_then_flag (pushed g) a)
        as (g2 & l2 & Hrun2 & _ & Hround).
      unfold exec in Hrun2. rewrite Hrun in Hrun2. simplify_eq.
      rewrite Hround. simpl.
      clear Hround. destruct (decide _); by split_and!.
    + simplify_eq. by destruct (pushes e g).
  - destruct e; simpl in He; try (exfalso; by apply He); simpl in Hev;
      try done.
    rewrite (step_event_dropped (RevealAnswerByNumber number) g) in Hexec.
    + by simplify_eq.
    + simpl. by destruct (findByNumber number g).
    + right. right. by eexists.
Qed.

(** X26 on the sample game with nobody selected: "kot" is revealed, and
    blue and red stay at 0. *)
Lemma nothing_is_scored_without_a_team_witness :
  let g := after [SetCurrentTeam []] sampleGame in
  Game_getCurrentTeam g = None /\
  ~ bookkeeping (RevealAnswerByNumber 1) /\
  exists g' log,
    exec (step (RevealAnswerByNumber 1)) g = Some (g', log) /\
    round_revealed (game_round g') = {[ 1 ]} /\
    game_teams g' = game_teams g /\
    round_points (game_round g') = round_points (game_round g).
Proof.
  intros g.
  assert (Game_getCurrentTeam g = None) as H1 by reflexivity.
  assert (~ bookkeeping (RevealAnswerByNumber 1)) as H2 by (intros []).
  split; [exact H1|]. split; [exact H2|].
  destruct (exec (step (RevealAnswerByNumber 1)) g)
    as [[g' log]|] eqn:H3; [|vm_compute in H3; discriminate].
  exists g', log. split; [reflexivity|]. split.
  - vm_compute in H3. by injection H3 as <- _.
  - destruct (nothing_is_scored_without_a_team _ _ _ _ H1 H2 H3)
      as (Ht & Hp & _).
    split; [exact Ht | exact Hp].
Defined.

(** X27.  The first and the second error.  In a game of two teams, an
    error event for the active team in a round of status DEFAULT that does
    not bring the team to three errors pushes the snapshot, adds one to the
    errors of that team and changes nothing else: the points, the round,
    the status, the selection and the pending flag stay, and the board is
    asked for the new count and the sound. *)
Theorem error_below_three_only_counts (e : Action) (g : Game) (i : nat)
    (t : Team) :
  twoTeams g -> activeAt g i t ->
  round_status (game_round g) = DEFAULT ->
  eventAnswer e g = Some None ->
  team_errors t + 1 <> 3 ->
  exec (step e) g
  = Some (set_teams (alter Team_addError i) (pushed g),
          [board_setErrors (team_name t) (team_errors t + 1);
           audio_playWrong]).
Proof.
  intros Htwo Hact Hst Hev Hne.
  destruct (twoTeams_other g i t Htwo Hact) as (j & u & Hj & Hij).
  pose proof (activeAt_getCurrentTeam _ _ _ Htwo Hact) as Hteam.
  rewrite (step_event_active _ _ _ _ Hteam Hev). unfold exec.
  rewrite (setBoardError_default (pushed g) i t j u); try done.
  - destruct (Z.eqb_spec (team_errors t + 1) 3); [done|]. done.
  - by apply twoTeams_pushed.
Qed.

(** X27 on the first error of blue in the sample game. *)
Lemma error_below_three_only_counts_witness :
  twoTeams sampleGame /\ activeAt sampleGame 0 blue0 /\
  round_status (game_round sampleGame) = DEFAULT /\
  eventAnswer AddErrorForSelectedTeam sampleGame = Some None /\
  team_errors blue0 + 1 <> 3 /\
  exec (step AddErrorForSelectedTeam) sampleGame
  = Some (set_teams (alter Team_addError 0%nat) (pushed sampleGame),
          [board_setErrors (str "blue") 1; audio_playWrong]).
Proof.
  assert (activeAt sampleGame 0 blue0) as H2 by (split; reflexivity).
  assert (round_status (game_round sampleGame) = DEFAULT) as H3
    by reflexivity.
  assert (eventAnswer AddErrorForSelectedTeam sampleGame = Some None) as H4
    by reflexivity.
  assert (team_errors blue0 + 1 <> 3) as H5 by (simpl; lia).
  split; [exact sampleGame_twoTeams|]. split; [exact H2|].
  split; [exact H3|]. split; [exact H4|]. split; [exact H5|].
  exact (error_below_three_only_counts _ _ _ _ sampleGame_twoTeams
           H2 H3 H4 H5).
Defined.

(** X28.  A reveal that leaves the round open.  With a team active, the
    reveal of a rank not yet on the board, in a round of status DEFAULT
    that the reveal does not complete, pushes the snapshot, records the
    rank, adds one to the right counter and the points of the answer to
    the points of the round, and credits no team: the teams, the selection
    and the pending flag stay as they were. *)
Theorem reveal_that_leaves_the_round_open (e : Action) (g : Game) (i : nat)
    (a : Answer) :
  Game_getCurrentTeam g = Some i ->
  eventAnswer e g = Some (Some a) ->
  lp a ∉ round_revealed (game_round g) ->
  round_status (game_round g) = DEFAULT ->
  Z.of_nat (length (question_answers (round_question (game_round g))))
  <> round_right (game_round g) + 1 ->
  exec (step e) g
  = Some (set_round (revealIn a true (game_round g)) (pushed g),
          [board_setAnswer (lp a) (ans a) (points a); audio_playReveal]).
Proof.
  intros Hteam Hev Hfresh Hst Hopen.
  rewrite (step_event_active _ _ _ _ Hteam Hev). unfold exec.
  rewrite (setBoardAnswer_fresh (pushed g) a) by done.
  simpl. rewrite Hst. unfold Round_checkFinish. simpl.
  destruct (Z.eqb_spec
              (Z.of_nat (length (question_answers (round_question (game_round g)))))
              (round_right (game_round g) + 1)); [done|].
  reflexivity.
Qed.

(** X28 on the guess "kot" in the sample game. *)
Lemma reveal_that_leaves_the_round_open_witness :
  Game_getCurrentTeam sampleGame = Some 0%nat /\
  eventAnswer (HandlePlayerAnswer (str "kot")) sampleGame = Some (Some kot) /\
  (lp kot ∉ round_revealed (game_round sampleGame)) /\
  exists g',
    stateAfter (step (HandlePlayerAnswer (str "kot"))) sampleGame = Some g' /\
    round_points (game_round g') = 40 /\
    game_teams g' = game_teams sampleGame /\
    game_pendingNextRound g' = false.
Proof.
  assert (Game_getCurrentTeam sampleGame = Some 0%nat) as H1 by reflexivity.
  assert (eventAnswer (HandlePlayerAnswer (str "kot")) sampleGame
          = Some (Some kot)) as H2 by reflexivity.
  assert (lp kot ∉ round_revealed (game_round sampleGame)) as H3
    by by_compute.
  assert (round_status (game_round sampleGame) = DEFAULT) as H4
    by reflexivity.
  assert (Z.of_nat (length (question_answers
                              (round_question (game_round sampleGame))))
          <> round_right (game_round sampleGame) + 1) as H5
    by (vm_compute; discriminate).
  split; [exact H1|]. split; [exact H2|]. split; [exact H3|].
  pose proof (reveal_that_leaves_the_round_open _ _ _ _ H1 H2 H3 H4 H5)
    as Hrun.
  eexists. unfold stateAfter. rewrite Hrun. simpl. by repeat split.
Defined.

(** ** The export of the questions *)

Lemma insertByLp_Permutation a l : insertByLp a l ≡ₚ a :: l.
Proof.
  induction l as [|b l IH]; simpl; [done|].
  destruct (lp a <=? lp b); [done|]. rewrite IH. apply Permutation_swap.
Qed.

Lemma insertByLp_sorted a l :
  StronglySorted (fun x y => lp x <= lp y) l ->
  StronglySorted (fun x y => lp x <= lp y) (insertByLp a l).
Proof.
  induction 1 as [|b l Hs IH Hb]; simpl; [repeat constructor|].
  destruct (Z.leb_spec (lp a) (lp b)) as [Hle|Hgt].
  - constructor; [by constructor|]. constructor; [done|].
    eapply Forall_impl; [exact Hb|]. intros c Hc. simpl in *. lia.
  - constructor; [done|]. rewrite insertByLp_Permutation.
    constructor; [lia | done].
Qed.

(** Insertion keeps the order in which the answers of one rank came. *)
Lemma insertByLp_rank a l n :
  StronglySorted (fun x y => lp x <= lp y) l ->
  filter (fun x => lp x = n) (insertByLp a l)
  = filter (fun x => lp x = n) (a :: l).
Proof.
  induction 1 as [|b l Hs IH Hb]; simpl; [done|].
  destruct (Z.leb_spec (lp a) (lp b)) as [Hle|Hgt]; [done|].
  destruct (decide (lp b = n)) as [Hbn|Hbn].
  - rewrite (filter_cons_True _ b) by done. rewrite IH.
    rewrite (filter_cons_False _ a) by lia.
    rewrite (filter_cons_False _ a) by lia.
    by rewrite filter_cons_True by done.
  - rewrite (filter_cons_False _ b) by done. rewrite IH.
    destruct (decide (lp a = n)).
    + rewrite !(filter_cons_True _ a) by done.
      by rewrite filter_cons_False by done.
    + rewrite !(filter_cons_False _ a) by done.
      by rewrite filter_cons_False by done.
Qed.

(** X29.  For a line of the dataset the export lists exactly the answers
    the game holds for it -- the records of the entries that are not falsy
    -- ordered by rank, the answers of one rank in the order of the
    dataset. *)
Theorem formatAnswers_sorts_the_answers_of_the_game
    (title : jsString) (answers : list RawEntry) :
  StronglySorted (fun a b => lp a <= lp b) (formatAnswers answers) /\
  formatAnswers answers ≡ₚ question_answers (questionOf (title, answers)) /\
  forall n,
    filter (fun a => lp a = n) (formatAnswers answers)
    = filter (fun a => lp a = n)
        (question_answers (questionOf (title, answers))).
Proof.
  unfold formatAnswers, questionOf, sortByLp. simpl.
  induction (omap recordOf answers) as [|a l (IH1 & IH2 & IH3)]; simpl.
  - split; [constructor|]. by split.
  - split; [by apply insertByLp_sorted|]. split.
    + by rewrite insertByLp_Permutation, IH2.
    + intros n. rewrite insertByLp_rank by done.
      destruct (decide (lp a = n)).
      * rewrite !(filter_cons_True _ a) by done. by rewrite IH3.
      * rewrite !(filter_cons_False _ a) by done. by rewrite IH3.
Qed.
